(** * Husqvarna Automower API client: token lifecycle and resilient requests

    A shallow embedding of [Husqvarna.py].  The client object is a record,
    every method is a function that threads the client and the outside world
    explicitly, and a Python exception that escapes a method is an explicit
    [Raise] result.

    The outside world is an oracle: the n-th HTTP request of a run is answered
    by [responses w n], the n-th reading of [datetime.now()] is [clock w n],
    and the requests and sleeps performed are appended to [trace w].

    Conventions
    - a decoded JSON document and every Python value built from one is a
      [JValue]; Python's [None] is [JNull]; JSON numbers are integers here;
    - a [datetime] is a number of microseconds counted from 2000-01-01 00:00,
      a [timedelta] is a number of microseconds;
    - [log] only prints, so a call to it is kept only for what evaluating its
      argument does (it can read the clock and it can raise); what it prints
      for a given text is modelled on its own, in [log];
    - request headers and request bodies are not stored, the client never
      reads them back; of a header that depends on the credentials or on a
      response, what is kept is what httpx does when the value is put in the
      session ([header_value]);
    - an [except] clause evaluates the classes it names when an exception
      reaches it, and [httpx] has no attribute [JSONDecodeError]: evaluating
      that name raises an [AttributeError], which is [ModuleAttributeError]
      here ([httpx_JSONDecodeError]). *)

From stdpp Require Import gmap strings list fin_maps.
From Stdlib Require Import ZArith DecimalString Ascii.

Set Warnings "-register-all".
Open Scope Z_scope.

(** ** Strings *)

Definition str_of_Z (z : Z) : string := NilZero.string_of_int (Z.to_int z).

Definition dquote : string := String (ascii_of_nat 34) EmptyString.
Definition newline : string := String (ascii_of_nat 10) EmptyString.

(** [substringb needle hay]: Python's [needle in hay] on two [str]. *)
Fixpoint substringb (needle hay : string) : bool :=
  String.prefix needle hay ||
  match hay with
  | EmptyString => false
  | String _ rest => substringb needle rest
  end.

(** [includes msg part]: [part] occurs in [msg]. *)
Definition includes (msg part : string) : Prop :=
  ∃ before after, msg = before +:+ part +:+ after.

(** ** Python values and the operations the client applies to them *)

Inductive JValue :=
| JNull
| JBool (b : bool)
| JNum (z : Z)
| JStr (s : string)
| JArr (l : list JValue)
| JObj (m : gmap string JValue).

(** [AttributeError v attr] is raised by [v.attr] on a value,
    [ModuleAttributeError module attr] by [module.attr] on a module. *)
Inductive PyExn :=
| TypeError (op : string) (v : JValue)
| AttributeError (v : JValue) (attr : string)
| ModuleAttributeError (module attr : string)
| KeyError (key : string)
| IndexError (v : JValue)
| OverflowError
| JSONDecodeError (doc : string)
| UnicodeEncodeError (s : string).

Inductive Result (A : Type) :=
| Ok (a : A)
| Raise (e : PyExn).
Arguments Ok {A} a.
Arguments Raise {A} e.

Definition rbind {A B} (r : Result A) (k : A → Result B) : Result B :=
  match r with
  | Ok a => k a
  | Raise e => Raise e
  end.

Declare Scope result_scope.
Delimit Scope result_scope with result.
Notation "x <~ r ;; k" := (rbind r (fun x => k))
  (at level 100, r at next level, right associativity) : result_scope.

(** An exception class, as an [except] clause uses it: the exceptions that
    are instances of it *)
Definition ExnClass : Type := PyExn → bool.

(** [json.JSONDecodeError] *)
Definition json_JSONDecodeError : ExnClass :=
  fun e => match e with JSONDecodeError _ => true | _ => false end.

(** [httpx.JSONDecodeError]: the module [httpx] exports no such name (its
    decoding errors are [httpx.DecodingError]; [Response.json] raises the
    [json] one), so evaluating the expression raises. *)
Definition httpx_JSONDecodeError : Result ExnClass :=
  Raise (ModuleAttributeError "httpx" "JSONDecodeError").

(** What the interpreter prints for a list or a dict ([repr]) and for an
    exception ([str(e)]).  These texts depend on the interpreter version, so
    they are parameters of the development. *)
Class PyRuntime := {
  py_repr : JValue → string;
  exn_str : PyExn → string
}.

(** [str(v)], as an f-string field prints v *)
Definition py_str `{PyRuntime} (v : JValue) : string :=
  match v with
  | JNull => "None"
  | JBool true => "True"
  | JBool false => "False"
  | JNum z => str_of_Z z
  | JStr s => s
  | JArr _ | JObj _ => py_repr v
  end.

(** [bool(v)] *)
Definition truthy (v : JValue) : bool :=
  match v with
  | JNull => false
  | JBool b => b
  | JNum z => negb (z =? 0)
  | JStr s => negb (String.eqb s EmptyString)
  | JArr l => negb (Nat.eqb (length l) 0)
  | JObj m => negb (Nat.eqb (size m) 0)
  end.

(** [v == s] for a [str] s *)
Definition py_eq_str (v : JValue) (s : string) : bool :=
  match v with
  | JStr t => String.eqb t s
  | _ => false
  end.

(** [key in v] *)
Definition py_contains (key : string) (v : JValue) : Result bool :=
  match v with
  | JObj m => Ok (bool_decide (is_Some (m !! key)))
  | JArr l => Ok (existsb (fun x => py_eq_str x key) l)
  | JStr s => Ok (substringb key s)
  | _ => Raise (TypeError "in" v)
  end.

(** [v[key]] for a [str] key *)
Definition py_getitem (v : JValue) (key : string) : Result JValue :=
  match v with
  | JObj m =>
      match m !! key with
      | Some x => Ok x
      | None => Raise (KeyError key)
      end
  | _ => Raise (TypeError "getitem" v)
  end.

(** [v[0]] *)
Definition py_getitem0 (v : JValue) : Result JValue :=
  match v with
  | JArr (x :: _) => Ok x
  | JArr [] => Raise (IndexError v)
  | JStr (String c _) => Ok (JStr (String c EmptyString))
  | JStr EmptyString => Raise (IndexError v)
  | JObj _ => Raise (KeyError "0")
  | _ => Raise (TypeError "getitem" v)
  end.

(** [v.get(key, dflt)] *)
Definition py_get (v : JValue) (key : string) (dflt : JValue) : Result JValue :=
  match v with
  | JObj m => Ok (default dflt (m !! key))
  | _ => Raise (AttributeError v "get")
  end.

(** [v[-20:]]; only whether the slice exists matters, it is printed and dropped *)
Definition py_slice (v : JValue) : Result unit :=
  match v with
  | JStr _ | JArr _ => Ok tt
  | _ => Raise (TypeError "slice" v)
  end.

(** [iter(v)]: the values a [for] loop over v binds *)
Definition py_iter (v : JValue) : Result (list JValue) :=
  match v with
  | JArr l => Ok l
  | JObj m => Ok (JStr <$> (map_to_list m).*1)
  | JStr s => Ok ((fun c => JStr (String c EmptyString)) <$> String.list_ascii_of_string s)
  | _ => Raise (TypeError "iter" v)
  end.

(** ** Header values *)

(** A [str] is the list of its characters; the ASCII ones have a code below
    128. *)
Definition is_ascii (s : string) : bool :=
  forallb (fun c => Nat.ltb (nat_of_ascii c) 128) (String.list_ascii_of_string s).

(** What httpx does with a header value when it is put in the headers of a
    session: a [str] is encoded as ASCII, and a value that is no [str] is
    refused with a [TypeError] (old versions of httpx raise the
    [AttributeError] of [value.encode] at the same place). *)
Definition header_value (v : JValue) : Result unit :=
  match v with
  | JStr s => if is_ascii s then Ok tt else Raise (UnicodeEncodeError s)
  | _ => Raise (TypeError "header" v)
  end.

(** ** Dates *)

Definition microseconds_per_second : Z := 1000000.
Definition microseconds_per_day : Z := 86400 * microseconds_per_second.

(** [datetime(2000, 1, 1)] *)
Definition datetime_2000_01_01 : Z := 0.
(** [datetime.min] and [datetime.max]: 0001-01-01 is 730119 days before
    2000-01-01, and 9999-12-31 is 2921939 days after it *)
Definition datetime_min : Z := - 730119 * microseconds_per_day.
Definition datetime_max : Z := 2921940 * microseconds_per_day - 1.
Definition timedelta_max_days : Z := 999999999.

(** [timedelta(seconds=v)] *)
Definition timedelta_seconds (v : JValue) : Result Z :=
  let of_int (z : Z) :=
    if (- timedelta_max_days * 86400 <=? z) && (z <? (timedelta_max_days + 1) * 86400)
    then Ok (z * microseconds_per_second)
    else Raise OverflowError in
  match v with
  | JNum z => of_int z
  | JBool b => of_int (if b then 1 else 0)
  | _ => Raise (TypeError "timedelta" v)
  end.

(** [d + td] on a [datetime] and a [timedelta] *)
Definition datetime_add (d td : Z) : Result Z :=
  if (datetime_min <=? d + td) && (d + td <=? datetime_max)
  then Ok (d + td)
  else Raise OverflowError.

(** ** Logging *)

(** [range(0, stop, step)], entered at [start]; [fuel] bounds the number of
    elements, and [stop] of it is enough for a positive step. *)
Fixpoint range_from (fuel start stop step : nat) : list nat :=
  match fuel with
  | O => []
  | S fuel' =>
      if Nat.ltb start stop then start :: range_from fuel' (start + step) stop step
      else []
  end.

Definition py_range (stop step : nat) : list nat := range_from stop 0 stop step.

(** [log(msg)] inside Domoticz, as the list of the texts handed to
    [Domoticz.Debug], in order.  A [str] is the sequence of its characters;
    [formatted[i:i+5000]] is [String.substring i 5000 formatted]. *)
Definition log (msg : string) : list string :=
  let formatted := msg in
  if Nat.leb (String.length formatted) 5000 then [">> " +:+ formatted]
  else
    let chunks :=
      (fun i => String.substring i 5000 formatted) <$>
        py_range (String.length formatted) 5000 in
    ">> (in several blocks)" :: ((fun chunk => ">> " +:+ chunk) <$> chunks).

(** [log(msg)] outside Domoticz: the text handed to [print] *)
Definition log_fallback (msg : string) : list string := [msg].

(** ** Constants of the module *)

Module ApiEndpoints.
Definition TOKEN_REQUEST : string :=
  "https://api.authentication.husqvarnagroup.dev/v1/oauth2/token".
Definition BASE_API : string := "https://api.amc.husqvarna.dev/v1/".
Definition MOWERS : string := BASE_API +:+ "mowers".
End ApiEndpoints.

Module ApiConfig.
Definition RETRY_DELAY : Z := 2.
Definition TIMEOUT : Z := 5.
Definition TOKEN_REFRESH_MARGIN : Z := 600.
End ApiConfig.

Inductive HttpMethod := POST | GET.

Inductive MowerAction :=
| PARK_NEXT_SCHEDULE
| PARK_FURTHER_NOTICE
| RESUME_SCHEDULE
| START
| PAUSE.

Module MowerState.
Definition OFF : string := "OFF".
Definition OK : string := "OK".
Definition ERROR : string := "ERROR".
Definition WARNING : string := "WARNING".
End MowerState.

(** ** The HTTP layer seen from the client *)

(** An [httpx.Response]: [json_body] is what [response.json()] returns on
    [text], [None] when decoding the text raises [JSONDecodeError]. *)
Record Response := {
  status_code : Z;
  text : string;
  json_body : option JValue
}.

Definition response_json (r : Response) : Result JValue :=
  match json_body r with
  | Some v => Ok v
  | None => Raise (JSONDecodeError (text r))
  end.

(** One [session.get] or [session.post]: a response, or an
    [httpx.RequestError] (timeouts and connection errors are subclasses)
    given by its text. *)
Inductive Attempt :=
| Resp (r : Response)
| NetErr (e : string).

Inductive Event :=
| EvRequest (method : HttpMethod) (url : string)
| EvSleep (seconds : Z).

Record World := {
  responses : nat → Attempt;
  clock : nat → Z;
  requests_made : nat;
  clock_reads : nat;
  trace : list Event
}.

(** [session.get(url, ...)] / [session.post(url, ...)] *)
Definition send (method : HttpMethod) (url : string) (w : World) : Attempt * World :=
  (responses w (requests_made w),
   {| responses := responses w; clock := clock w;
      requests_made := S (requests_made w); clock_reads := clock_reads w;
      trace := trace w ++ [EvRequest method url] |}).

(** [time.sleep(seconds)] *)
Definition sleep (seconds : Z) (w : World) : World :=
  {| responses := responses w; clock := clock w;
     requests_made := requests_made w; clock_reads := clock_reads w;
     trace := trace w ++ [EvSleep seconds] |}.

(** [datetime.now()] *)
Definition now (w : World) : Z * World :=
  (clock w (clock_reads w),
   {| responses := responses w; clock := clock w;
      requests_made := requests_made w; clock_reads := S (clock_reads w);
      trace := trace w |}).

(** ** The client object *)

Record ApiState := {
  access_token : JValue;
  access_token_expiration : Z;
  timestamp_last_update_mower_list : Z;
  error : option string;
  api_limit_reached : bool;
  authenticated : bool
}.

Record Husqvarna := {
  client_id : string;
  client_secret : string;
  mowers : list (gmap string JValue);
  state : ApiState
}.

(** [ApiState()] *)
Definition ApiState_default : ApiState :=
  {| access_token := JNull;
     access_token_expiration := datetime_2000_01_01;
     timestamp_last_update_mower_list := datetime_2000_01_01;
     error := None;
     api_limit_reached := false;
     authenticated := false |}.

Definition with_state (f : ApiState → ApiState) (self : Husqvarna) : Husqvarna :=
  {| client_id := client_id self; client_secret := client_secret self;
     mowers := mowers self; state := f (state self) |}.

Definition set_mowers (ms : list (gmap string JValue)) (self : Husqvarna) : Husqvarna :=
  {| client_id := client_id self; client_secret := client_secret self;
     mowers := ms; state := state self |}.

Definition set_access_token (v : JValue) : Husqvarna → Husqvarna :=
  with_state (fun s =>
    {| access_token := v;
       access_token_expiration := access_token_expiration s;
       timestamp_last_update_mower_list := timestamp_last_update_mower_list s;
       error := error s; api_limit_reached := api_limit_reached s;
       authenticated := authenticated s |}).

Definition set_access_token_expiration (t : Z) : Husqvarna → Husqvarna :=
  with_state (fun s =>
    {| access_token := access_token s;
       access_token_expiration := t;
       timestamp_last_update_mower_list := timestamp_last_update_mower_list s;
       error := error s; api_limit_reached := api_limit_reached s;
       authenticated := authenticated s |}).

Definition set_timestamp_last_update_mower_list (t : Z) : Husqvarna → Husqvarna :=
  with_state (fun s =>
    {| access_token := access_token s;
       access_token_expiration := access_token_expiration s;
       timestamp_last_update_mower_list := t;
       error := error s; api_limit_reached := api_limit_reached s;
       authenticated := authenticated s |}).

Definition set_error (e : option string) : Husqvarna → Husqvarna :=
  with_state (fun s =>
    {| access_token := access_token s;
       access_token_expiration := access_token_expiration s;
       timestamp_last_update_mower_list := timestamp_last_update_mower_list s;
       error := e; api_limit_reached := api_limit_reached s;
       authenticated := authenticated s |}).

Definition set_api_limit_reached (b : bool) : Husqvarna → Husqvarna :=
  with_state (fun s =>
    {| access_token := access_token s;
       access_token_expiration := access_token_expiration s;
       timestamp_last_update_mower_list := timestamp_last_update_mower_list s;
       error := error s; api_limit_reached := b;
       authenticated := authenticated s |}).

Definition set_authenticated (b : bool) : Husqvarna → Husqvarna :=
  with_state (fun s =>
    {| access_token := access_token s;
       access_token_expiration := access_token_expiration s;
       timestamp_last_update_mower_list := timestamp_last_update_mower_list s;
       error := error s; api_limit_reached := api_limit_reached s;
       authenticated := b |}).

(** A method: it reads and updates the client and the world, and returns or
    raises.  What it did before raising stays done. *)
Definition M (A : Type) : Type := Husqvarna → World → Result A * Husqvarna * World.

Definition ret {A} (a : A) : M A := fun self w => (Ok a, self, w).

Definition bind {A B} (m : M A) (k : A → M B) : M B :=
  fun self w =>
    match m self w with
    | (Ok a, self', w') => k a self' w'
    | (Raise e, self', w') => (Raise e, self', w')
    end.

Definition lift {A} (r : Result A) : M A := fun self w => (r, self, w).
Definition update (f : Husqvarna → Husqvarna) : M unit := fun self w => (Ok tt, f self, w).
Definition datetime_now : M Z := fun self w => let '(t, w') := now w in (Ok t, self, w').

Declare Scope method_scope.
Delimit Scope method_scope with method.
Notation "x <- m ;; k" := (bind m (fun x => k))
  (at level 100, m at next level, right associativity) : method_scope.
Notation "m ;;; k" := (bind m (fun _ => k))
  (at level 100, right associativity) : method_scope.

(** ** The error-code table *)

Module ErrorCodes.

(** The entries of the dict display [CODES], in source order *)
Definition CODES_items : list (Z * string) :=
  [
   (0, "Unexpected error");
   (1, "Outside working area");
   (2, "No loop signal");
   (3, "Wrong loop signal");
   (4, "Loop sensor problem, front");
   (5, "Loop sensor problem, rear");
   (6, "Loop sensor problem, left");
   (7, "Loop sensor problem, right");
   (8, "Wrong PIN code");
   (9, "Trapped");
   (10, "Upside down");
   (11, "Low battery");
   (12, "Empty battery");
   (13, "No drive");
   (14, "Mower lifted");
   (15, "Lifted");
   (16, "Stuck in charging station");
   (17, "Charging station blocked");
   (18, "Collision sensor problem, rear");
   (19, "Collision sensor problem, front");
   (20, "Wheel motor blocked, right");
   (21, "Wheel motor blocked, left");
   (22, "Wheel drive problem, right");
   (23, "Wheel drive problem, left");
   (24, "Cutting system blocked");
   (25, "Cutting system blocked");
   (26, "Invalid sub-device combination");
   (27, "Settings restored");
   (28, "Memory circuit problem");
   (29, "Slope too steep");
   (30, "Charging system problem");
   (31, "STOP button problem");
   (32, "Tilt sensor problem");
   (33, "Mower tilted");
   (34, "Cutting stopped - slope too steep");
   (35, "Wheel motor overloaded, right");
   (36, "Wheel motor overloaded, left");
   (37, "Charging current too high");
   (38, "Electronic problem");
   (39, "Cutting motor problem");
   (40, "Limited cutting height range");
   (41, "Unexpected cutting height adj");
   (42, "Limited cutting height range");
   (43, "Cutting height problem, drive");
   (44, "Cutting height problem, curr");
   (45, "Cutting height problem, dir");
   (46, "Cutting height blocked");
   (47, "Cutting height problem");
   (48, "No response from charger");
   (49, "Ultrasonic problem");
   (50, "Guide 1 not found");
   (51, "Guide 2 not found");
   (52, "Guide 3 not found");
   (53, "GPS navigation problem");
   (54, "Weak GPS signal");
   (55, "Difficult finding home");
   (56, "Guide calibration accomplished");
   (57, "Guide calibration failed");
   (58, "Temporary battery problem");
   (59, "Temporary battery problem");
   (60, "Temporary battery problem");
   (61, "Temporary battery problem");
   (62, "Temporary battery problem");
   (63, "Temporary battery problem");
   (64, "Temporary battery problem");
   (65, "Temporary battery problem");
   (66, "Battery problem");
   (67, "Battery problem");
   (68, "Temporary battery problem");
   (69, "Alarm! Mower switched off");
   (70, "Alarm! Mower stopped");
   (71, "Alarm! Mower lifted");
   (72, "Alarm! Mower tilted");
   (73, "Alarm! Mower in motion");
   (74, "Alarm! Outside geofence");
   (75, "Connection changed");
   (76, "Connection NOT changed");
   (77, "Com board not available");
   (78, "Slipped - Mower has Slipped.Situation not solved with moving pattern");
   (79, "Invalid battery combination - Invalid combination of different battery types.");
   (80, "Cutting system imbalance  Warning");
   (81, "Safety function faulty");
   (82, "Wheel motor blocked, rear right");
   (83, "Wheel motor blocked, rear left");
   (84, "Wheel drive problem, rear right");
   (85, "Wheel drive problem, rear left");
   (86, "Wheel motor overloaded, rear right");
   (87, "Wheel motor overloaded, rear left");
   (88, "Angular sensor problem");
   (89, "Invalid system configuration");
   (90, "No power in charging station");
   (91, "Switch cord problem");
   (92, "Work area not valid");
   (93, "No accurate position from satellites");
   (94, "Reference station communication problem");
   (95, "Folding sensor activated");
   (96, "Right brush motor overloaded");
   (97, "Left brush motor overloaded");
   (98, "Ultrasonic Sensor 1 defect");
   (99, "Ultrasonic Sensor 2 defect");
   (100, "Ultrasonic Sensor 3 defect");
   (101, "Ultrasonic Sensor 4 defect");
   (102, "Cutting drive motor 1 defect");
   (103, "Cutting drive motor 2 defect");
   (104, "Cutting drive motor 3 defect");
   (105, "Lift Sensor defect");
   (106, "Collision sensor defect");
   (107, "Docking sensor defect");
   (108, "Folding cutting deck sensor defect");
   (109, "Loop sensor defect");
   (110, "Collision sensor error");
   (111, "No confirmed position");
   (112, "Cutting system major imbalance");
   (113, "Complex working area");
   (114, "Too high discharge current");
   (115, "Too high internal current");
   (116, "High charging power loss");
   (117, "High internal power loss");
   (118, "Charging system problem");
   (119, "Zone generator problem");
   (120, "Internal voltage error");
   (121, "High internal temerature");
   (122, "CAN error");
   (123, "Destination not reachable");
   (124, "Destination blocked");
   (125, "Battery needs replacement");
   (126, "Battery near end of life");
   (127, "Battery problem");
   (701, "Connectivity problem");
   (702, "Connectivity settings restored");
   (703, "Connectivity problem");
   (704, "Connectivity problem");
   (705, "Connectivity problem");
   (706, "Poor signal quality");
   (707, "SIM card requires PIN");
   (708, "SIM card locked");
   (709, "SIM card not found");
   (710, "SIM card locked");
   (711, "SIM card locked");
   (712, "SIM card locked");
   (713, "Geofence problem");
   (714, "Geofence problem");
   (715, "Connectivity problem");
   (716, "Connectivity problem");
   (717, "SMS could not be sent");
   (724, "Communication circuit board SW must be updated")].

Definition CODES : gmap Z string := list_to_map CODES_items.

(** [get_description(code)].  The annotation says [Optional[int]]; the caller
    inside the module passes whatever the JSON document holds, so the other
    shapes are kept: a [bool] is the integer it equals, a [str] is hashable
    and never a key, a list or a dict is not hashable. *)
Definition get_description `{PyRuntime} (code : JValue) : Result JValue :=
  let lookup (z : Z) :=
    JStr (default ("Unknown error code: " +:+ py_str code) (CODES !! z)) in
  match code with
  | JNull => Ok JNull
  | JNum z => Ok (lookup z)
  | JBool b => Ok (lookup (if b then 1 else 0))
  | JStr s => Ok (JStr ("Unknown error code: " +:+ py_str code))
  | JArr _ | JObj _ => Raise (TypeError "hash" code)
  end.

End ErrorCodes.

(** ** The request core *)

Section Client.
Context `{PyRuntime}.

(** [mower_name or 'Unknown'] *)
Definition name_or_unknown (mower_name : JValue) : string :=
  if truthy mower_name then py_str mower_name else "Unknown".

(** The common head of every analysed message: [(name - status) ] *)
Definition error_context (response : Response) (mower_name : JValue) : string :=
  "(" +:+ name_or_unknown mower_name +:+ " - " +:+ str_of_Z (status_code response) +:+ ") ".

(** The [try] block of [_analyze_http_error] *)
Definition analyze_body (response : Response) (url : string)
    (mower_name : JValue) : Result string :=
  (error_info <~ response_json response ;;
   has_errors <~ py_contains "errors" error_info ;;
   if has_errors then
     errors <~ py_getitem error_info "errors" ;;
     error_detail <~ (if truthy errors then py_getitem0 errors else Ok (JObj ∅)) ;;
     title <~ py_get error_detail "title" (JStr "Unknown Error") ;;
     detail <~ py_get error_detail "detail" (JStr "No detail") ;;
     Ok (error_context response mower_name +:+ py_str title +:+ ": " +:+
         py_str detail +:+ " (url: " +:+ url +:+ ")")
   else
     has_message <~ py_contains "message" error_info ;;
     if has_message then
       message <~ py_get error_info "message" (JStr "No message") ;;
       Ok (error_context response mower_name +:+ py_str message +:+
           " (url: " +:+ url +:+ ")")
     else
       Ok (error_context response mower_name +:+
           "Uncaptured error returned by Husqvarna API (url: " +:+ url +:+ ")"))%result.

(** The [try] statement of [_analyze_http_error]: the [try] block with its
    two [except] clauses.  An exception of the block reaches the first
    clause, [except (httpx.JSONDecodeError, json.JSONDecodeError)], whose
    classes are evaluated from left to right before the exception is matched
    against them. *)
Definition analysis_message (response : Response) (url : string)
    (mower_name : JValue) : Result string :=
  match analyze_body response url mower_name with
  | Ok msg => Ok msg
  | Raise e =>
      (first <~ httpx_JSONDecodeError ;;
       if first e || json_JSONDecodeError e then
         Ok (error_context response mower_name +:+
             "Uncaptured error returned by Husqvarna API (url: " +:+ url +:+
             ", response: " +:+ text response +:+ ") - JSON decode error")
       else
         (* except Exception as e *)
         Ok (error_context response mower_name +:+
             "Error analyzing API response (url: " +:+ url +:+
             ", response: " +:+ text response +:+ "): " +:+ exn_str e))%result
  end.

(** The flag is written before the [try] statement, so also when the
    statement raises. *)
Definition _analyze_http_error (response : Response) (url : string)
    (mower_name : JValue) (self : Husqvarna) : Result string * Husqvarna :=
  let self := set_api_limit_reached (status_code response =? 429) self in
  (analysis_message response url mower_name, self).

(** The local variables of [_http_with_retry] *)
Record Locals := {
  retry_counter : Z;
  execution_status : bool;
  response : option Response
}.

Definition incr_retry_counter (l : Locals) : Locals :=
  {| retry_counter := retry_counter l + 1;
     execution_status := execution_status l;
     response := response l |}.

Definition set_response (r : Response) (l : Locals) : Locals :=
  {| retry_counter := retry_counter l;
     execution_status := execution_status l;
     response := Some r |}.

Definition set_execution_status (b : bool) (l : Locals) : Locals :=
  {| retry_counter := retry_counter l;
     execution_status := b;
     response := response l |}.

(** [self.state.error = self._analyze_http_error(response, url, mower_name)]
    followed by [break]: when the analysis raises, nothing is assigned, and
    the exception is none of the [httpx] errors the loop catches. *)
Definition store_analysis (r : Response) (url : string) (mower_name : JValue)
    (l : Locals) (self : Husqvarna) (w : World)
    : Result bool * Locals * Husqvarna * World :=
  let '(msg, self) := _analyze_http_error r url mower_name self in
  match msg with
  | Ok msg => (Ok true, l, set_error (Some msg) self, w)
  | Raise e => (Raise e, l, self, w)
  end.

(** The [try] statement of one pass through the loop.  The boolean says
    whether the pass left the loop by [break]. *)
Definition attempt (method : HttpMethod) (url : string) (mower_name : JValue)
    (l : Locals) (self : Husqvarna) (w : World)
    : Result bool * Locals * Husqvarna * World :=
  let '(a, w) := send method url w in
  match a with
  | Resp r =>
      let l := set_response r l in
      if (200 <=? status_code r) && (status_code r <? 300) then
        let self := set_error None self in
        let self := set_api_limit_reached false self in
        (Ok true, set_execution_status true l, self, w)
      else if status_code r =? 403 then
        let l := incr_retry_counter l in
        if 3 <=? retry_counter l then store_analysis r url mower_name l self w
        else (Ok false, l, self, w)
      else if (400 <=? status_code r) && (status_code r <? 500) then
        store_analysis r url mower_name l self w
      else if (500 <=? status_code r) && (status_code r <? 600) then
        let l := incr_retry_counter l in
        if 3 <=? retry_counter l then store_analysis r url mower_name l self w
        else (Ok false, l, self, w)
      else
        (Ok true, l,
         set_error (Some ("HTTP error (" +:+ str_of_Z (status_code r) +:+
                          ") not specifically handled.")) self, w)
  | NetErr e =>
      let self :=
        set_error (Some ("Retry " +:+ str_of_Z (retry_counter l) +:+
                         " - Connection error to url " +:+ url +:+
                         " with error " +:+ dquote +:+ e +:+ dquote +:+ "." +:+
                         newline)) self in
      let l := incr_retry_counter l in
      (Ok (3 <=? retry_counter l), l, self, w)
  end.

(** [while retry_counter < 3: ...].  Every pass that does not [break] adds
    one to [retry_counter], so three passes are enough ([retry_loop_fuel]);
    [fuel] only makes the recursion structural.  An exception of a pass ends
    the loop and the method. *)
Fixpoint retry_loop (fuel : nat) (method : HttpMethod) (url : string)
    (mower_name : JValue) (l : Locals) (self : Husqvarna) (w : World)
    : Result unit * Locals * Husqvarna * World :=
  match fuel with
  | O => (Ok tt, l, self, w)
  | S fuel' =>
      if retry_counter l <? 3 then
        let '(broke, l, self, w) := attempt method url mower_name l self w in
        match broke with
        | Raise e => (Raise e, l, self, w)
        | Ok true => (Ok tt, l, self, w)
        | Ok false =>
            let w :=
              if (retry_counter l <? 3) && negb (execution_status l)
              then sleep (ApiConfig.RETRY_DELAY * (retry_counter l + 1)) w
              else w in
            retry_loop fuel' method url mower_name l self w
        end
      else (Ok tt, l, self, w)
  end.

(** The value is the parsed body, or [JNull] for Python's [None].  When
    [response.json()] raises, the exception reaches the clause
    [except (json.JSONDecodeError, httpx.JSONDecodeError) as e], whose
    classes are evaluated first. *)
Definition _http_with_retry (method : HttpMethod) (url : string)
    (mower_name : JValue) : M JValue :=
  fun self w =>
    let l := {| retry_counter := 0; execution_status := false; response := None |} in
    let self := set_error (Some EmptyString) self in
    let '(ended, l, self, w) := retry_loop 3 method url mower_name l self w in
    match ended with
    | Raise e => (Raise e, self, w)
    | Ok _ =>
        match execution_status l, response l with
        | true, Some r =>
            match response_json r with
            | Ok v => (Ok v, self, w)
            | Raise e =>
                match httpx_JSONDecodeError with
                | Raise e' => (Raise e', self, w)
                | Ok second =>
                    if json_JSONDecodeError e || second e then
                      (Ok JNull,
                       set_error (Some ("Error parsing JSON response: " +:+ exn_str e))
                                 self, w)
                    else (Raise e, self, w)
                end
            end
        | _, _ => (Ok JNull, self, w)
        end
    end.

End Client.

(** ** Token lifecycle and the public operations *)

Section Operations.
Context `{PyRuntime}.

Definition get_self : M Husqvarna := fun self w => (Ok self, self, w).

(** [httpx.Client(verify=False, headers={'x-api-key': self.client_id, ...})] *)
Definition _create_session (self : Husqvarna) : Result unit :=
  header_value (JStr (client_id self)).

Definition _get_access_token : M bool :=
  (response <- _http_with_retry POST ApiEndpoints.TOKEN_REQUEST JNull ;;
   if truthy response then
     update (set_access_token response) ;;;
     update (set_error None) ;;;
     (* datetime.now() + timedelta(seconds=expires_in) - timedelta(seconds=margin) *)
     t <- datetime_now ;;
     expires_in <- lift (py_get response "expires_in" (JNum 0)) ;;
     lifetime <- lift (timedelta_seconds expires_in) ;;
     nominal <- lift (datetime_add t lifetime) ;;
     margin <- lift (timedelta_seconds (JNum ApiConfig.TOKEN_REFRESH_MARGIN)) ;;
     effective <- lift (datetime_add nominal (- margin)) ;;
     update (set_access_token_expiration effective) ;;;
     (* self.session.headers.update({...}): the values of x-api-key,
        Authorization and Authorization-Provider *)
     self <- get_self ;;
     token_type <- lift (py_get response "token_type" (JStr EmptyString)) ;;
     secret <- lift (py_get response "access_token" (JStr EmptyString)) ;;
     provider <- lift (py_get response "provider" (JStr EmptyString)) ;;
     lift (header_value (JStr (client_id self))) ;;;
     lift (header_value (JStr (py_str token_type +:+ " " +:+ py_str secret))) ;;;
     lift (header_value provider) ;;;
     (* the argument of log *)
     t' <- datetime_now ;;
     lifetime' <- lift (expires_in <~ py_get response "expires_in" (JNum 0) ;;
                        timedelta_seconds expires_in)%result ;;
     lift (datetime_add t' lifetime') ;;;
     token <- lift (py_get response "access_token" (JStr "N/A")) ;;
     lift (py_slice token) ;;;
     ret true
   else
     update (set_error (Some ("Bad or unauthorized authentication request (url: " +:+
                              ApiEndpoints.TOKEN_REQUEST +:+ ")."))) ;;;
     ret false)%method.

Definition _check_access_token_and_renew : M bool :=
  (t <- datetime_now ;;
   self <- get_self ;;
   if t >? access_token_expiration (state self) then
     ok <- _get_access_token ;;
     update (set_authenticated ok) ;;;
     ret ok
   else
     (* the argument of log *)
     (let token := access_token (state self) in
      if truthy token then
        lift (py_get token "token_type" (JStr EmptyString)) ;;;
        secret <- lift (py_get token "access_token" (JStr "N/A")) ;;
        lift (py_slice secret)
      else ret tt) ;;;
     update (set_authenticated true) ;;;
     ret true)%method.

(** [Husqvarna(client_id, client_secret)] *)
Definition __init__ (client_id client_secret : string) : World → Result Husqvarna * World :=
  fun w =>
    let self := {| client_id := client_id; client_secret := client_secret;
                   mowers := []; state := ApiState_default |} in
    match _create_session self with
    | Raise e => (Raise e, w)
    | Ok _ =>
        match _get_access_token self w with
        | (Ok ok, self, w) => (Ok (set_authenticated ok self), w)
        | (Raise e, _, w) => (Raise e, w)
        end
    end.

(** One element of the list comprehension of [_get_mowers] *)
Definition mower_entry (mower : JValue) : Result (gmap string JValue) :=
  (id <~ py_get mower "id" JNull ;;
   attributes <~ py_get mower "attributes" (JObj ∅) ;;
   system <~ py_get attributes "system" (JObj ∅) ;;
   name <~ py_get system "name" JNull ;;
   Ok ({[ "id" := id; "name" := name ]} : gmap string JValue))%result.

Fixpoint comprehension {A B} (f : A → Result B) (l : list A) : Result (list B) :=
  match l with
  | [] => Ok []
  | x :: rest =>
      (y <~ f x ;;
       ys <~ comprehension f rest ;;
       Ok (y :: ys))%result
  end.

Definition _get_mowers : M bool :=
  (response <- _http_with_retry GET ApiEndpoints.MOWERS JNull ;;
   if truthy response then
     match (data <~ py_get response "data" (JArr []) ;;
            items <~ py_iter data ;;
            comprehension mower_entry items)%result with
     | Ok ms => update (set_mowers ms) ;;; ret true
     | Raise (KeyError _) | Raise (TypeError _ _) => ret false
     | Raise e => lift (Raise e)
     end
   else ret false)%method.

Definition get_mowers : M bool :=
  (ok <- _check_access_token_and_renew ;;
   if ok then
     got <- _get_mowers ;;
     if got then
       t <- datetime_now ;;
       update (set_timestamp_last_update_mower_list t) ;;;
       ret true
     else ret false
   else ret false)%method.

Definition get_mower_from_name (self : Husqvarna) (mower_name : string)
    : option (gmap string JValue) :=
  List.find (fun mower => py_eq_str (default JNull (mower !! "name")) mower_name)
            (mowers self).

Definition _find_id_from_name (self : Husqvarna) (name : string) : JValue :=
  match get_mower_from_name self name with
  | Some mower => if truthy (JObj mower) then default JNull (mower !! "id") else JNull
  | None => JNull
  end.

Definition get_mower_messages (mower_name : string) : M JValue :=
  (ok <- _check_access_token_and_renew ;;
   if negb ok then ret JNull
   else
     self <- get_self ;;
     let mower_id := _find_id_from_name self mower_name in
     if truthy mower_id then
       _http_with_retry GET
         (ApiEndpoints.MOWERS +:+ "/" +:+ py_str mower_id +:+ "/messages")
         (JStr mower_name)
     else ret JNull)%method.

Definition get_timestamp_last_update_mower_list (self : Husqvarna) : Z :=
  timestamp_last_update_mower_list (state self).

(** [mower.get('state') == MowerState.OFF.value] *)
Definition state_is_off (mower : gmap string JValue) : bool :=
  py_eq_str (default JNull (mower !! "state")) MowerState.OFF.

(** [is_mower_off(name_or_mower)]: a dict, or a name to look up *)
Definition is_mower_off (self : Husqvarna) (name_or_mower : gmap string JValue + string)
    : option bool :=
  let mower :=
    match name_or_mower with
    | inl mower => Some mower
    | inr name => get_mower_from_name self name
    end in
  match mower with
  | Some mower => if truthy (JObj mower) then Some (state_is_off mower) else None
  | None => None
  end.

Definition are_all_mowers_off (self : Husqvarna) : bool :=
  forallb state_is_off (mowers self).

Definition are_api_limits_reached (self : Husqvarna) : bool :=
  api_limit_reached (state self).

Definition get_http_error (self : Husqvarna) : option string :=
  error (state self).

(** [bool(client)] *)
Definition __bool__ (self : Husqvarna) : bool := authenticated (state self).

(** [try: m  except Exception: handler] *)
Definition try_except {A} (m : M A) (handler : PyExn → M A) : M A :=
  fun self w =>
    match m self w with
    | (Raise e, self', w') => handler e self' w'
    | done => done
    end.

(** [self.mowers[index][key] = v] *)
Definition set_mower_key (index : nat) (key : string) (v : JValue) : Husqvarna → Husqvarna :=
  fun self => set_mowers (alter (fun mower => <[key := v]> mower) index (mowers self)) self.

(** The outer [try] block of one pass of [_get_mower_detailed_info] *)
Definition store_mower_info (index : nat) (mower_info : JValue) : M unit :=
  (data <- lift (py_getitem mower_info "data") ;;
   attributes <- lift (py_get data "attributes" (JObj ∅)) ;;
   battery_pct <- lift (battery <~ py_get attributes "battery" (JObj ∅) ;;
                        py_get battery "batteryPercent" JNull)%result ;;
   update (set_mower_key index "battery_pct" battery_pct) ;;;
   activity <- lift (mower <~ py_get attributes "mower" (JObj ∅) ;;
                     py_get mower "activity" JNull)%result ;;
   update (set_mower_key index "activity" activity) ;;;
   mower_state <- lift (mower <~ py_get attributes "mower" (JObj ∅) ;;
                        py_get mower "state" JNull)%result ;;
   update (set_mower_key index "state" mower_state) ;;;
   positions <- lift (py_get attributes "positions" (JArr [])) ;;
   location <- lift (if truthy positions then py_getitem0 positions else Ok JNull) ;;
   update (set_mower_key index "location" location) ;;;
   cutting_height <- lift (settings <~ py_get attributes "settings" (JObj ∅) ;;
                           py_get settings "cuttingHeight" (JNum 0))%result ;;
   update (set_mower_key index "cutting_height" cutting_height) ;;;
   try_except
     (error_code <- lift (mower <~ py_get attributes "mower" (JObj ∅) ;;
                          py_get mower "errorCode" JNull)%result ;;
      self <- get_self ;;
      stored <- lift (match mowers self !! index with
                      | Some mower => Ok (default JNull (mower !! "state"))
                      | None => Raise (IndexError JNull)
                      end) ;;
      if py_eq_str stored MowerState.ERROR &&
         negb (match error_code with JNull => true | _ => false end)
      then
        description <- lift (ErrorCodes.get_description error_code) ;;
        update (set_mower_key index "error_state" description)
      else update (set_mower_key index "error_state" JNull))
     (fun _ => update (set_mower_key index "error_state" JNull)))%method.

(** [for index, mower in enumerate(self.mowers)], entered at [index] with
    the current [status]; [remaining] bounds the passes still to come. *)
Fixpoint mower_info_loop (remaining index : nat) (status : bool) : M bool :=
  match remaining with
  | O => ret status
  | S remaining' =>
      (self <- get_self ;;
       match mowers self !! index with
       | None => ret status
       | Some mower =>
           let mower_id := default JNull (mower !! "id") in
           let mower_name := default JNull (mower !! "name") in
           if negb (truthy mower_id) || negb (truthy mower_name) then
             mower_info_loop remaining' (S index) false
           else
             mower_info <- _http_with_retry GET
                             (ApiEndpoints.MOWERS +:+ "/" +:+ py_str mower_id)
                             mower_name ;;
             has_data <- (if truthy mower_info
                          then lift (py_contains "data" mower_info)
                          else ret false) ;;
             if has_data then
               stored <- try_except (store_mower_info index mower_info ;;; ret true)
                                    (fun _ => ret false) ;;
               if stored then mower_info_loop remaining' (S index) status
               else ret false
             else ret false
       end)%method
  end.

Definition _get_mower_detailed_info : M bool :=
  (self <- get_self ;;
   mower_info_loop (length (mowers self)) 0 true)%method.

Definition get_mowers_info : M bool :=
  (ok <- _check_access_token_and_renew ;;
   if ok then _get_mower_detailed_info else ret false)%method.

(** The payload only travels in the request body, which is not modelled. *)
Definition set_headlight (mower_name : string) (light : bool) : M bool :=
  (ok <- _check_access_token_and_renew ;;
   if negb ok then ret false
   else
     self <- get_self ;;
     let mower_id := _find_id_from_name self mower_name in
     if truthy mower_id then
       response <- _http_with_retry POST
                     (ApiEndpoints.MOWERS +:+ "/" +:+ py_str mower_id +:+ "/settings")
                     (JStr mower_name) ;;
       ret (truthy response)
     else ret false)%method.

Definition set_cutting_height (mower_name : string) (height : JValue) : M bool :=
  (ok <- _check_access_token_and_renew ;;
   if negb ok then ret false
   else
     self <- get_self ;;
     let mower_id := _find_id_from_name self mower_name in
     if truthy mower_id then
       response <- _http_with_retry POST
                     (ApiEndpoints.MOWERS +:+ "/" +:+ py_str mower_id +:+ "/settings")
                     (JStr mower_name) ;;
       ret (truthy response)
     else ret false)%method.

(** [action in [PARK_NEXT_SCHEDULE, ..., START]] *)
Definition known_action (action : MowerAction) : bool :=
  match action with
  | PARK_NEXT_SCHEDULE | PARK_FURTHER_NOTICE | PAUSE | RESUME_SCHEDULE | START => true
  end.

Definition _send_action_to_mower (mower_name : string) (action : MowerAction)
    (duration : Z) : M bool :=
  (if negb (known_action action) then ret false
   else
     ok <- _check_access_token_and_renew ;;
     if negb ok then ret false
     else
       self <- get_self ;;
       let mower_id := _find_id_from_name self mower_name in
       if negb (truthy mower_id) then ret false
       else
         response <- _http_with_retry POST
                       (ApiEndpoints.MOWERS +:+ "/" +:+ py_str mower_id +:+ "/actions")
                       (JStr mower_name) ;;
         ret (truthy response))%method.

Definition action_ParkUntilNextSchedule (mower_name : string) : M bool :=
  _send_action_to_mower mower_name PARK_NEXT_SCHEDULE 60.
Definition action_ParkUntilFurtherNotice (mower_name : string) : M bool :=
  _send_action_to_mower mower_name PARK_FURTHER_NOTICE 60.
Definition action_Pause (mower_name : string) : M bool :=
  _send_action_to_mower mower_name PAUSE 60.
Definition action_ResumeSchedule (mower_name : string) : M bool :=
  _send_action_to_mower mower_name RESUME_SCHEDULE 60.
Definition action_Start (mower_name : string) (duration : Z) : M bool :=
  _send_action_to_mower mower_name START duration.

End Operations.

(** * Vocabulary of the statements *)

Section Vocabulary.
Context `{PyRuntime}.

(** The outcomes the loop answers with another attempt *)
Definition retryable (a : Attempt) : Prop :=
  match a with
  | Resp r => status_code r = 403 ∨ 500 ≤ status_code r < 600
  | NetErr _ => True
  end.

(** The message a failed attempt number [retry_counter] (counted from 0)
    leaves when it is the last one, or the exception its analysis raises *)
Definition failure_message (a : Attempt) (url : string) (mower_name : JValue)
    (retry_counter : Z) : Result string :=
  match a with
  | Resp r => analysis_message r url mower_name
  | NetErr e =>
      Ok ("Retry " +:+ str_of_Z retry_counter +:+ " - Connection error to url " +:+ url +:+
          " with error " +:+ dquote +:+ e +:+ dquote +:+ "." +:+ newline)
  end.

(** The answer to the next request, and the answer to the last request
    made *)
Definition next_attempt (w : World) : Attempt := responses w (requests_made w).
Definition last_answer (w : World) : Attempt := responses w (Nat.pred (requests_made w)).

(** The exception every use of the name [httpx.JSONDecodeError] raises *)
Definition no_JSONDecodeError : PyExn := ModuleAttributeError "httpx" "JSONDecodeError".

(** The first [n] attempts of a call are all retryable. *)
Definition retried_first (w : World) (n : nat) : Prop :=
  ∀ i, (i < n)%nat → retryable (responses w (requests_made w + i)).

(** Of the client, the core writes [error] and [api_limit_reached] only. *)
Definition core_frame (self self' : Husqvarna) : Prop :=
  client_id self' = client_id self ∧
  client_secret self' = client_secret self ∧
  mowers self' = mowers self ∧
  access_token (state self') = access_token (state self) ∧
  access_token_expiration (state self') = access_token_expiration (state self) ∧
  timestamp_last_update_mower_list (state self') =
    timestamp_last_update_mower_list (state self) ∧
  authenticated (state self') = authenticated (state self).

(** Of the world, the core never reads the clock, and it only adds requests
    to its own URL and sleeps to the trace. *)
Definition own_event (method : HttpMethod) (url : string) (e : Event) : Prop :=
  e = EvRequest method url ∨ ∃ seconds, e = EvSleep seconds.

Definition core_world (method : HttpMethod) (url : string) (w w' : World) : Prop :=
  responses w' = responses w ∧ clock w' = clock w ∧
  clock_reads w' = clock_reads w ∧
  (requests_made w ≤ requests_made w')%nat ∧
  ∃ new, trace w' = trace w ++ new ∧ Forall (own_event method url) new.

(** The four ways one pass of the loop can go: it breaks on a 2xx
    response, it breaks with a message stored, the analysis of the response
    raises, or the loop goes round again. *)
Inductive Pass (url : string) (mower_name : JValue) (l : Locals) (self : Husqvarna)
    (w : World) : Result bool → Locals → Husqvarna → Prop :=
| PassSuccess l' self' r :
    next_attempt w = Resp r → 200 ≤ status_code r < 300 →
    execution_status l' = true → response l' = Some r →
    error (state self') = None → api_limit_reached (state self') = false →
    Pass url mower_name l self w (Ok true) l' self'
| PassFailure l' self' msg :
    execution_status l' = execution_status l →
    error (state self') = Some msg → msg ≠ EmptyString →
    Pass url mower_name l self w (Ok true) l' self'
| PassRaise l' self' r e :
    next_attempt w = Resp r →
    (200 <=? status_code r) && (status_code r <? 300) = false →
    analysis_message r url mower_name = Raise e →
    Pass url mower_name l self w (Raise e) l' self'
| PassRetry l' self' :
    execution_status l' = execution_status l →
    retry_counter l' = retry_counter l + 1 → retry_counter l' < 3 →
    Pass url mower_name l self w (Ok false) l' self'.

(** How the loop ends: on a 2xx response to its last request with the error
    cleared, or with a non-empty error stored, or with the exception the
    analysis of the response to its last request raised. *)
Definition loop_result (url : string) (mower_name : JValue) (ended : Result unit)
    (l' : Locals) (self' : Husqvarna) (w' : World) : Prop :=
  match ended with
  | Ok _ =>
      (execution_status l' = true ∧
       ∃ r, response l' = Some r ∧ last_answer w' = Resp r ∧
            200 ≤ status_code r < 300 ∧
            error (state self') = None ∧ api_limit_reached (state self') = false) ∨
      (execution_status l' = false ∧
       ∃ msg, error (state self') = Some msg ∧ msg ≠ EmptyString)
  | Raise e =>
      ∃ r, last_answer w' = Resp r ∧
           (200 <=? status_code r) && (status_code r <? 300) = false ∧
           analysis_message r url mower_name = Raise e
  end.

(** How a call of the core ends.  It returns the decoded body of the 2xx
    response to its last request, with the error cleared and the flag down;
    or it returns [None] with a non-empty error stored; or it raises, and
    then the exception is the [AttributeError] of [httpx.JSONDecodeError] and
    the response to its last request is a 2xx response whose body does not
    decode or a response whose analysis met an exception. *)
Definition core_result (url : string) (mower_name : JValue) (result : Result JValue)
    (self' : Husqvarna) (w' : World) : Prop :=
  match result with
  | Ok v =>
      (∃ r, last_answer w' = Resp r ∧ 200 ≤ status_code r < 300 ∧
            json_body r = Some v ∧
            error (state self') = None ∧ api_limit_reached (state self') = false) ∨
      (v = JNull ∧ ∃ msg, error (state self') = Some msg ∧ msg ≠ EmptyString)
  | Raise e =>
      e = no_JSONDecodeError ∧
      ∃ r, last_answer w' = Resp r ∧
           if (200 <=? status_code r) && (status_code r <? 300)
           then json_body r = None ∧ error (state self') = None
           else ∃ e', analyze_body r url mower_name = Raise e'
  end.

(** A relation between the client and world before a method and after it *)
Definition Step : Type := Husqvarna → World → Husqvarna → World → Prop.

Class StepOrder (R : Step) : Prop := {
  step_refl self w : R self w self w;
  step_trans s1 w1 s2 w2 s3 w3 : R s1 w1 s2 w2 → R s2 w2 s3 w3 → R s1 w1 s3 w3
}.

(** Every run of the method, returning or raising, stays inside R. *)
Definition respects {A} (R : Step) (m : M A) : Prop :=
  ∀ self w r self' w', m self w = (r, self', w') → R self w self' w'.

(** Every run of the method that returns stays inside R. *)
Definition returning {A} (R : Step) (m : M A) : Prop :=
  ∀ self w a self' w', m self w = (Ok a, self', w') → R self w self' w'.

(** No method replaces the oracle; the counters only grow. *)
Definition same_oracle : Step := fun _ w _ w' =>
  responses w' = responses w ∧ clock w' = clock w ∧
  (requests_made w ≤ requests_made w')%nat ∧ (clock_reads w ≤ clock_reads w')%nat.

Definition keeps_timestamp : Step := fun self _ self' _ =>
  get_timestamp_last_update_mower_list self' = get_timestamp_last_update_mower_list self.

(** The request that acquires a token *)
Definition token_request : Event := EvRequest POST ApiEndpoints.TOKEN_REQUEST.

(** The stored token and its expiry are left alone and no token is asked for. *)
Definition reuses_token : Step := fun self w self' w' =>
  access_token (state self') = access_token (state self) ∧
  access_token_expiration (state self') = access_token_expiration (state self) ∧
  ∃ new, trace w' = trace w ++ new ∧ token_request ∉ new.

(** The first thing done is to ask for a token. *)
Definition renews_token : Step := fun self w self' w' =>
  ∃ rest, trace w' = trace w ++ token_request :: rest.

(** The trace only grows. *)
Definition extends_trace : Step := fun self w self' w' =>
  ∃ new, trace w' = trace w ++ new.

(** The renewal policy of a method, decided by the first clock reading of
    the call: past the stored expiry the method starts by asking for a token,
    otherwise it works with the stored one. *)
Definition token_policy {A} (op : M A) : Prop :=
  ∀ self w r self' w', op self w = (r, self', w') →
    if clock w (clock_reads w) >? access_token_expiration (state self)
    then renews_token self w self' w'
    else reuses_token self w self' w'.

(** [timedelta(seconds=v)], in seconds, when v is a number *)
Definition seconds_of (v : JValue) : option Z :=
  match v with
  | JNum z => Some z
  | JBool b => Some (if b then 1 else 0)
  | _ => None
  end.

(** What a token check made past the stored expiry leaves.  When it returns
    [True]: as token the document of the 2xx response to the last request of
    the check, and as expiry the clock reading of the acquisition (the
    reading after the one the check compared) plus the document's
    [expires_in] seconds minus the margin.  When it returns [False]: the
    token and the expiry it found. *)
Definition renewal_effect (self : Husqvarna) (w : World) (checked : Result bool)
    (self' : Husqvarna) (w' : World) : Prop :=
  match checked with
  | Ok true =>
      ∃ r document expires_in,
        (requests_made w < requests_made w')%nat ∧
        last_answer w' = Resp r ∧ 200 ≤ status_code r < 300 ∧
        json_body r = Some (JObj document) ∧
        access_token (state self') = JObj document ∧
        seconds_of (default (JNum 0) (document !! "expires_in")) = Some expires_in ∧
        access_token_expiration (state self') =
          clock w (S (clock_reads w)) + expires_in * microseconds_per_second
          - ApiConfig.TOKEN_REFRESH_MARGIN * microseconds_per_second ∧
        authenticated (state self') = true
  | Ok false =>
      access_token (state self') = access_token (state self) ∧
      access_token_expiration (state self') = access_token_expiration (state self) ∧
      authenticated (state self') = false
  | Raise _ => True
  end.

(** The renewal policy of the token check, with what a renewal leaves. *)
Definition renewal_policy : Prop :=
  ∀ self w checked self' w',
    _check_access_token_and_renew self w = (checked, self', w') →
    if clock w (clock_reads w) >? access_token_expiration (state self)
    then renews_token self w self' w' ∧ renewal_effect self w checked self' w'
    else reuses_token self w self' w' ∧ checked ≠ Ok false.

(** The method is the token check followed by work that leaves the token
    and its expiry as the check left them and asks for no token. *)
Definition checks_token_first {A} (op : M A) : Prop :=
  ∀ self w r self' w', op self w = (r, self', w') →
    ∃ checked s1 w1,
      _check_access_token_and_renew self w = (checked, s1, w1) ∧
      reuses_token s1 w1 self' w'.

(** After a call that returns, the stored error is a non-empty message, or
    it is cleared and the last request of the call was answered by a 2xx
    response, or the call sent nothing and the error is what it was. *)
Definition error_follows : Step := fun self w self' w' =>
  responses w' = responses w ∧
  ((requests_made w' = requests_made w ∧
    get_http_error self' = get_http_error self) ∨
   ((requests_made w < requests_made w')%nat ∧
    ((∃ msg, get_http_error self' = Some msg ∧ msg ≠ EmptyString) ∨
     (get_http_error self' = None ∧
      ∃ r, last_answer w' = Resp r ∧ 200 ≤ status_code r < 300)))).

(** The operations of the client that talk to the API *)
Definition every_api_operation (P : ∀ A, M A → Prop) : Prop :=
  P _ get_mowers ∧
  P _ get_mowers_info ∧
  (∀ mower_name, P _ (get_mower_messages mower_name)) ∧
  (∀ mower_name, P _ (action_ParkUntilNextSchedule mower_name)) ∧
  (∀ mower_name, P _ (action_ParkUntilFurtherNotice mower_name)) ∧
  (∀ mower_name, P _ (action_Pause mower_name)) ∧
  (∀ mower_name, P _ (action_ResumeSchedule mower_name)) ∧
  (∀ mower_name duration, P _ (action_Start mower_name duration)) ∧
  (∀ mower_name light, P _ (set_headlight mower_name light)) ∧
  (∀ mower_name height, P _ (set_cutting_height mower_name height)).

(** The events of a call of the core that made [attempts] attempts: a
    request each, and between two requests the sleep of the loop *)
Definition core_trace (method : HttpMethod) (url : string) (attempts : nat) : list Event :=
  take (2 * attempts - 1)
    [EvRequest method url; EvSleep (ApiConfig.RETRY_DELAY * (1 + 1));
     EvRequest method url; EvSleep (ApiConfig.RETRY_DELAY * (2 + 1));
     EvRequest method url].

(** The stored error is left alone. *)
Definition keeps_error : Step := fun self _ self' _ =>
  get_http_error self' = get_http_error self.

(** The mower list is left alone. *)
Definition keeps_mowers : Step := fun self _ self' _ => mowers self' = mowers self.

(** A stored mower keeps its [id] and [name] and loses no key. *)
Definition extends_mower (mower mower' : gmap string JValue) : Prop :=
  mower' !! "id" = mower !! "id" ∧ mower' !! "name" = mower !! "name" ∧
  ∀ key, is_Some (mower !! key) → is_Some (mower' !! key).

Definition extends_mowers : Step := fun self _ self' _ =>
  Forall2 extends_mower (mowers self) (mowers self').

(** The keys [_get_mower_detailed_info] writes *)
Definition detail_keys : list string :=
  ["battery_pct"; "activity"; "state"; "location"; "cutting_height"; "error_state"].

Definition detailed (mower : gmap string JValue) : Prop :=
  Forall (fun key => is_Some (mower !! key)) detail_keys.

(** An error text is stored only with the state [ERROR]. *)
Definition error_state_ok (mower : gmap string JValue) : Prop :=
  ∀ text, mower !! "error_state" = Some text → text ≠ JNull →
          mower !! "state" = Some (JStr MowerState.ERROR).

(** The first n stored mowers are left alone. *)
Definition keeps_first (n : nat) : Step := fun self _ self' _ =>
  ∀ i, (i < n)%nat → mowers self' !! i = mowers self !! i.

(** The operations that address one mower by its name *)
Definition every_named_operation (P : ∀ A, string → M A → Prop) : Prop :=
  (∀ mower_name, P _ mower_name (get_mower_messages mower_name)) ∧
  (∀ mower_name light, P _ mower_name (set_headlight mower_name light)) ∧
  (∀ mower_name height, P _ mower_name (set_cutting_height mower_name height)) ∧
  (∀ mower_name action duration,
     P _ mower_name (_send_action_to_mower mower_name action duration)).

(** Every run of the method, returning or raising, sends at most n
    requests. *)
Definition within {A} (n : nat) (m : M A) : Prop :=
  ∀ self w r self' w', m self w = (r, self', w') →
    (requests_made w' ≤ requests_made w + n)%nat.

(** The field is absent or holds an ASCII text. *)
Definition ascii_field (document : gmap string JValue) (key : string) : Prop :=
  match document !! key with
  | None => True
  | Some (JStr s) => is_ascii s = true
  | Some _ => False
  end.

(** A token document the client can process: an object whose [expires_in],
    when present, is a number of seconds from 0 to 10^9, and whose
    [access_token], [token_type] and [provider], when present, are ASCII
    texts *)
Definition token_document_ok (v : JValue) : Prop :=
  ∃ document expires_in,
    v = JObj document ∧
    default (JNum 0) (document !! "expires_in") = JNum expires_in ∧
    0 ≤ expires_in ≤ 1000000000 ∧
    ascii_field document "access_token" ∧ ascii_field document "token_type" ∧
    ascii_field document "provider".

(** The stored token is [None] or such a document. *)
Definition stored_token_ok (self : Husqvarna) : Prop :=
  access_token (state self) = JNull ∨ token_document_ok (access_token (state self)).

(** The clock shows dates from 2000-01-01 on, for 365000 days. *)
Definition clock_ok (w : World) : Prop :=
  ∀ n, 0 ≤ clock w n ≤ 365000 * microseconds_per_day.

(** The responses to the next three requests can be read: the body of a 2xx
    response decodes, and when it is truthy it is a token document the client
    can process; the body of a 4xx or 5xx response is one the analysis builds
    a message from. *)
Definition token_answers_ok (w : World) : Prop :=
  ∀ n r,
    (requests_made w ≤ n < requests_made w + 3)%nat →
    responses w n = Resp r →
    if (200 <=? status_code r) && (status_code r <? 300)
    then ∃ v, json_body r = Some v ∧ (truthy v = true → token_document_ok v)
    else ∃ msg, analyze_body r ApiEndpoints.TOKEN_REQUEST JNull = Ok msg.

(** Strings put end to end *)
Definition join (chunks : list string) : string := foldr String.append EmptyString chunks.

(** The seconds slept in a trace *)
Definition slept (events : list Event) : Z :=
  foldr (fun e total => match e with EvSleep seconds => seconds + total | _ => total end)
        0 events.

End Vocabulary.

(** * A sample interpreter and scripted worlds *)

Definition sample_runtime : PyRuntime :=
  {| py_repr := fun _ => "<object>";
     exn_str := fun e =>
       match e with
       | TypeError _ _ => "TypeError"
       | AttributeError _ _ => "AttributeError"
       | ModuleAttributeError module attr =>
           "module '" +:+ module +:+ "' has no attribute '" +:+ attr +:+ "'"
       | KeyError _ => "KeyError"
       | IndexError _ => "IndexError"
       | OverflowError => "OverflowError"
       | JSONDecodeError _ => "Expecting value: line 1 column 1 (char 0)"
       | UnicodeEncodeError _ => "'ascii' codec can't encode character"
       end |}.

(** A world that answers the requests with [attempts], in order, then with
    timeouts, and whose clock shows [readings], in order, then 0 *)
Definition scripted (attempts : list Attempt) (readings : list Z) : World :=
  {| responses := fun n => List.nth n attempts (NetErr "timed out");
     clock := fun n => List.nth n readings 0;
     requests_made := 0; clock_reads := 0; trace := [] |}.

(** The client as [__init__] builds it before it asks for a token *)
Definition fresh_client : Husqvarna :=
  {| client_id := "client"; client_secret := "secret";
     mowers := []; state := ApiState_default |}.

(** The three components of a finished run *)
Definition returned {A} (run : A * Husqvarna * World) : A := run.1.1.
Definition client_after {A} (run : A * Husqvarna * World) : Husqvarna := run.1.2.
Definition world_after {A} (run : A * Husqvarna * World) : World := run.2.

Definition answer (status : Z) (body : option JValue) : Response :=
  {| status_code := status; text := "<body>"; json_body := body |}.

Definition mowers_url : string := ApiEndpoints.MOWERS.

Definition token_document : JValue :=
  JObj {[ "access_token" := JStr "0123456789abcdef"; "token_type" := JStr "Bearer";
          "expires_in" := JNum 3600; "provider" := JStr "husqvarna" ]}.

Definition forbidden : Response :=
  answer 403 (Some (JObj {[ "message" := JStr "Forbidden" ]})).
Definition too_many_requests : Response :=
  answer 429 (Some (JObj {[ "message" := JStr "Too Many Requests" ]})).
Definition unavailable : Response := answer 503 None.
Definition found_elsewhere : Response := answer 302 None.

(** A response whose body is an HTML page, as a gateway in front of the API
    sends them: [response.json()] raises on it. *)
Definition html_page (status : Z) : Response :=
  {| status_code := status; text := "<html><body>no JSON here</body></html>";
     json_body := None |}.

(** A 404 response whose body lists one error *)
Definition not_found : Response :=
  answer 404
    (Some (JObj {[ "errors" :=
                     JArr [JObj {[ "title" := JStr "Not Found";
                                   "detail" := JStr "No such mower" ]}] ]})).

(** A 404 response whose body has an empty [errors] list and a [message] *)
Definition quota_body : Response :=
  answer 404 (Some (JObj {[ "errors" := JArr []; "message" := JStr "quota exceeded" ]})).

(** The document a renewal is answered with *)
Definition renewed_document : JValue :=
  JObj {[ "access_token" := JStr "fedcba9876543210"; "token_type" := JStr "Bearer";
          "expires_in" := JNum 3600; "provider" := JStr "husqvarna" ]}.

(** A token with [expires_in = 3600] is acquired at time 0; the next
    operation starts at [seconds], where the clock then stays; a second token
    request is answered by [renewed_document]. *)
Definition renewal_world (seconds : Z) : World :=
  scripted [Resp (answer 200 (Some token_document));
            Resp (answer 200 (Some renewed_document))]
           [0; 0; seconds * microseconds_per_second; seconds * microseconds_per_second;
            seconds * microseconds_per_second].

(** Three 403 responses in a row *)
Definition forbidden_world : World :=
  scripted [Resp forbidden; Resp forbidden; Resp forbidden] [].

(** A 503 response, then a 200 response with a JSON body *)
Definition recovering_world : World :=
  scripted [Resp unavailable; Resp (answer 200 (Some token_document))] [].

(** No network: every request times out; the clock shows 1, then 0 *)
Definition offline_world : World := scripted [] [1].

(** A 429 response, then a 302 response *)
Definition redirected_world : World :=
  scripted [Resp too_many_requests; Resp found_elsewhere] [].

(** The token request succeeds at time 0; one second later the clock is read
    again, and nothing else is answered. *)
Definition unknown_mower_world : World :=
  scripted [Resp (answer 200 (Some token_document))] [0; 0; 1000000].

(** The client and the world [__init__] leaves in [unknown_mower_world] *)
Definition built_client : Husqvarna :=
  Eval vm_compute in
    match __init__ (H := sample_runtime) "client" "secret" unknown_mower_world with
    | (Ok client, _) => client
    | (Raise _, _) => fresh_client
    end.

Definition built_world : World :=
  Eval vm_compute in
    (__init__ (H := sample_runtime) "client" "secret" unknown_mower_world).2.

(** A 2xx answer to the token request that is an empty object *)
Definition empty_document_world : World :=
  scripted [Resp (answer 200 (Some (JObj ∅)))] [].

(** A 2xx answer to the token request that is a list *)
Definition list_document_world : World :=
  scripted [Resp (answer 200 (Some (JArr [JNum 1])))] [0].

(** One second after 2000-01-01 the token request is answered by
    [token_document]. *)
Definition first_use_world : World :=
  scripted [Resp (answer 200 (Some token_document))] [1000000; 1000000; 1000000].

(** A token document with [expires_in = 300]; the clock stays at 0. *)
Definition short_lived_world : World :=
  scripted [Resp (answer 200
                    (Some (JObj {[ "access_token" := JStr "0123456789abcdef";
                                   "expires_in" := JNum 300 ]})))] [].

(** 3001 seconds after the token of [built_client] was acquired, without
    network *)
Definition expired_offline_world : World :=
  scripted [] [3001 * microseconds_per_second].

(** The list document of an account with one mower *)
Definition garden_document : JValue :=
  JObj {[ "data" :=
            JArr [JObj {[ "id" := JStr "abc-123";
                          "attributes" :=
                            JObj {[ "system" := JObj {[ "name" := JStr "Robbie" ]} ]} ]}] ]}.

(** The list is answered one second after the token was acquired, and the
    clock is read again a second later. *)
Definition garden_world : World :=
  scripted [Resp (answer 200 (Some garden_document))] [1000000; 2000000].

(** A list document whose [data] holds a number *)
Definition broken_list_world : World :=
  scripted [Resp (answer 200 (Some (JObj {[ "data" := JArr [JNum 1] ]})))] [].

(** [built_client] once it has listed the mower of [garden_document] *)
Definition garden_client : Husqvarna :=
  set_mowers [{[ "id" := JStr "abc-123"; "name" := JStr "Robbie" ]}] built_client.

Definition detail_document : JValue :=
  JObj {[ "data" :=
            JObj {[ "attributes" :=
                      JObj {[ "battery" := JObj {[ "batteryPercent" := JNum 80 ]};
                              "mower" := JObj {[ "activity" := JStr "MOWING";
                                                 "state" := JStr "IN_OPERATION";
                                                 "errorCode" := JNum 0 ]};
                              "positions" := JArr [];
                              "settings" := JObj {[ "cuttingHeight" := JNum 5 ]} ]} ]} ]}.

(** The details of the mower are answered one second after the token was
    acquired. *)
Definition detail_world : World :=
  scripted [Resp (answer 200 (Some detail_document))] [1000000].

(** Every request is answered by an HTML page with this status. *)
Definition html_world (status : Z) : World :=
  scripted [Resp (html_page status); Resp (html_page status); Resp (html_page status)] [].

(** One second after the token was acquired the list request is answered
    200 with an empty object. *)
Definition empty_list_world : World :=
  scripted [Resp (answer 200 (Some (JObj ∅)))] [1000000].

(** An action is accepted with status 202 and a JSON object as body. *)
Definition accepted_world : World :=
  scripted [Resp (answer 202 (Some (JObj {[ "data" := JArr [] ]})))] [1000000].

(** * Properties *)

(** ** Strings *)

Lemma append_cons (c : ascii) (s t : string) : String c s +:+ t = String c (s +:+ t).
Proof. reflexivity. Qed.

Lemma append_nonempty (c : ascii) (s t : string) : String c s +:+ t ≠ EmptyString.
Proof. by rewrite append_cons. Qed.

Lemma String_app_assoc (a b c : string) : (a +:+ b) +:+ c = a +:+ (b +:+ c).
Proof. induction a as [|ch a IH]; [done|]. by rewrite !append_cons, IH. Qed.

Lemma includes_app_l (msg part tail : string) :
  includes msg part → includes (msg +:+ tail) part.
Proof.
  intros (before & after & ->). exists before, (after +:+ tail).
  by rewrite !String_app_assoc.
Qed.

Lemma includes_app_r (head msg part : string) :
  includes msg part → includes (head +:+ msg) part.
Proof.
  intros (before & after & ->). exists (head +:+ before), after.
  by rewrite !String_app_assoc.
Qed.

(** ** The retry loop *)

Section CoreProperties.
Context `{PyRuntime}.

(** *** The analysis of a response *)

(** The two [except] clauses of [_analyze_http_error] are never entered:
    whatever the [try] block raises, evaluating the first clause raises. *)
Lemma analysis_message_eq r url mower_name :
  analysis_message r url mower_name =
    match analyze_body r url mower_name with
    | Ok msg => Ok msg
    | Raise _ => Raise no_JSONDecodeError
    end.
Proof. unfold analysis_message. by destruct (analyze_body r url mower_name). Qed.

Lemma analyze_body_nonempty r url mower_name msg :
  analyze_body r url mower_name = Ok msg → msg ≠ EmptyString.
Proof.
  unfold analyze_body, error_context, rbind.
  repeat (match goal with
          | |- context [match ?x with _ => _ end] => destruct x
          end; try discriminate);
    intros [= <-]; apply append_nonempty.
Qed.

Lemma analysis_message_Ok r url mower_name msg :
  analysis_message r url mower_name = Ok msg →
  analyze_body r url mower_name = Ok msg ∧ msg ≠ EmptyString.
Proof.
  rewrite analysis_message_eq.
  destruct (analyze_body r url mower_name) as [found|e] eqn:Hbody; [|discriminate].
  intros [= <-]. split; [done|]. by eapply analyze_body_nonempty.
Qed.

Lemma analysis_message_Raise r url mower_name e :
  analysis_message r url mower_name = Raise e →
  e = no_JSONDecodeError ∧ ∃ e', analyze_body r url mower_name = Raise e'.
Proof.
  rewrite analysis_message_eq.
  destruct (analyze_body r url mower_name) as [found|e'] eqn:Hbody; [discriminate|].
  intros [= <-]. split; [done|]. by exists e'.
Qed.

Lemma failure_message_nonempty a url mower_name rc msg :
  failure_message a url mower_name rc = Ok msg → msg ≠ EmptyString.
Proof.
  destruct a as [r|e]; simpl.
  - intros Hmsg. by apply analysis_message_Ok in Hmsg as [_ ?].
  - intros [= <-]. apply append_nonempty.
Qed.

Lemma failure_message_Raise a url mower_name rc e :
  failure_message a url mower_name rc = Raise e → e = no_JSONDecodeError.
Proof.
  destruct a as [r|text]; simpl; [|discriminate].
  intros Hmsg. by apply analysis_message_Raise in Hmsg as [? _].
Qed.

Lemma store_analysis_eq r url mower_name l self w :
  store_analysis r url mower_name l self w =
    match analysis_message r url mower_name with
    | Ok msg =>
        (Ok true, l,
         set_error (Some msg) (set_api_limit_reached (status_code r =? 429) self), w)
    | Raise e => (Raise e, l, set_api_limit_reached (status_code r =? 429) self, w)
    end.
Proof.
  unfold store_analysis, _analyze_http_error.
  by destruct (analysis_message r url mower_name).
Qed.

(** *** One pass, case by case *)

(** What one retryable attempt does: the counter grows by one; below 3 the
    loop goes round again; at 3 the pass ends the loop, with the message of
    this attempt as the stored error, or with the exception its analysis
    raises. *)
Lemma attempt_retryable method url mower_name l self w :
  retryable (next_attempt w) →
  ∃ self',
    attempt method url mower_name l self w =
      (if 3 <=? retry_counter l + 1
       then match failure_message (next_attempt w) url mower_name (retry_counter l) with
            | Ok _ => Ok true
            | Raise e => Raise e
            end
       else Ok false,
       {| retry_counter := retry_counter l + 1;
          execution_status := execution_status l;
          response := match next_attempt w with
                      | Resp r => Some r
                      | NetErr _ => response l
                      end |},
       self', (send method url w).2) ∧
    mowers self' = mowers self ∧
    (3 ≤ retry_counter l + 1 →
       error (state self') =
         match failure_message (next_attempt w) url mower_name (retry_counter l) with
         | Ok msg => Some msg
         | Raise _ => error (state self)
         end ∧
       api_limit_reached (state self') =
         match next_attempt w with
         | Resp _ => false
         | NetErr _ => api_limit_reached (state self)
         end) ∧
    (retry_counter l + 1 < 3 →
       error (state self') =
         match next_attempt w with
         | Resp _ => error (state self)
         | NetErr _ =>
             match failure_message (next_attempt w) url mower_name (retry_counter l) with
             | Ok msg => Some msg
             | Raise _ => error (state self)
             end
         end ∧
       api_limit_reached (state self') = api_limit_reached (state self)).
Proof.
  unfold next_attempt, attempt, send.
  destruct (responses w (requests_made w)) as [r|e]; simpl; intros Hre.
  - assert (((200 <=? status_code r) && (status_code r <? 300)) = false) as ->
      by (apply andb_false_iff; lia).
    assert ((status_code r =? 429) = false) as H429 by lia.
    assert (((status_code r =? 403) = true) ∨
            ((status_code r =? 403) = false ∧
             ((400 <=? status_code r) && (status_code r <? 500)) = false ∧
             ((500 <=? status_code r) && (status_code r <? 600)) = true)) as Hbranch.
    { destruct (Z.eqb_spec (status_code r) 403); [by left | right].
      split; [done|]. split; [apply andb_false_iff | apply andb_true_iff]; lia. }
    assert ((if status_code r =? 403
             then if 3 <=? retry_counter (incr_retry_counter (set_response r l))
                  then store_analysis r url mower_name
                         (incr_retry_counter (set_response r l)) self
                         (send method url w).2
                  else (Ok false, incr_retry_counter (set_response r l), self,
                        (send method url w).2)
             else if (400 <=? status_code r) && (status_code r <? 500)
                  then store_analysis r url mower_name (set_response r l) self
                         (send method url w).2
                  else if (500 <=? status_code r) && (status_code r <? 600)
                       then if 3 <=? retry_counter (incr_retry_counter (set_response r l))
                            then store_analysis r url mower_name
                                   (incr_retry_counter (set_response r l)) self
                                   (send method url w).2
                            else (Ok false, incr_retry_counter (set_response r l), self,
                                  (send method url w).2)
                       else (Ok true, set_response r l,
                             set_error (Some ("HTTP error (" +:+ str_of_Z (status_code r) +:+
                                              ") not specifically handled.")) self,
                             (send method url w).2)) =
            (if 3 <=? retry_counter l + 1
             then store_analysis r url mower_name
                    (incr_retry_counter (set_response r l)) self (send method url w).2
             else (Ok false, incr_retry_counter (set_response r l), self,
                   (send method url w).2))) as Hsame.
    { destruct Hbranch as [-> | (-> & -> & ->)]; reflexivity. }
    unfold send in Hsame. simpl in Hsame. rewrite Hsame. clear Hsame Hbranch.
    rewrite store_analysis_eq, H429.
    unfold incr_retry_counter, set_response; simpl.
    destruct (Z.leb_spec 3 (retry_counter l + 1)).
    + destruct (analysis_message r url mower_name) as [msg|e'];
        (eexists; split; [reflexivity|]; simpl;
         split; [done|]; split; [done | lia]).
    + eexists; split; [reflexivity|]. split; [done|]. split; [lia | done].
  - unfold incr_retry_counter; simpl.
    destruct (Z.leb_spec 3 (retry_counter l + 1));
      (eexists; split; [reflexivity|]; done).
Qed.

(** The unfolding equation of the loop *)
Lemma retry_loop_S fuel method url mower_name l self w :
  retry_loop (S fuel) method url mower_name l self w =
    if retry_counter l <? 3 then
      let '(broke, l, self, w) := attempt method url mower_name l self w in
      match broke with
      | Raise e => (Raise e, l, self, w)
      | Ok true => (Ok tt, l, self, w)
      | Ok false =>
          retry_loop fuel method url mower_name l self
            (if (retry_counter l <? 3) && negb (execution_status l)
             then sleep (ApiConfig.RETRY_DELAY * (retry_counter l + 1)) w
             else w)
      end
    else (Ok tt, l, self, w).
Proof. reflexivity. Qed.

(** A retryable attempt that is not the third one: the loop sleeps
    [RETRY_DELAY * (retry_counter + 1)], with the counter already increased,
    and goes round again. *)
Lemma retry_loop_again fuel method url mower_name l self w :
  0 ≤ retry_counter l < 2 → execution_status l = false →
  retryable (next_attempt w) →
  ∃ l' self',
    retry_loop (S fuel) method url mower_name l self w =
      retry_loop fuel method url mower_name l' self'
        (sleep (ApiConfig.RETRY_DELAY * (retry_counter l + 1 + 1)) (send method url w).2) ∧
    retry_counter l' = retry_counter l + 1 ∧ execution_status l' = false ∧
    mowers self' = mowers self ∧
    api_limit_reached (state self') = api_limit_reached (state self).
Proof.
  intros Hrc Hex Hre.
  destruct (attempt_retryable method url mower_name l self w Hre)
    as (self' & Hat & Hm & _ & Hfl).
  rewrite retry_loop_S, Hat.
  destruct (Z.ltb_spec (retry_counter l) 3); [|lia].
  destruct (Z.leb_spec 3 (retry_counter l + 1)); [lia|].
  cbn [retry_counter execution_status]. rewrite Hex.
  destruct (Z.ltb_spec (retry_counter l + 1) 3); [|lia].
  eexists _, self'. split; [reflexivity|].
  destruct Hfl as [_ Hfl]; [lia|]. done.
Qed.

(** The third retryable attempt ends the loop without a sleep. *)
Lemma retry_loop_last fuel method url mower_name l self w :
  retry_counter l = 2 → retryable (next_attempt w) →
  ∃ l' self',
    retry_loop (S fuel) method url mower_name l self w =
      (match failure_message (next_attempt w) url mower_name 2 with
       | Ok _ => Ok tt
       | Raise e => Raise e
       end, l', self', (send method url w).2) ∧
    execution_status l' = execution_status l ∧
    mowers self' = mowers self ∧
    error (state self') =
      match failure_message (next_attempt w) url mower_name 2 with
      | Ok msg => Some msg
      | Raise _ => error (state self)
      end ∧
    api_limit_reached (state self') =
      match next_attempt w with
      | Resp _ => false
      | NetErr _ => api_limit_reached (state self)
      end.
Proof.
  intros Hrc Hre.
  destruct (attempt_retryable method url mower_name l self w Hre)
    as (self' & Hat & Hm & Her & _).
  rewrite retry_loop_S, Hat, Hrc. simpl.
  rewrite Hrc in Her. destruct Her as [Herr Hflag]; [lia|].
  destruct (failure_message (next_attempt w) url mower_name 2);
    (eexists _, self'; split; [reflexivity | done]).
Qed.

(** A 2xx response ends the loop at once. *)
Lemma retry_loop_success fuel method url mower_name l self w r :
  retry_counter l < 3 → next_attempt w = Resp r →
  200 ≤ status_code r < 300 →
  retry_loop (S fuel) method url mower_name l self w =
    (Ok tt, set_execution_status true (set_response r l),
     set_api_limit_reached false (set_error None self),
     (send method url w).2).
Proof.
  intros Hrc Hw Hst. unfold next_attempt in Hw.
  cbn [retry_loop attempt send]. rewrite Hw.
  destruct (Z.ltb_spec (retry_counter l) 3); [|lia].
  assert (((200 <=? status_code r) && (status_code r <? 300)) = true) as ->
    by (apply andb_true_iff; lia).
  done.
Qed.

(** A 4xx response other than 403 ends the loop at once: analysed, or with
    the exception the analysis raises and nothing stored. *)
Lemma retry_loop_client_error fuel method url mower_name l self w r :
  retry_counter l < 3 → next_attempt w = Resp r →
  400 ≤ status_code r < 500 → status_code r ≠ 403 →
  retry_loop (S fuel) method url mower_name l self w =
    match analysis_message r url mower_name with
    | Ok msg =>
        (Ok tt, set_response r l,
         set_error (Some msg) (set_api_limit_reached (status_code r =? 429) self),
         (send method url w).2)
    | Raise e =>
        (Raise e, set_response r l,
         set_api_limit_reached (status_code r =? 429) self, (send method url w).2)
    end.
Proof.
  intros Hrc Hw Hst Hne. unfold next_attempt in Hw.
  cbn [retry_loop attempt send]. rewrite Hw.
  destruct (Z.ltb_spec (retry_counter l) 3); [|lia].
  assert (((200 <=? status_code r) && (status_code r <? 300)) = false) as ->
    by (apply andb_false_iff; lia).
  destruct (Z.eqb_spec (status_code r) 403); [done|].
  assert (((400 <=? status_code r) && (status_code r <? 500)) = true) as ->
    by (apply andb_true_iff; lia).
  rewrite store_analysis_eq. by destruct (analysis_message r url mower_name).
Qed.

(** A status outside 200..599 ends the loop at once with the generic
    message; nothing else of the client changes. *)
Lemma retry_loop_unhandled fuel method url mower_name l self w r :
  retry_counter l < 3 → next_attempt w = Resp r →
  status_code r < 200 ∨ 300 ≤ status_code r < 400 ∨ 600 ≤ status_code r →
  retry_loop (S fuel) method url mower_name l self w =
    (Ok tt, set_response r l,
     set_error (Some ("HTTP error (" +:+ str_of_Z (status_code r) +:+
                      ") not specifically handled.")) self,
     (send method url w).2).
Proof.
  intros Hrc Hw Hst. unfold next_attempt in Hw.
  cbn [retry_loop attempt send]. rewrite Hw.
  destruct (Z.ltb_spec (retry_counter l) 3); [|lia].
  assert (((200 <=? status_code r) && (status_code r <? 300)) = false) as ->
    by (apply andb_false_iff; lia).
  destruct (Z.eqb_spec (status_code r) 403); [lia|].
  assert (((400 <=? status_code r) && (status_code r <? 500)) = false) as ->
    by (apply andb_false_iff; lia).
  assert (((500 <=? status_code r) && (status_code r <? 600)) = false) as ->
    by (apply andb_false_iff; lia).
  done.
Qed.

(** A first response with a status outside 200..599: one request, no sleep,
    the generic message, and the flag keeps the value it had. *)
Lemma http_with_retry_unhandled_status method url mower_name self w r :
  next_attempt w = Resp r →
  status_code r < 200 ∨ 300 ≤ status_code r < 400 ∨ 600 ≤ status_code r →
  ∃ self' w',
    _http_with_retry method url mower_name self w = (Ok JNull, self', w') ∧
    trace w' = trace w ++ [EvRequest method url] ∧
    error (state self') =
      Some ("HTTP error (" +:+ str_of_Z (status_code r) +:+
            ") not specifically handled.") ∧
    api_limit_reached (state self') = api_limit_reached (state self).
Proof.
  intros Hw Hst. unfold _http_with_retry.
  rewrite (retry_loop_unhandled 2 method url mower_name _ _ w r); [|done..].
  simpl. eexists _, _. split; [reflexivity|]. done.
Qed.

(** Three retryable attempts in a row: the loop sends three requests,
    sleeps after the first and the second, and leaves with the message of
    the third, or with the exception its analysis raises. *)
Lemma retry_loop_exhausted method url mower_name self w :
  retryable (responses w (requests_made w)) →
  retryable (responses w (S (requests_made w))) →
  retryable (responses w (S (S (requests_made w)))) →
  ∃ l' self' w',
    retry_loop 3 method url mower_name
      {| retry_counter := 0; execution_status := false; response := None |} self w =
      (match failure_message (responses w (S (S (requests_made w)))) url mower_name 2 with
       | Ok _ => Ok tt
       | Raise e => Raise e
       end, l', self', w') ∧
    execution_status l' = false ∧
    requests_made w' = (3 + requests_made w)%nat ∧
    trace w' = trace w ++
      [EvRequest method url; EvSleep (ApiConfig.RETRY_DELAY * (1 + 1));
       EvRequest method url; EvSleep (ApiConfig.RETRY_DELAY * (2 + 1));
       EvRequest method url] ∧
    (∀ msg,
       failure_message (responses w (S (S (requests_made w)))) url mower_name 2 = Ok msg →
       error (state self') = Some msg).
Proof.
  intros H1 H2 H3.
  set (l0 := {| retry_counter := 0; execution_status := false; response := None |}).
  destruct (retry_loop_again 2 method url mower_name l0 self w)
    as (l1 & self1 & -> & Hrc1 & Hex1 & _); [simpl; lia | done | exact H1 |].
  simpl in Hrc1. set (w1 := sleep _ _).
  destruct (retry_loop_again 1 method url mower_name l1 self1 w1)
    as (l2 & self2 & -> & Hrc2 & Hex2 & _); [lia | done | exact H2 |].
  set (w2 := sleep _ _).
  destruct (retry_loop_last 0 method url mower_name l2 self2 w2)
    as (l3 & self3 & -> & Hex3 & _ & Herr & _); [simpl in *; lia | exact H3 |].
  eexists _, _, _. split; [reflexivity|]. simpl.
  rewrite Hrc1. simpl. rewrite <- !(assoc_L (++)). simpl.
  split; [congruence|]. split; [done|]. split; [done|].
  intros msg Hmsg. unfold next_attempt in Herr. simpl in Herr.
  by rewrite Hmsg in Herr.
Qed.

(** After [n] retryable attempts the loop has slept [n] times and stands
    before attempt [n]. *)
Lemma retry_loop_prefix n fuel method url mower_name l self w :
  retry_counter l = 0 → execution_status l = false →
  (n < 3)%nat → retried_first w n →
  ∃ l' self' w',
    retry_loop (n + S fuel) method url mower_name l self w =
      retry_loop (S fuel) method url mower_name l' self' w' ∧
    retry_counter l' = Z.of_nat n ∧ execution_status l' = false ∧
    responses w' = responses w ∧ requests_made w' = (requests_made w + n)%nat ∧
    ∃ earlier, trace w' = trace w ++ earlier.
Proof.
  intros Hrc Hex Hn Hre.
  assert (∀ k, (k ≤ n)%nat →
    ∃ l' self' w',
      retry_loop (n + S fuel) method url mower_name l self w =
        retry_loop (n - k + S fuel) method url mower_name l' self' w' ∧
      retry_counter l' = Z.of_nat k ∧ execution_status l' = false ∧
      responses w' = responses w ∧ requests_made w' = (requests_made w + k)%nat ∧
      ∃ earlier, trace w' = trace w ++ earlier) as Hk.
  { induction k as [|k IH]; intros Hle.
    - exists l, self, w. rewrite Nat.sub_0_r, Nat.add_0_r, Hrc.
      repeat split; try done. exists []. by rewrite app_nil_r.
    - destruct IH as (l' & self' & w' & -> & Hrc' & Hex' & Hresp & Hreq & earlier & Htr);
        [lia|].
      replace (n - k + S fuel)%nat with (S (n - S k + S fuel)) by lia.
      destruct (retry_loop_again (n - S k + S fuel) method url mower_name l' self' w')
        as (l'' & self'' & -> & Hrc'' & Hex'' & _); [lia | done | |].
      { unfold next_attempt. rewrite Hresp, Hreq. apply Hre. lia. }
      eexists _, _, _. split; [reflexivity|]. simpl.
      repeat split; [lia | done | done | lia |].
      rewrite Htr, <- !(assoc_L (++)). eauto. }
  destruct (Hk n) as (l' & self' & w' & Heq & ?); [lia|].
  exists l', self', w'. rewrite Heq. by replace (n - n + S fuel)%nat with (S fuel) by lia.
Qed.

(** *** What a call of the request core can and cannot touch *)

Lemma core_frame_refl self : core_frame self self.
Proof. by repeat split. Qed.

Lemma core_frame_trans s1 s2 s3 : core_frame s1 s2 → core_frame s2 s3 → core_frame s1 s3.
Proof. unfold core_frame. intros ? ?. intuition congruence. Qed.

Lemma core_world_trans method url w1 w2 w3 :
  core_world method url w1 w2 → core_world method url w2 w3 → core_world method url w1 w3.
Proof.
  intros (? & ? & ? & ? & n1 & ? & ?) (? & ? & ? & ? & n2 & ? & ?).
  repeat split; [congruence | congruence | congruence | lia |].
  exists (n1 ++ n2). split; [|by apply Forall_app].
  rewrite (assoc_L (++)). congruence.
Qed.

Lemma core_world_send method url w : core_world method url w (send method url w).2.
Proof.
  repeat split; simpl; [lia|]. eexists; split; [done|].
  constructor; [by left | constructor].
Qed.

Lemma core_world_sleep method url seconds w : core_world method url w (sleep seconds w).
Proof.
  repeat split; simpl; [lia|]. eexists; split; [done|].
  constructor; [right; eauto | constructor].
Qed.

Lemma core_frame_set_error e self : core_frame self (set_error e self).
Proof. by repeat split. Qed.

(** Every pass sends one request, stays inside the frame of the core and
    goes one of the four ways of [Pass]. *)
Lemma attempt_pass method url mower_name l self w :
  ∃ broke l' self',
    attempt method url mower_name l self w = (broke, l', self', (send method url w).2) ∧
    core_frame self self' ∧ Pass url mower_name l self w broke l' self'.
Proof.
  assert (∀ r l1,
    next_attempt w = Resp r →
    (200 <=? status_code r) && (status_code r <? 300) = false →
    execution_status l1 = execution_status l →
    ∃ broke l' self',
      store_analysis r url mower_name l1 self (send method url w).2 =
        (broke, l', self', (send method url w).2) ∧
      core_frame self self' ∧ Pass url mower_name l self w broke l' self') as Hstore.
  { intros r l1 Hw H2xx Hex. rewrite store_analysis_eq.
    destruct (analysis_message r url mower_name) as [msg|e] eqn:Hmsg.
    - eexists _, _, _. split; [reflexivity|]. split; [by repeat split|].
      eapply PassFailure; [done | done |].
      by apply analysis_message_Ok in Hmsg as [_ ?].
    - eexists _, _, _. split; [reflexivity|]. split; [by repeat split|].
      by eapply PassRaise. }
  unfold attempt. simpl. destruct (responses w (requests_made w)) as [r|e] eqn:Hw.
  - destruct ((200 <=? status_code r) && (status_code r <? 300)) eqn:H2xx.
    { eexists _, _, _. split; [reflexivity|]. split; [by repeat split|].
      eapply PassSuccess; try done. apply andb_true_iff in H2xx. lia. }
    destruct (status_code r =? 403).
    { simpl. destruct (Z.leb_spec 3 (retry_counter l + 1)).
      - by apply Hstore.
      - eexists _, _, _. split; [reflexivity|]. split; [apply core_frame_refl|].
        by apply PassRetry. }
    destruct ((400 <=? status_code r) && (status_code r <? 500)).
    { by apply Hstore. }
    destruct ((500 <=? status_code r) && (status_code r <? 600)).
    { simpl. destruct (Z.leb_spec 3 (retry_counter l + 1)).
      - by apply Hstore.
      - eexists _, _, _. split; [reflexivity|]. split; [apply core_frame_refl|].
        by apply PassRetry. }
    eexists _, _, _. split; [reflexivity|]. split; [by repeat split|].
    eapply PassFailure; [done | done | apply append_nonempty].
  - simpl. destruct (Z.leb_spec 3 (retry_counter l + 1)).
    + eexists _, _, _. split; [reflexivity|]. split; [by repeat split|].
      eapply PassFailure; [done | done | apply append_nonempty].
    + eexists _, _, _. split; [reflexivity|]. split; [by repeat split|].
      by apply PassRetry.
Qed.

(** Three passes are enough: more fuel changes nothing. *)
Lemma retry_loop_fuel fuel method url mower_name l self w :
  0 ≤ retry_counter l → 3 - retry_counter l ≤ Z.of_nat fuel →
  retry_loop (S fuel) method url mower_name l self w =
  retry_loop fuel method url mower_name l self w.
Proof.
  revert l self w. induction fuel as [|fuel IH]; intros l self w Hrc Hfuel.
  - cbn [retry_loop]. destruct (Z.ltb_spec (retry_counter l) 3); [lia | done].
  - rewrite (retry_loop_S (S fuel)), (retry_loop_S fuel).
    destruct (retry_counter l <? 3); [|done].
    destruct (attempt_pass method url mower_name l self w)
      as (broke & l' & self' & -> & _ & HP).
    destruct HP; [done | done | done |]. rewrite IH; [done | lia | lia].
Qed.

(** The fuel [_http_with_retry] gives the loop is never used up. *)
Corollary http_with_retry_fuel fuel method url mower_name self w :
  (3 ≤ fuel)%nat →
  retry_loop fuel method url mower_name
    {| retry_counter := 0; execution_status := false; response := None |} self w =
  retry_loop 3 method url mower_name
    {| retry_counter := 0; execution_status := false; response := None |} self w.
Proof.
  induction 1 as [|fuel Hle IH]; [done|].
  rewrite retry_loop_fuel; [done | simpl; lia | simpl; lia].
Qed.

(** Entered with enough fuel, the loop sends at least one request and at
    most as many as the counter leaves room for, and ends in one of the ways
    of [loop_result]. *)
Lemma retry_loop_outcome fuel method url mower_name l self w :
  execution_status l = false → 0 ≤ retry_counter l < 3 →
  3 - retry_counter l ≤ Z.of_nat fuel →
  ∃ ended l' self' w',
    retry_loop fuel method url mower_name l self w = (ended, l', self', w') ∧
    core_frame self self' ∧ core_world method url w w' ∧
    (requests_made w < requests_made w')%nat ∧
    Z.of_nat (requests_made w') ≤ Z.of_nat (requests_made w) + (3 - retry_counter l) ∧
    (∃ rest, trace w' = trace w ++ EvRequest method url :: rest) ∧
    loop_result url mower_name ended l' self' w'.
Proof.
  revert l self w. induction fuel as [|fuel IH]; intros l self w Hex Hrc Hfuel; [lia|].
  rewrite retry_loop_S. destruct (Z.ltb_spec (retry_counter l) 3); [|lia].
  destruct (attempt_pass method url mower_name l self w)
    as (broke & l' & self' & -> & Hfr & HP).
  destruct HP as [l' self' r Hw Hst Hex' Hresp Herr Hfl
                 |l' self' msg Hex' Herr Hne
                 |l' self' r e Hw Hst Hmsg
                 |l' self' Hex' Hrc' Hlt].
  - eexists _, _, _, _. split; [reflexivity|]. split; [done|].
    split; [apply core_world_send|]. simpl. split; [lia|]. split; [lia|].
    split; [by exists []|].
    left. split; [done|]. exists r. done.
  - eexists _, _, _, _. split; [reflexivity|]. split; [done|].
    split; [apply core_world_send|]. simpl. split; [lia|]. split; [lia|].
    split; [by exists []|].
    right. split; [congruence|]. eauto.
  - eexists _, _, _, _. split; [reflexivity|]. split; [done|].
    split; [apply core_world_send|]. simpl. split; [lia|]. split; [lia|].
    split; [by exists []|].
    exists r. done.
  - destruct (Z.ltb_spec (retry_counter l') 3); [|lia].
    rewrite Hex', Hex. simpl.
    set (w1 := sleep _ _).
    destruct (IH l' self' w1)
      as (ended & l2 & self2 & w2 & -> & Hfr2 & Hw2 & Hsent & Hbound & _ & Hres);
      [congruence | lia | lia |].
    eexists _, _, _, _. split; [reflexivity|].
    split; [by eapply core_frame_trans|].
    split.
    { eapply core_world_trans; [|exact Hw2].
      eapply core_world_trans; [apply core_world_send | apply core_world_sleep]. }
    subst w1. simpl in Hsent, Hbound. split; [lia|]. split; [lia|].
    split; [|exact Hres].
    destruct Hw2 as (_ & _ & _ & _ & new & -> & _). simpl.
    rewrite <- !(assoc_L (++)). simpl. eauto.
Qed.

(** How a call of the core ends: see [core_result].  It sends one, two or
    three requests, whatever the outcome. *)
Lemma http_with_retry_outcome method url mower_name self w :
  ∃ result self' w',
    _http_with_retry method url mower_name self w = (result, self', w') ∧
    core_frame self self' ∧ core_world method url w w' ∧
    (requests_made w < requests_made w' ≤ requests_made w + 3)%nat ∧
    (∃ rest, trace w' = trace w ++ EvRequest method url :: rest) ∧
    core_result url mower_name result self' w'.
Proof.
  unfold _http_with_retry.
  destruct (retry_loop_outcome 3 method url mower_name
              {| retry_counter := 0; execution_status := false; response := None |}
              (set_error (Some EmptyString) self) w)
    as (ended & l' & self' & w' & -> & Hfr & Hw & Hsent & Hbound & Hreq & Hres);
    [done | simpl; lia | simpl; lia |].
  simpl in Hbound.
  assert (core_frame self self') as Hfr'
    by (eapply core_frame_trans; [apply core_frame_set_error | exact Hfr]).
  assert (∀ result s2,
    core_frame self s2 → core_result url mower_name result s2 w' →
    ∃ result' self'' w'',
      (result, s2, w') = (result', self'', w'') ∧
      core_frame self self'' ∧ core_world method url w w'' ∧
      (requests_made w < requests_made w'' ≤ requests_made w + 3)%nat ∧
      (∃ rest, trace w'' = trace w ++ EvRequest method url :: rest) ∧
      core_result url mower_name result' self'' w'') as Hend.
  { intros result s2 Hframe Hresult. exists result, s2, w'.
    split; [done|]. split; [done|]. split; [done|]. split; [lia|]. done. }
  destruct ended as [[]|e]; simpl in Hres.
  - destruct Hres as [(Hex & r & Hresp & Hlast & Hst & Herr & Hfl) | (Hex & msg & Herr & Hne)].
    + rewrite Hex, Hresp. unfold response_json.
      destruct (json_body r) as [v|] eqn:Hjson; simpl.
      * apply Hend; [done|]. left. by exists r.
      * apply Hend; [done|]. split; [done|]. exists r. split; [done|].
        assert (((200 <=? status_code r) && (status_code r <? 300)) = true) as ->
          by (apply andb_true_iff; lia).
        done.
    + rewrite Hex. apply Hend; [done|]. right. eauto.
  - destruct Hres as (r & Hlast & Hst & Hmsg).
    apply analysis_message_Raise in Hmsg as (-> & Hbody).
    apply Hend; [done|]. split; [done|]. exists r. split; [done|]. by rewrite Hst.
Qed.

End CoreProperties.

(** ** Methods built on the core *)

Section MethodProperties.
Context `{PyRuntime}.

Section Respects.
Context (R : Step) `{!StepOrder R}.

Lemma respects_ret {A} (a : A) : respects R (ret a).
Proof. intros self w r self' w' [= <- <- <-]. apply step_refl. Qed.

Lemma respects_lift {A} (x : Result A) : respects R (lift x).
Proof. intros self w r self' w' [= <- <- <-]. apply step_refl. Qed.

Lemma respects_get_self : respects R get_self.
Proof. intros self w r self' w' [= <- <- <-]. apply step_refl. Qed.

Lemma respects_bind {A B} (m : M A) (k : A → M B) :
  respects R m → (∀ a, respects R (k a)) → respects R (bind m k).
Proof.
  intros Hm Hk self w r self' w'. unfold bind.
  destruct (m self w) as [[[a|e] s1] w1] eqn:Em.
  - intros Ek. eapply step_trans; [by eapply Hm | by eapply Hk].
  - intros [= <- <- <-]. by eapply Hm.
Qed.

Lemma respects_try_except {A} (m : M A) (handler : PyExn → M A) :
  respects R m → (∀ e, respects R (handler e)) → respects R (try_except m handler).
Proof.
  intros Hm Hh self w r self' w'. unfold try_except.
  destruct (m self w) as [[[a|e] s1] w1] eqn:Em.
  - intros [= <- <- <-]. by eapply Hm.
  - intros Eh. eapply step_trans; [by eapply Hm | by eapply Hh].
Qed.

Lemma respects_update (f : Husqvarna → Husqvarna) :
  (∀ self w, R self w (f self) w) → respects R (update f).
Proof. intros Hf self w r self' w' [= <- <- <-]. apply Hf. Qed.

Lemma respects_datetime_now :
  (∀ self w, R self w self (now w).2) → respects R datetime_now.
Proof. intros Hn self w r self' w' [= <- <- <-]. apply Hn. Qed.

Lemma respects_http method url mower_name :
  (∀ self w self' w',
     core_frame self self' → core_world method url w w' → R self w self' w') →
  respects R (_http_with_retry method url mower_name).
Proof.
  intros HR self w r self' w' Hrun.
  destruct (http_with_retry_outcome method url mower_name self w)
    as (result & s1 & w1 & Hcall & Hfr & Hw & _).
  rewrite Hrun in Hcall. injection Hcall as <- <- <-. by apply HR.
Qed.

(** What holds of every run holds of the runs that return. *)
Lemma respects_returning {A} (m : M A) : respects R m → returning R m.
Proof. intros Hm self w a self' w'. apply Hm. Qed.

Lemma returning_bind {A B} (m : M A) (k : A → M B) :
  returning R m → (∀ a, returning R (k a)) → returning R (bind m k).
Proof.
  intros Hm Hk self w b self' w'. unfold bind.
  destruct (m self w) as [[[a|e] s1] w1] eqn:Em; [|discriminate].
  intros Ek. eapply step_trans; [by eapply Hm | by eapply Hk].
Qed.

(** A handler runs after a run of the [try] block that raised. *)
Lemma returning_try_except {A} (m : M A) (handler : PyExn → M A) :
  respects R m → (∀ e, returning R (handler e)) → returning R (try_except m handler).
Proof.
  intros Hm Hh self w a self' w'. unfold try_except.
  destruct (m self w) as [[[a'|e] s1] w1] eqn:Em.
  - intros [= <- <- <-]. by eapply Hm.
  - intros Eh. eapply step_trans; [by eapply Hm | by eapply Hh].
Qed.

End Respects.

(** One structural step of a proof that a method respects a relation; the
    argument closes the side conditions on updates, clock readings and
    requests. *)
Ltac respects_step side :=
  first
    [ solve [apply respects_ret; tc_solve]
    | solve [apply respects_lift; tc_solve]
    | solve [apply respects_get_self; tc_solve]
    | apply respects_update; [solve [side]]
    | apply respects_datetime_now; [solve [side]]
    | apply respects_http; [solve [side]]
    | apply respects_bind; [tc_solve | | intros ?]
    | apply respects_try_except; [tc_solve | | intros ?]
    | match goal with
      | |- respects _ (if ?b then _ else _) => destruct b
      | |- respects _ (match ?x with _ => _ end) => destruct x
      | |- respects _ (let _ := _ in _) => cbv zeta
      end ].

(** *** The oracle *)

#[local] Instance same_oracle_order : StepOrder same_oracle.
Proof.
  split; unfold same_oracle; [intros; repeat split; lia|].
  intros ?????? (? & ? & ? & ?) (? & ? & ? & ?).
  repeat split; [congruence | congruence | lia | lia].
Qed.

Ltac oracle_side :=
  unfold same_oracle, core_world; intros; simpl; intuition (try lia).

Lemma get_access_token_oracle : respects same_oracle _get_access_token.
Proof. unfold _get_access_token. repeat respects_step oracle_side. Qed.

Lemma check_access_token_oracle : respects same_oracle _check_access_token_and_renew.
Proof.
  unfold _check_access_token_and_renew.
  repeat first [ exact get_access_token_oracle | respects_step oracle_side ].
Qed.

Lemma get_mowers_request_oracle : respects same_oracle _get_mowers.
Proof. unfold _get_mowers. repeat respects_step oracle_side. Qed.

(** *** The time stamp of the mower list *)

#[local] Instance keeps_timestamp_order : StepOrder keeps_timestamp.
Proof. split; unfold keeps_timestamp; [done | congruence]. Qed.

Ltac timestamp_side :=
  unfold keeps_timestamp, get_timestamp_last_update_mower_list, core_frame;
  intros; simpl; intuition congruence.

Lemma get_access_token_keeps_timestamp : respects keeps_timestamp _get_access_token.
Proof. unfold _get_access_token. repeat respects_step timestamp_side. Qed.

Lemma check_access_token_keeps_timestamp :
  respects keeps_timestamp _check_access_token_and_renew.
Proof.
  unfold _check_access_token_and_renew.
  repeat first [ apply get_access_token_keeps_timestamp | respects_step timestamp_side ].
Qed.

Lemma get_mowers_request_keeps_timestamp : respects keeps_timestamp _get_mowers.
Proof. unfold _get_mowers. repeat respects_step timestamp_side. Qed.

(** C10. [get_mowers] writes the time stamp of the last mower-list update
    only when it succeeds: after a call that returns [False], whether the
    token renewal or the list request failed,
    [get_timestamp_last_update_mower_list] returns what it returned before. *)
Theorem get_mowers_failure_keeps_timestamp self w self' w' :
  get_mowers self w = (Ok false, self', w') →
  get_timestamp_last_update_mower_list self' = get_timestamp_last_update_mower_list self.
Proof.
  unfold get_mowers, bind.
  destruct (_check_access_token_and_renew self w) as [[[ok|e] s1] w1] eqn:Hcheck;
    [|discriminate].
  apply check_access_token_keeps_timestamp in Hcheck.
  destruct ok; [|by intros [= <- <-]].
  destruct (_get_mowers s1 w1) as [[[got|e] s2] w2] eqn:Hlist; [|discriminate].
  apply get_mowers_request_keeps_timestamp in Hlist.
  destruct got; [discriminate|].
  intros [= <- <-]. unfold keeps_timestamp in *. congruence.
Qed.

(** On success the time stamp is a reading of the clock taken by the call. *)
Lemma get_mowers_success_sets_timestamp self w self' w' :
  get_mowers self w = (Ok true, self', w') →
  ∃ n, (clock_reads w ≤ n)%nat ∧
       get_timestamp_last_update_mower_list self' = clock w' n.
Proof.
  unfold get_mowers, bind.
  destruct (_check_access_token_and_renew self w) as [[[ok|e] s1] w1] eqn:Hcheck;
    [|discriminate].
  destruct ok; [|discriminate].
  destruct (_get_mowers s1 w1) as [[[got|e] s2] w2] eqn:Hlist; [|discriminate].
  destruct got; [|discriminate].
  intros [= <- <-]. simpl. exists (clock_reads w2). split; [|done].
  apply check_access_token_oracle in Hcheck as (_ & _ & _ & ?).
  apply get_mowers_request_oracle in Hlist as (_ & _ & _ & ?). lia.
Qed.

(** *** The token *)

#[local] Instance reuses_token_order : StepOrder reuses_token.
Proof.
  split.
  - intros self w. repeat split. exists [].
    split; [by rewrite app_nil_r | apply not_elem_of_nil].
  - intros s1 w1 s2 w2 s3 w3 (? & ? & n1 & ? & ?) (? & ? & n2 & ? & ?).
    repeat split; [congruence | congruence |].
    exists (n1 ++ n2). split; [rewrite (assoc_L (++)); congruence|].
    by apply not_elem_of_app.
Qed.

Lemma reuses_token_extends self w self' w' :
  reuses_token self w self' w' → extends_trace self w self' w'.
Proof. intros (_ & _ & new & ? & _). by exists new. Qed.

Lemma mowers_url_ne (rest : string) :
  ApiEndpoints.MOWERS +:+ rest ≠ ApiEndpoints.TOKEN_REQUEST.
Proof.
  cbv [ApiEndpoints.MOWERS ApiEndpoints.BASE_API ApiEndpoints.TOKEN_REQUEST String.append].
  discriminate.
Qed.

Lemma reuses_token_http method url :
  method = GET ∨ url ≠ ApiEndpoints.TOKEN_REQUEST →
  ∀ self w self' w',
    core_frame self self' → core_world method url w w' → reuses_token self w self' w'.
Proof.
  intros Hne self w self' w' (_ & _ & _ & Htok & Hexp & _) (_ & _ & _ & _ & new & Htr & Hown).
  repeat split; [done | done |]. exists new. split; [done|].
  intros Hin. rewrite Forall_forall in Hown. apply Hown in Hin.
  destruct Hin as [[= <- <-] | [seconds [=]]]. by destruct Hne.
Qed.

Ltac reuses_side :=
  first
    [ apply reuses_token_http;
      first [ left; reflexivity | right; apply mowers_url_ne ]
    | intros; repeat split; simpl; exists [];
      split; [by rewrite app_nil_r | apply not_elem_of_nil] ].

Lemma timedelta_seconds_Ok v td :
  timedelta_seconds v = Ok td →
  ∃ z, seconds_of v = Some z ∧ td = z * microseconds_per_second.
Proof.
  unfold timedelta_seconds.
  destruct v as [|b|z| | |]; try discriminate; simpl;
    match goal with |- context [if ?c then _ else _] => destruct c end;
    intros [= <-]; eauto.
Qed.

(** The runs of an acquisition that return: the request returned a body;
    a falsy one gives [False] and the authentication message, a truthy one
    is a JSON object whose fields could be processed, and is stored. *)
Lemma get_access_token_Ok self w ok self' w' :
  _get_access_token self w = (Ok ok, self', w') →
  ∃ v s1 w1,
    _http_with_retry POST ApiEndpoints.TOKEN_REQUEST JNull self w = (Ok v, s1, w1) ∧
    truthy v = ok ∧
    if ok then
      ∃ document expires_in,
        v = JObj document ∧
        seconds_of (default (JNum 0) (document !! "expires_in")) = Some expires_in ∧
        self' =
          set_access_token_expiration
            (clock w1 (clock_reads w1) + expires_in * microseconds_per_second
             - ApiConfig.TOKEN_REFRESH_MARGIN * microseconds_per_second)
            (set_error None (set_access_token v s1)) ∧
        w' = (now (now w1).2).2 ∧
        is_ascii (client_id s1) = true ∧
        header_value (default (JStr EmptyString) (document !! "provider")) = Ok tt ∧
        py_slice (default (JStr "N/A") (document !! "access_token")) = Ok tt
    else
      self' = set_error (Some ("Bad or unauthorized authentication request (url: " +:+
                               ApiEndpoints.TOKEN_REQUEST +:+ ").")) s1 ∧
      w' = w1.
Proof.
  unfold _get_access_token, bind at 1.
  destruct (_http_with_retry POST ApiEndpoints.TOKEN_REQUEST JNull self w)
    as [[[v|e] s1] w1]; [|discriminate].
  intros Hrest. exists v, s1, w1. split; [done|]. revert Hrest.
  destruct (truthy v) eqn:Htruthy.
  2: { intros [= <- <- <-]. done. }
  unfold bind, update, datetime_now, lift, ret, now, get_self. simpl.
  destruct (py_get v "expires_in" (JNum 0)) as [e|] eqn:Hget; [|discriminate].
  destruct v as [| | | | |document]; try discriminate. simpl in Hget.
  injection Hget as <-. unfold rbind.
  destruct (timedelta_seconds _) as [lifetime|] eqn:Hlife; [|discriminate].
  apply timedelta_seconds_Ok in Hlife as (expires_in & Hsec & ->).
  destruct (datetime_add _ _) as [nominal|] eqn:Hnom; [|discriminate].
  destruct (datetime_add nominal _) as [effective|] eqn:Heff; [|discriminate].
  cbn [py_get].
  destruct (is_ascii (client_id s1)) eqn:Hid; [|discriminate].
  destruct (is_ascii (_ +:+ _)) eqn:Hauth; [|discriminate].
  destruct (header_value (default _ _)) as [[]|] eqn:Hprovider; [|discriminate].
  destruct (datetime_add (clock w1 (S _)) _); [|discriminate].
  destruct (py_slice _) as [[]|] eqn:Hslice; [|discriminate].
  intros [= <- <- <-]. split; [done|].
  exists document, expires_in.
  unfold datetime_add in Hnom, Heff.
  destruct (_ && _) in Hnom; [|discriminate]. injection Hnom as <-.
  destruct (_ && _) in Heff; [|discriminate]. injection Heff as <-.
  repeat apply conj; try done.
Qed.

(** A successful acquisition stores the document of the 2xx response to its
    last request and, as expiry, the clock reading of the acquisition plus
    the document's [expires_in] seconds (0 when absent) minus the margin of
    600 seconds; it leaves the error cleared. *)
Lemma get_access_token_success self w self' w' :
  _get_access_token self w = (Ok true, self', w') →
  (∃ r document expires_in,
     (requests_made w < requests_made w')%nat ∧
     last_answer w' = Resp r ∧ 200 ≤ status_code r < 300 ∧
     json_body r = Some (JObj document) ∧
     access_token (state self') = JObj document ∧
     seconds_of (default (JNum 0) (document !! "expires_in")) = Some expires_in ∧
     access_token_expiration (state self') =
       clock w (clock_reads w) + expires_in * microseconds_per_second
       - ApiConfig.TOKEN_REFRESH_MARGIN * microseconds_per_second) ∧
  error (state self') = None ∧ api_limit_reached (state self') = false ∧
  mowers self' = mowers self ∧ responses w' = responses w.
Proof.
  intros Hrun.
  apply get_access_token_Ok in Hrun
    as (v & s1 & w1 & Hcall & _ & document & expires_in & -> & Hseconds & -> & -> & _).
  destruct (http_with_retry_outcome POST ApiEndpoints.TOKEN_REQUEST JNull self w)
    as (result & s1' & w1' & Hcall' & (_ & _ & Hmowers & _) &
        (Hresponses & Hclock & Hreads & _) & Hsent & _ & Hresult).
  rewrite Hcall in Hcall'. injection Hcall' as <- <- <-.
  destruct Hresult as [(r & Hlast & Hstatus & Hjson & _ & Hflag) | ([=] & _)].
  split; [|done].
  exists r, document, expires_in. simpl.
  repeat apply conj; try done; try lia.
  by rewrite Hclock, Hreads.
Qed.

(** A failed acquisition stores its own message, and touches nothing else
    that the request did not touch. *)
Lemma get_access_token_failure self w self' w' :
  _get_access_token self w = (Ok false, self', w') →
  error (state self') =
    Some ("Bad or unauthorized authentication request (url: " +:+
          ApiEndpoints.TOKEN_REQUEST +:+ ").") ∧
  core_frame self self' ∧ clock_reads w' = clock_reads w ∧
  (requests_made w < requests_made w')%nat ∧ responses w' = responses w.
Proof.
  intros Hrun.
  apply get_access_token_Ok in Hrun as (v & s1 & w1 & Hcall & _ & -> & ->).
  destruct (http_with_retry_outcome POST ApiEndpoints.TOKEN_REQUEST JNull self w)
    as (result & s1' & w1' & Hcall' & Hframe & (Hresponses & _ & Hreads & _) & Hsent & _).
  rewrite Hcall in Hcall'. injection Hcall' as <- <- <-.
  split; [done|]. split; [exact Hframe|]. split; [done|]. split; [lia | done].
Qed.

(** An acquisition starts with the token request and sends nothing else. *)
Lemma get_access_token_first_event self w r self' w' :
  _get_access_token self w = (r, self', w') →
  ∃ rest, trace w' = trace w ++ token_request :: rest.
Proof.
  unfold _get_access_token, bind at 1.
  destruct (http_with_retry_outcome POST ApiEndpoints.TOKEN_REQUEST JNull self w)
    as (result & s1 & w1 & -> & _ & _ & _ & (rest & Hrest) & _).
  destruct result as [v|e]; [|intros [= <- <- <-]; by exists rest].
  intros Hk. exists rest. unfold token_request. rewrite <- Hrest.
  set (same_trace := (fun _ w _ w' => trace w' = trace w) : Step).
  assert (StepOrder same_trace) by (split; unfold same_trace; congruence).
  match type of Hk with
  | ?m _ _ = _ => assert (respects same_trace m) as Hm
  end.
  { destruct (truthy v); repeat respects_step ltac:(by unfold same_trace). }
  by apply Hm in Hk.
Qed.

Lemma check_access_token_policy : token_policy _check_access_token_and_renew.
Proof.
  intros self w r self' w'.
  unfold _check_access_token_and_renew, bind at 1, datetime_now, bind at 1, get_self.
  destruct (now w) as [t w1] eqn:Hnow. injection Hnow as <- <-.
  destruct (_ >? _).
  - unfold bind at 1.
    destruct (_get_access_token self _) as [[[ok|e] s1] w2] eqn:Hacq;
      apply get_access_token_first_event in Hacq; [|by intros [= <- <- <-]].
    intros [= <- <- <-]. exact Hacq.
  - intros Hk.
    match type of Hk with
    | ?m _ _ = _ => assert (respects reuses_token m) as Hm
    end.
    { repeat respects_step reuses_side. }
    by apply Hm in Hk.
Qed.

(** What the check does, by cases on its first clock reading. *)
Lemma check_access_token_cases self w checked self' w' :
  _check_access_token_and_renew self w = (checked, self', w') →
  if clock w (clock_reads w) >? access_token_expiration (state self)
  then
    ∃ acquired s1,
      _get_access_token self (now w).2 = (acquired, s1, w') ∧
      match acquired with
      | Ok ok => checked = Ok ok ∧ self' = set_authenticated ok s1
      | Raise e => checked = Raise e ∧ self' = s1
      end
  else
    w' = (now w).2 ∧
    ((checked = Ok true ∧ self' = set_authenticated true self) ∨
     (∃ e, checked = Raise e ∧ self' = self)).
Proof.
  unfold _check_access_token_and_renew, bind at 1, datetime_now, bind at 1, get_self.
  destruct (now w) as [t w0] eqn:Hnow. injection Hnow as <- <-.
  destruct (_ >? _).
  - unfold bind at 1. simpl.
    destruct (_get_access_token self _) as [[[ok|e] s1] w1] eqn:Hacq;
      intros [= <- <- <-]; eexists _, _; (split; [reflexivity | done]).
  - unfold bind, update, lift, ret. simpl.
    destruct (truthy _).
    + destruct (py_get _ "token_type" _); [|intros [= <- <- <-]; split; eauto].
      destruct (py_get _ "access_token" _); [|intros [= <- <- <-]; split; eauto].
      destruct (py_slice _); intros [= <- <- <-]; split; eauto.
    + intros [= <- <- <-]. split; eauto.
Qed.

(** A check made past the stored expiry leaves the renewed token and its
    expiry, or on failure the ones it found; a check made before it never
    returns [False]. *)
Lemma check_access_token_renewal : renewal_policy.
Proof.
  intros self w checked self' w' Hrun.
  pose proof (check_access_token_policy _ _ _ _ _ Hrun) as Hpolicy.
  apply check_access_token_cases in Hrun.
  destruct (_ >? _).
  - split; [exact Hpolicy|].
    destruct Hrun as (acquired & s1 & Hacq & Hrun).
    destruct acquired as [[|]|e]; destruct Hrun as [-> ->]; simpl; [| |done].
    + apply get_access_token_success in Hacq
        as ((r & document & expires_in & Hsent & Hlast & Hstatus & Hjson & Htoken &
             Hseconds & Hexpiry) & _).
      exists r, document, expires_in. simpl in Hsent, Hexpiry.
      repeat apply conj; try done; lia.
    + apply get_access_token_failure in Hacq as (_ & (_ & _ & _ & Htoken & Hexpiry & _) & _).
      done.
  - split; [exact Hpolicy|].
    destruct Hrun as (_ & [[-> _] | (e & -> & _)]); discriminate.
Qed.

(** A method that checks the token first and then only talks to the mower
    endpoints follows the renewal policy. *)
Lemma token_policy_after_check {A} (k : bool → M A) :
  (∀ ok, respects reuses_token (k ok)) →
  token_policy (bind _check_access_token_and_renew k).
Proof.
  intros Hk self w r self' w'. unfold bind.
  destruct (_check_access_token_and_renew self w) as [[[ok|e] s1] w1] eqn:Hcheck;
    apply check_access_token_policy in Hcheck.
  - intros Hrest. apply Hk in Hrest.
    destruct (_ >? _).
    + destruct Hcheck as (rest & Hcheck).
      apply reuses_token_extends in Hrest as (new & Hnew).
      exists (rest ++ new). rewrite Hnew, Hcheck, <- (assoc_L (++)). done.
    + by eapply (step_trans (R := reuses_token)).
  - by intros [= <- <- <-].
Qed.

Lemma checks_token_first_after_check {A} (k : bool → M A) :
  (∀ ok, respects reuses_token (k ok)) →
  checks_token_first (bind _check_access_token_and_renew k).
Proof.
  intros Hk self w r self' w'. unfold bind.
  destruct (_check_access_token_and_renew self w) as [[[ok|e] s1] w1] eqn:Hcheck.
  - intros Hrest. eexists _, _, _. split; [reflexivity|]. by eapply Hk.
  - intros [= <- <- <-]. eexists _, _, _. split; [reflexivity|].
    apply (step_refl (R := reuses_token)).
Qed.

Lemma store_mower_info_reuses index mower_info :
  respects reuses_token (store_mower_info index mower_info).
Proof. unfold store_mower_info. repeat respects_step reuses_side. Qed.

Lemma mower_info_loop_reuses remaining index status :
  respects reuses_token (mower_info_loop remaining index status).
Proof.
  revert index status. induction remaining as [|remaining IH]; intros index status.
  - apply respects_ret; tc_solve.
  - cbn [mower_info_loop].
    repeat first [ apply IH | apply store_mower_info_reuses | respects_step reuses_side ].
Qed.

Lemma get_mower_detailed_info_reuses : respects reuses_token _get_mower_detailed_info.
Proof.
  unfold _get_mower_detailed_info.
  apply respects_bind; [tc_solve | apply respects_get_self; tc_solve |].
  intros self. apply mower_info_loop_reuses.
Qed.

Lemma get_mowers_request_reuses : respects reuses_token _get_mowers.
Proof. unfold _get_mowers. repeat respects_step reuses_side. Qed.

(** Every operation is the token check followed by work that reuses the
    token; [after_check] turns that into a property of the operation. *)
Lemma operations_after_check (P : ∀ A, M A → Prop) :
  (∀ A (k : bool → M A),
     (∀ ok, respects reuses_token (k ok)) → P A (bind _check_access_token_and_renew k)) →
  every_api_operation P.
Proof.
  intros after_check.
  assert (∀ mower_name action duration,
            P _ (_send_action_to_mower mower_name action duration)) as Haction.
  { intros mower_name action duration. unfold _send_action_to_mower.
    replace (known_action action) with true by (by destruct action). cbn [negb].
    apply after_check. intros ok. repeat respects_step reuses_side. }
  unfold every_api_operation.
  repeat apply conj; intros;
    first [ apply Haction
          | apply after_check; intros ok;
            repeat first [ exact get_mowers_request_reuses
                         | exact get_mower_detailed_info_reuses
                         | respects_step reuses_side ] ].
Qed.

(** C1. Renewal is proactive with a fixed margin.  A successful acquisition
    stores, as effective expiry, the clock reading of the acquisition plus
    the [expires_in] seconds of the response minus 600 seconds.  The token
    check and every operation that talks to the API start by reading the
    clock.  When the reading is not past the stored expiry they work with the
    stored token and send no token request, and the check does not fail.
    When the reading is past it they start with a token request; a check that
    then returns [True] has stored the document of the 2xx response it
    received as the token and, as expiry, the clock reading of this
    acquisition plus the document's [expires_in] seconds minus 600 seconds; a
    check that returns [False] has left the token and the expiry it found.
    Every operation is this check followed by work that leaves the token and
    its expiry as the check left them and asks for no token. *)
Theorem token_renewal_policy :
  (∀ self w self' w',
     _get_access_token self w = (Ok true, self', w') →
     ∃ document expires_in,
       access_token (state self') = JObj document ∧
       seconds_of (default (JNum 0) (document !! "expires_in")) = Some expires_in ∧
       access_token_expiration (state self') =
         clock w (clock_reads w) + expires_in * microseconds_per_second
         - 600 * microseconds_per_second) ∧
  token_policy _check_access_token_and_renew ∧
  every_api_operation (@token_policy) ∧
  renewal_policy ∧
  every_api_operation (fun A op => checks_token_first op).
Proof.
  split.
  { intros self w self' w' Hacq.
    apply get_access_token_success in Hacq
      as ((r & document & expires_in & _ & _ & _ & _ & Htoken & Hseconds & Hexpiry) & _).
    by exists document, expires_in. }
  split; [exact check_access_token_policy|].
  split; [apply operations_after_check; intros A; apply token_policy_after_check|].
  split; [exact check_access_token_renewal|].
  apply operations_after_check. intros A. apply checks_token_first_after_check.
Qed.

End MethodProperties.

(** ** Error messages *)

Section MessageProperties.
Context `{PyRuntime}.

(** Find [part] among the pieces of a concatenation. *)
Ltac find_part :=
  lazymatch goal with
  | |- includes (?part +:+ ?after) ?part => exists EmptyString, after; reflexivity
  | |- includes (error_context _ _ +:+ _) _ =>
      first [ apply includes_app_l; unfold error_context; find_part
            | apply includes_app_r; find_part ]
  | |- includes (_ +:+ _) _ => apply includes_app_r; find_part
  end.

(** Every message the [try] block builds names the URL, the status code and
    the mower. *)
Lemma analyze_body_includes r url mower_name msg :
  analyze_body r url mower_name = Ok msg →
  includes msg url ∧ includes msg (str_of_Z (status_code r)) ∧
  includes msg (name_or_unknown mower_name).
Proof.
  unfold analyze_body, rbind.
  repeat (match goal with
          | |- context [match ?x with _ => _ end] => destruct x
          end; try discriminate);
    intros [= <-]; repeat split; find_part.
Qed.

(** X33. The message the analysis of a response builds, when it builds
    one: it opens with [(name - status) ]; a JSON object with an [errors]
    entry gives the title and detail of its first entry when that is an
    object, and [Unknown Error: No detail] when the entry is empty or
    otherwise falsy, whatever [message] holds; an object without [errors]
    gives its [message], and the uncaptured-error message when it has none.
    A body that does not decode gives no message: the analysis raises the
    [AttributeError] of [httpx.JSONDecodeError].  Every message built is
    non-empty and includes the URL, the status code and the mower name. *)
Theorem analysis_message_precedence r url mower_name :
  (∀ body, json_body r = Some (JObj body) →
     (∀ entry rest, body !! "errors" = Some (JArr (JObj entry :: rest)) →
        analysis_message r url mower_name =
          Ok (error_context r mower_name +:+
              py_str (default (JStr "Unknown Error") (entry !! "title")) +:+ ": " +:+
              py_str (default (JStr "No detail") (entry !! "detail")) +:+
              " (url: " +:+ url +:+ ")")) ∧
     (∀ errors, body !! "errors" = Some errors → truthy errors = false →
        analysis_message r url mower_name =
          Ok (error_context r mower_name +:+
              "Unknown Error: No detail (url: " +:+ url +:+ ")")) ∧
     (body !! "errors" = None →
        ∀ message, body !! "message" = Some message →
          analysis_message r url mower_name =
            Ok (error_context r mower_name +:+ py_str message +:+
                " (url: " +:+ url +:+ ")")) ∧
     (body !! "errors" = None → body !! "message" = None →
        analysis_message r url mower_name =
          Ok (error_context r mower_name +:+
              "Uncaptured error returned by Husqvarna API (url: " +:+ url +:+ ")"))) ∧
  (json_body r = None →
     analysis_message r url mower_name = Raise (ModuleAttributeError "httpx" "JSONDecodeError")) ∧
  (∀ msg, analysis_message r url mower_name = Ok msg →
     msg ≠ EmptyString ∧
     includes msg url ∧ includes msg (str_of_Z (status_code r)) ∧
     includes msg (name_or_unknown mower_name)).
Proof.
  split; [|split].
  - intros body Hjson. rewrite analysis_message_eq.
    unfold analyze_body, response_json. rewrite Hjson. simpl.
    repeat apply conj.
    + intros entry rest Herr. rewrite Herr. simpl. done.
    + intros errors Herr Hfalse. rewrite Herr. simpl. rewrite Hfalse. simpl.
      rewrite !lookup_empty. done.
    + intros Herr message Hmsg. rewrite Herr, Hmsg. simpl. done.
    + intros Herr Hmsg. rewrite Herr, Hmsg. simpl. done.
  - intros Hjson. rewrite analysis_message_eq.
    unfold analyze_body, response_json. by rewrite Hjson.
  - intros msg Hmsg. apply analysis_message_Ok in Hmsg as (Hbody & Hne).
    split; [exact Hne|]. by apply analyze_body_includes.
Qed.

End MessageProperties.

(** ** Mower states and error codes *)

(** C8. [are_all_mowers_off] is [True] exactly when every dict of the stored
    mower list has the state [OFF]; with an empty list it is [True]. *)
Theorem are_all_mowers_off_spec self :
  (are_all_mowers_off self = true ↔
   ∀ mower, mower ∈ mowers self → mower !! "state" = Some (JStr "OFF")) ∧
  are_all_mowers_off (set_mowers [] self) = true.
Proof.
  split; [|done].
  unfold are_all_mowers_off. rewrite forallb_forall.
  split; intros Hall mower Hin.
  - apply list_elem_of_In, Hall in Hin. unfold state_is_off in Hin.
    destruct (mower !! "state") as [[]|]; simpl in Hin; try done.
    apply String.eqb_eq in Hin. by subst.
  - apply list_elem_of_In, Hall in Hin. unfold state_is_off. rewrite Hin. done.
Qed.



(** * Further properties *)

(** ** The request core *)

Section CoreFurther.
Context `{PyRuntime}.

Ltac loop_ends_after attempts :=
  eexists _, _, _, _, attempts; split; [reflexivity|]; split; [lia|]; simpl;
  split; [lia|]; rewrite <- ?(assoc_L (++)); reflexivity.

(** The trace of the loop, pass by pass. *)
Lemma retry_loop_trace method url mower_name self w :
  ∃ ended l' self' w' attempts,
    retry_loop 3 method url mower_name
      {| retry_counter := 0; execution_status := false; response := None |} self w =
      (ended, l', self', w') ∧
    (1 ≤ attempts ≤ 3)%nat ∧
    requests_made w' = (requests_made w + attempts)%nat ∧
    trace w' = trace w ++ core_trace method url attempts.
Proof.
  set (l0 := {| retry_counter := 0; execution_status := false; response := None |}).
  rewrite retry_loop_S. change (retry_counter l0 <? 3) with true. cbv iota.
  destruct (attempt_pass method url mower_name l0 self w)
    as (b1 & l1 & s1 & -> & _ & P1).
  destruct P1 as [? ? ? _ _ _ _ _ _ | ? ? ? _ _ _ | ? ? ? ? _ _ _ | l1 s1 Hex1 Hrc1 _];
    [loop_ends_after 1%nat | loop_ends_after 1%nat | loop_ends_after 1%nat |].
  assert (retry_counter l1 = 1) as Hone by (simpl in Hrc1; lia).
  clear Hrc1. rename Hone into Hrc1. simpl in Hex1. rewrite Hrc1, Hex1.
  change ((1 <? 3) && negb false) with true. cbv iota.
  set (w1 := sleep _ _).
  rewrite retry_loop_S, Hrc1. change (1 <? 3) with true. cbv iota.
  destruct (attempt_pass method url mower_name l1 s1 w1)
    as (b2 & l2 & s2 & -> & _ & P2).
  destruct P2 as [? ? ? _ _ _ _ _ _ | ? ? ? _ _ _ | ? ? ? ? _ _ _ | l2 s2 Hex2 Hrc2 _];
    [loop_ends_after 2%nat | loop_ends_after 2%nat | loop_ends_after 2%nat |].
  assert (retry_counter l2 = 2) as Htwo by lia.
  clear Hrc2. rename Htwo into Hrc2. rewrite Hex1 in Hex2. rewrite Hrc2, Hex2.
  change ((2 <? 3) && negb false) with true. cbv iota.
  set (w2 := sleep _ _).
  rewrite retry_loop_S, Hrc2. change (2 <? 3) with true. cbv iota.
  destruct (attempt_pass method url mower_name l2 s2 w2)
    as (b3 & l3 & s3 & -> & _ & P3).
  destruct P3 as [? ? ? _ _ _ _ _ _ | ? ? ? _ _ _ | ? ? ? ? _ _ _ | l3 s3 _ Hrc3 Hlt];
    [loop_ends_after 3%nat | loop_ends_after 3%nat | loop_ends_after 3%nat | lia].
Qed.

(** After the loop the call sends nothing and does not sleep. *)
Lemma http_with_retry_world method url mower_name self w :
  (_http_with_retry method url mower_name self w).2 =
  (retry_loop 3 method url mower_name
     {| retry_counter := 0; execution_status := false; response := None |}
     (set_error (Some EmptyString) self) w).2.
Proof.
  unfold _http_with_retry.
  destruct (retry_loop 3 _ _ _ _ _ _) as [[[[[]|e] l'] self'] w']; [|done].
  destruct (execution_status l'), (response l') as [r|]; try done.
  by destruct (response_json r).
Qed.

(** X1. Whatever the server and the network do, and whether it returns or
    raises, a call of [_http_with_retry] sends one, two or three requests and
    nothing else but the sleep of 4 s after the first and of 6 s after the
    second failed attempt: it never sleeps more than 10 s in all. *)
Theorem http_with_retry_bounded method url mower_name self w :
  ∃ attempts,
    (1 ≤ attempts ≤ 3)%nat ∧
    requests_made (_http_with_retry method url mower_name self w).2 =
      (requests_made w + attempts)%nat ∧
    trace (_http_with_retry method url mower_name self w).2 =
      trace w ++ core_trace method url attempts ∧
    slept (core_trace method url attempts) ≤ 10.
Proof.
  rewrite http_with_retry_world.
  destruct (retry_loop_trace method url mower_name (set_error (Some EmptyString) self) w)
    as (ended & l' & self' & w' & attempts & -> & Hn & Hreq & Htr).
  exists attempts. split; [exact Hn|].
  assert (slept (core_trace method url attempts) ≤ 10) as Hslept.
  { destruct attempts as [|[|[|[|?]]]]; try lia; vm_compute; discriminate. }
  done.
Qed.

(** X2. Of the client, a call of [_http_with_retry] writes the stored error
    and the rate-limit flag and nothing else: credentials, mower list, token,
    expiry, time stamp and authentication flag are as before.  Of the world,
    it keeps the oracle and never reads the clock. *)
Theorem http_with_retry_frame method url mower_name self w :
  core_frame self (_http_with_retry method url mower_name self w).1.2 ∧
  responses (_http_with_retry method url mower_name self w).2 = responses w ∧
  clock (_http_with_retry method url mower_name self w).2 = clock w ∧
  clock_reads (_http_with_retry method url mower_name self w).2 = clock_reads w.
Proof.
  destruct (http_with_retry_outcome method url mower_name self w)
    as (result & self' & w' & -> & Hfr & (Hresp & Hclock & Hreads & _) & _).
  done.
Qed.

(** X3. A first response with a 4xx status other than 403 (404, say) is
    final: one request, no sleep, and the rate-limit flag says whether the
    status was 429.  When the [try] block of the analysis builds a message,
    the call returns [None] with that message stored.  When the block raises
    (the body does not decode, say), the call raises the [AttributeError] of
    [httpx.JSONDecodeError] and the stored error is the empty text the call
    started with. *)
Theorem http_with_retry_terminal_client_error method url mower_name self w r :
  responses w (requests_made w) = Resp r →
  400 ≤ status_code r < 500 → status_code r ≠ 403 →
  ∃ self' w',
    requests_made w' = S (requests_made w) ∧
    trace w' = trace w ++ [EvRequest method url] ∧
    are_api_limits_reached self' = (status_code r =? 429) ∧
    match analyze_body r url mower_name with
    | Ok msg =>
        _http_with_retry method url mower_name self w = (Ok JNull, self', w') ∧
        get_http_error self' = Some msg
    | Raise _ =>
        _http_with_retry method url mower_name self w =
          (Raise (ModuleAttributeError "httpx" "JSONDecodeError"), self', w') ∧
        get_http_error self' = Some EmptyString
    end.
Proof.
  intros Hw Hst Hne. unfold _http_with_retry.
  rewrite (retry_loop_client_error 2 method url mower_name _ _ w r); [|done..].
  rewrite analysis_message_eq.
  destruct (analyze_body r url mower_name) as [msg|e];
    simpl; eexists _, _; (split; [|split; [|split; [|split; [reflexivity|]]]]); done.
Qed.

(** X31. Three attempts that each meet a retryable condition (status 403,
    status 500-599 or a network error): the call sends exactly three requests,
    sleeps [RETRY_DELAY * (k + 1)] after the k-th failed attempt (k = 1, 2),
    and does not sleep after the third.  When the third attempt is a network
    error, or a response whose analysis builds a message, the call returns
    [None] with the message of that attempt stored; when the analysis of the
    third response raises, the call raises the [AttributeError] of
    [httpx.JSONDecodeError]. *)
Theorem http_with_retry_three_attempts method url mower_name self w :
  retryable (responses w (requests_made w)) →
  retryable (responses w (S (requests_made w))) →
  retryable (responses w (S (S (requests_made w)))) →
  ∃ self' w',
    requests_made w' = (3 + requests_made w)%nat ∧
    trace w' = trace w ++
      [EvRequest method url; EvSleep (ApiConfig.RETRY_DELAY * (1 + 1));
       EvRequest method url; EvSleep (ApiConfig.RETRY_DELAY * (2 + 1));
       EvRequest method url] ∧
    ApiConfig.RETRY_DELAY * (1 + 1) < ApiConfig.RETRY_DELAY * (2 + 1) ∧
    match failure_message (responses w (S (S (requests_made w)))) url mower_name 2 with
    | Ok msg =>
        _http_with_retry method url mower_name self w = (Ok JNull, self', w') ∧
        get_http_error self' = Some msg ∧ msg ≠ EmptyString
    | Raise e =>
        _http_with_retry method url mower_name self w = (Raise e, self', w') ∧
        e = ModuleAttributeError "httpx" "JSONDecodeError"
    end.
Proof.
  intros H1 H2 H3. unfold _http_with_retry.
  destruct (retry_loop_exhausted method url mower_name
              (set_error (Some EmptyString) self) w H1 H2 H3)
    as (l' & self' & w' & -> & Hex & Hreq & Htrace & Herr).
  exists self', w'. split; [exact Hreq|]. split; [exact Htrace|].
  split; [unfold ApiConfig.RETRY_DELAY; lia|].
  destruct (failure_message _ url mower_name 2) as [msg|e] eqn:Hmsg.
  - rewrite Hex. split; [reflexivity|]. split; [by apply Herr|].
    by eapply failure_message_nonempty.
  - split; [reflexivity|]. by eapply failure_message_Raise.
Qed.

(** X32. A 2xx response, met at once or after retried attempts, ends the
    call with the request it answers, and the error and the rate-limit flag
    are cleared.  With a body that decodes as JSON the call returns exactly the
    decoded body.  With a body that does not decode it raises the
    [AttributeError] of [httpx.JSONDecodeError]: no parse-error message is
    stored. *)
Theorem http_with_retry_success_roundtrip n method url mower_name self w r :
  (n < 3)%nat → retried_first w n →
  responses w (requests_made w + n) = Resp r →
  200 ≤ status_code r < 300 →
  ∃ self' w',
    _http_with_retry method url mower_name self w =
      (match json_body r with
       | Some v => Ok v
       | None => Raise (ModuleAttributeError "httpx" "JSONDecodeError")
       end, self', w') ∧
    requests_made w' = (requests_made w + n + 1)%nat ∧
    (∃ earlier, trace w' = trace w ++ earlier ++ [EvRequest method url]) ∧
    are_api_limits_reached self' = false ∧
    get_http_error self' = None.
Proof.
  intros Hn Hre Hw Hst. unfold _http_with_retry.
  set (l0 := {| retry_counter := 0; execution_status := false; response := None |}).
  set (self0 := set_error (Some EmptyString) self).
  destruct (retry_loop_prefix n (2 - n) method url mower_name l0 self0 w)
    as (l1 & self1 & w1 & Heq & Hrc1 & Hex1 & Hresp & Hreq & earlier & Htr);
    [done|done|done|done|].
  replace (n + S (2 - n))%nat with 3%nat in Heq by lia. rewrite Heq.
  rewrite (retry_loop_success _ method url mower_name l1 self1 w1 r); [|lia| |done].
  2: { unfold next_attempt. by rewrite Hresp, Hreq. }
  simpl. unfold response_json. destruct (json_body r) as [v|]; simpl;
    (eexists _, _; split; [reflexivity|]; simpl;
     split; [lia|]; split; [|done];
     exists earlier; by rewrite Htr, <- (assoc_L (++))).
Qed.

(** One pass raises the flag only on a 429 response. *)
Lemma attempt_flag method url mower_name l self w :
  api_limit_reached (state (attempt method url mower_name l self w).1.2) = true →
  (∃ r, next_attempt w = Resp r ∧ status_code r = 429) ∨
  api_limit_reached (state self) = true.
Proof.
  unfold attempt, next_attempt. simpl.
  destruct (responses w (requests_made w)) as [r|e]; [|simpl; auto].
  rewrite !store_analysis_eq.
  destruct (_ && _); [simpl; discriminate|].
  destruct (Z.eqb_spec (status_code r) 429) as [E|NE].
  { intros _. left. by exists r. }
  destruct (analysis_message r url mower_name);
    repeat match goal with
           | |- context [if ?c then _ else _] => destruct c
           end; simpl; auto; discriminate.
Qed.

Lemma retry_loop_flag fuel method url mower_name l self w :
  (requests_made w ≤ requests_made (retry_loop fuel method url mower_name l self w).2)%nat ∧
  (api_limit_reached (state (retry_loop fuel method url mower_name l self w).1.2) = true →
   (∃ n r,
      (requests_made w ≤ n <
         requests_made (retry_loop fuel method url mower_name l self w).2)%nat ∧
      responses w n = Resp r ∧ status_code r = 429) ∨
   api_limit_reached (state self) = true).
Proof.
  revert l self w. induction fuel as [|fuel IH]; intros l self w; [simpl; auto|].
  rewrite retry_loop_S. destruct (retry_counter l <? 3); [|simpl; auto].
  pose proof (attempt_flag method url mower_name l self w) as Hpass.
  destruct (attempt_pass method url mower_name l self w)
    as (broke & l' & self' & Hat & _ & _).
  rewrite Hat in Hpass |- *. simpl in Hpass.
  assert (api_limit_reached (state self') = true →
          (∃ n r, (requests_made w ≤ n < S (requests_made w))%nat ∧
                  responses w n = Resp r ∧ status_code r = 429) ∨
          api_limit_reached (state self) = true) as Hone.
  { intros Hf. destruct (Hpass Hf) as [(r & Hr & Hst)|]; [|by right].
    left. exists (requests_made w), r. split; [lia | done]. }
  destruct broke as [[|]|e]; cbv beta iota;
    [simpl; split; [lia | exact Hone] | | simpl; split; [lia | exact Hone]].
  set (w1 := if (retry_counter l' <? 3) && negb (execution_status l')
             then sleep (ApiConfig.RETRY_DELAY * (retry_counter l' + 1))
                        (send method url w).2
             else (send method url w).2).
  assert (requests_made w1 = S (requests_made w) ∧ responses w1 = responses w)
    as [Hrequests Hresponses] by (unfold w1; by destruct (_ && _)).
  destruct (IH l' self' w1) as (Hgrows & Hflag).
  rewrite Hrequests in Hgrows, Hflag. rewrite Hresponses in Hflag.
  split; [lia|]. intros Hf.
  destruct (Hflag Hf) as [(n & r & Hn & Hr & Hst)|Hf'].
  - left. exists n, r. split; [lia | done].
  - destruct (Hone Hf') as [(n & r & Hn & Hr & Hst)|]; [|by right].
    left. exists n, r. split; [lia | done].
Qed.

(** X4. The rate-limit flag is never raised without a 429: after a call of
    [_http_with_retry], returning or raising, the flag is set only if one of
    the responses to the requests of this call had status 429 or the flag was
    set before the call; and after a call that returns a body the flag is
    cleared. *)
Theorem rate_limit_flag_needs_429 method url mower_name self w :
  (are_api_limits_reached (_http_with_retry method url mower_name self w).1.2 = true →
   (∃ n r,
      (requests_made w ≤ n <
         requests_made (_http_with_retry method url mower_name self w).2)%nat ∧
      responses w n = Resp r ∧ status_code r = 429) ∨
   are_api_limits_reached self = true) ∧
  (∀ v, (_http_with_retry method url mower_name self w).1.1 = Ok v → v ≠ JNull →
        are_api_limits_reached (_http_with_retry method url mower_name self w).1.2 = false).
Proof.
  split.
  - rewrite http_with_retry_world.
    destruct (retry_loop_flag 3 method url mower_name
                {| retry_counter := 0; execution_status := false; response := None |}
                (set_error (Some EmptyString) self) w) as (_ & Hloop).
    assert (api_limit_reached (state (_http_with_retry method url mower_name self w).1.2) =
            api_limit_reached
              (state (retry_loop 3 method url mower_name
                        {| retry_counter := 0; execution_status := false;
                           response := None |}
                        (set_error (Some EmptyString) self) w).1.2)) as Hsame.
    { unfold _http_with_retry.
      destruct (retry_loop 3 _ _ _ _ _ _) as [[[[[]|e] l'] self'] w']; [|done].
      destruct (execution_status l'), (response l') as [r|]; try done.
      by destruct (response_json r). }
    unfold are_api_limits_reached. rewrite Hsame. exact Hloop.
  - destruct (http_with_retry_outcome method url mower_name self w)
      as (result & self' & w' & -> & _ & _ & _ & _ & Hout). simpl.
    intros v -> Hbody.
    destruct Hout as [(r & _ & _ & _ & _ & Hfl) | (-> & _)]; done.
Qed.

(** X6. A body that [_http_with_retry] returns is the decoded body of a 2xx
    response received during this call, to one of its at most three
    requests. *)
Theorem http_with_retry_returns_own_response method url mower_name self w v :
  (_http_with_retry method url mower_name self w).1.1 = Ok v → v ≠ JNull →
  ∃ n r,
    (requests_made w ≤ n < requests_made w + 3)%nat ∧
    (n < requests_made (_http_with_retry method url mower_name self w).2)%nat ∧
    responses w n = Resp r ∧ 200 ≤ status_code r < 300 ∧
    json_body r = Some v.
Proof.
  destruct (http_with_retry_outcome method url mower_name self w)
    as (result & self' & w' & -> & _ & (Hresponses & _) & Hsent & _ & Hout).
  simpl. intros -> Hbody.
  destruct Hout as [(r & Hlast & Hstatus & Hjson & _) | (-> & _)]; [|done].
  exists (Nat.pred (requests_made w')), r.
  unfold last_answer in Hlast. rewrite Hresponses in Hlast.
  repeat apply conj; try done; lia.
Qed.

End CoreFurther.

(** ** The token *)

Section TokenFurther.
Context `{PyRuntime}.

(** X7. A failed token acquisition is not destructive: when
    [_get_access_token] returns [False] the stored token and its expiry are
    the ones held before, as are the mower list, the time stamp and the
    authentication flag; the clock was not read, and the stored error is the
    authentication message. *)
Theorem get_access_token_failure_keeps_token self w self' w' :
  _get_access_token self w = (Ok false, self', w') →
  access_token (state self') = access_token (state self) ∧
  access_token_expiration (state self') = access_token_expiration (state self) ∧
  mowers self' = mowers self ∧
  get_timestamp_last_update_mower_list self' = get_timestamp_last_update_mower_list self ∧
  __bool__ self' = __bool__ self ∧
  clock_reads w' = clock_reads w ∧
  get_http_error self' =
    Some ("Bad or unauthorized authentication request (url: " +:+
          "https://api.authentication.husqvarnagroup.dev/v1/oauth2/token" +:+ ").").
Proof.
  intros Hacq.
  apply get_access_token_failure in Hacq
    as (Herr & (_ & _ & Hmowers & Htoken & Hexpiry & Hstamp & Hauth) & Hreads & _).
  unfold get_timestamp_last_update_mower_list, __bool__, get_http_error.
  by rewrite Herr.
Qed.

(** X8. A 2xx answer to the token request whose body is falsy (an empty
    object, [null], 0, an empty list) is no token: the acquisition returns
    [False] after this one request and stores the authentication message. *)
Theorem get_access_token_rejects_falsy_document self w r v :
  next_attempt w = Resp r → 200 ≤ status_code r < 300 →
  json_body r = Some v → truthy v = false →
  ∃ self',
    _get_access_token self w =
      (Ok false, self', (send POST ApiEndpoints.TOKEN_REQUEST w).2) ∧
    access_token (state self') = access_token (state self) ∧
    are_api_limits_reached self' = false ∧
    get_http_error self' =
      Some ("Bad or unauthorized authentication request (url: " +:+
            ApiEndpoints.TOKEN_REQUEST +:+ ").").
Proof.
  intros Hnext Hstatus Hjson Hfalsy.
  unfold _get_access_token, bind at 1, _http_with_retry.
  rewrite (retry_loop_success 2 _ _ _ _ _ w r); [|done..].
  simpl. unfold response_json. rewrite Hjson, Hfalsy. simpl.
  eexists. split; [reflexivity|]. done.
Qed.

(** X9. A 2xx answer to the token request whose body is truthy but no JSON
    object (a non-empty list, a number, a string) makes
    [_get_access_token] raise the [AttributeError] of [response.get]: the
    body has then been stored as the token and the error cleared, while the
    expiry is still the old one; [__init__] raises with it. *)
Theorem get_access_token_raises_on_non_object self w r v :
  next_attempt w = Resp r → 200 ≤ status_code r < 300 →
  json_body r = Some v → truthy v = true → (∀ document, v ≠ JObj document) →
  (∃ self' w',
     _get_access_token self w = (Raise (AttributeError v "get"), self', w') ∧
     access_token (state self') = v ∧
     access_token_expiration (state self') = access_token_expiration (state self) ∧
     get_http_error self' = None ∧
     clock_reads w' = S (clock_reads w) ∧
     trace w' = trace w ++ [token_request]) ∧
  (is_ascii (client_id self) = true →
   ∃ w',
     __init__ (client_id self) (client_secret self) w =
       (Raise (AttributeError v "get"), w')).
Proof.
  intros Hnext Hstatus Hjson Htruthy Hobject.
  assert (∀ self, ∃ self' w',
     _get_access_token self w = (Raise (AttributeError v "get"), self', w') ∧
     access_token (state self') = v ∧
     access_token_expiration (state self') = access_token_expiration (state self) ∧
     get_http_error self' = None ∧
     clock_reads w' = S (clock_reads w) ∧
     trace w' = trace w ++ [token_request]) as Hraise.
  { intros s. unfold _get_access_token, bind at 1, _http_with_retry.
    rewrite (retry_loop_success 2 _ _ _ _ _ w r); [|done..].
    simpl. unfold response_json. rewrite Hjson, Htruthy.
    unfold bind, update, datetime_now, lift, ret, now. simpl.
    destruct v as [| | | | |document];
      first [ by destruct (Hobject document)
            | eexists _, _; split; [reflexivity|done] ]. }
  split; [apply Hraise|]. intros Hid. unfold __init__, _create_session. simpl.
  rewrite Hid.
  destruct (Hraise {| client_id := client_id self; client_secret := client_secret self;
                      mowers := []; state := ApiState_default |})
    as (s' & w' & -> & _).
  by exists w'.
Qed.

(** X10. [_check_access_token_and_renew] returns the authentication flag it
    leaves: [bool(client)] is its result.  It returns [False] only after a
    failed renewal, that is when the clock was past the stored expiry, and
    then the expired token and its expiry are still the stored ones. *)
Theorem check_access_token_sets_authenticated self w ok self' w' :
  _check_access_token_and_renew self w = (Ok ok, self', w') →
  __bool__ self' = ok ∧
  (ok = false →
     clock w (clock_reads w) > access_token_expiration (state self) ∧
     access_token (state self') = access_token (state self) ∧
     access_token_expiration (state self') = access_token_expiration (state self)).
Proof.
  intros Hrun. apply check_access_token_cases in Hrun.
  destruct (Z.gtb_spec (clock w (clock_reads w)) (access_token_expiration (state self)))
    as [Hpast|Hvalid].
  - destruct Hrun as (acquired & s1 & Hacq & Hrun).
    destruct acquired as [got|e]; destruct Hrun as [[= <-] ->]. split; [done|].
    intros ->.
    apply get_access_token_failure in Hacq as (_ & (_ & _ & _ & Htoken & Hexpiry & _) & _).
    split; [lia|]. done.
  - destruct Hrun as (_ & [[[= ->] ->] | (e & [=] & _)]).
    split; [done | discriminate].
Qed.

(** X11. What [__init__] builds when it returns: the credentials as given, an
    empty mower list and the time stamp 2000-01-01; when the client is
    authenticated, a JSON object as token and no error; when it is not, no
    token, the expiry 2000-01-01 and the authentication message. *)
Theorem init_outcome id secret w self w' :
  __init__ id secret w = (Ok self, w') →
  client_id self = id ∧ client_secret self = secret ∧ mowers self = [] ∧
  get_timestamp_last_update_mower_list self = datetime_2000_01_01 ∧
  (∃ rest, trace w' = trace w ++ token_request :: rest) ∧
  if __bool__ self then
    get_http_error self = None ∧ ∃ document, access_token (state self) = JObj document
  else
    access_token (state self) = JNull ∧
    access_token_expiration (state self) = datetime_2000_01_01 ∧
    get_http_error self =
      Some ("Bad or unauthorized authentication request (url: " +:+
            ApiEndpoints.TOKEN_REQUEST +:+ ").").
Proof.
  unfold __init__.
  set (self0 := {| client_id := id; client_secret := secret; mowers := [];
                   state := ApiState_default |}).
  destruct (_create_session self0); [|discriminate].
  destruct (_get_access_token self0 w) as [[[ok|e] s1] w1] eqn:Hacq; [|discriminate].
  intros [= <- <-].
  pose proof (get_access_token_first_event _ _ _ _ _ Hacq) as Hfirst.
  destruct ok.
  - pose proof (get_access_token_keeps_timestamp _ _ _ _ _ Hacq) as Hstamp.
    assert (client_id s1 = id ∧ client_secret s1 = secret) as [Hid Hsecret].
    { pose proof Hacq as Hrun.
      apply get_access_token_Ok in Hrun
        as (v & s0 & w0 & Hcall & _ & document & expires_in & _ & _ & -> & _).
      destruct (http_with_retry_outcome POST ApiEndpoints.TOKEN_REQUEST JNull self0 w)
        as (result & s0' & w0' & Hcall' & (Hid & Hsecret & _) & _).
      rewrite Hcall in Hcall'. by injection Hcall' as <- <- <-. }
    apply get_access_token_success in Hacq
      as ((r & document & ? & _ & _ & _ & _ & Htoken & _) & Herr & _ & Hmowers & _).
    simpl. repeat apply conj; try done. by exists document.
  - apply get_access_token_failure in Hacq as (Herr & Hacq' & _).
    pose proof Hacq' as (Hid & Hsecret & Hmowers & Htoken & Hexpiry & Hstamp & _).
    simpl. repeat apply conj; done.
Qed.

End TokenFurther.

(** ** The mower list *)

Section ListFurther.
Context `{PyRuntime}.


Lemma comprehension_Raise {A B} (f : A → Result B) items e :
  comprehension f items = Raise e → ∃ item, item ∈ items ∧ f item = Raise e.
Proof.
  induction items as [|item items IH]; simpl; [discriminate|].
  destruct (f item) as [entry|e'] eqn:Hitem; simpl.
  - destruct (comprehension f items) as [rest|e']; [discriminate|]. simpl.
    intros [= <-]. destruct IH as (found & Hin & Hfound); [done|].
    exists found. split; [apply elem_of_cons; by right | done].
  - intros [= <-]. exists item. split; [apply elem_of_cons; by left | done].
Qed.


Lemma py_get_Raise v key dflt e :
  py_get v key dflt = Raise e → e = AttributeError v "get".
Proof. destruct v; simpl; congruence. Qed.

Lemma mower_entry_Raise mower e :
  mower_entry mower = Raise e → ∃ v, e = AttributeError v "get".
Proof.
  unfold mower_entry.
  destruct (py_get mower "id" JNull) as [id|] eqn:Hid; simpl;
    [|intros [= <-]; apply py_get_Raise in Hid; eauto].
  destruct (py_get mower "attributes" _) as [attributes|] eqn:Hattributes; simpl;
    [|intros [= <-]; apply py_get_Raise in Hattributes; eauto].
  destruct (py_get attributes "system" _) as [system|] eqn:Hsystem; simpl;
    [|intros [= <-]; apply py_get_Raise in Hsystem; eauto].
  destruct (py_get system "name" JNull) as [name|] eqn:Hname; simpl;
    [discriminate|intros [= <-]; apply py_get_Raise in Hname; eauto].
Qed.


(** X13. An exception that escapes [_get_mowers] is the [AttributeError] of
    a [.get] on something that is no dict (the response itself, an element of
    [data], its [attributes] or [system]), or it escaped from the list
    request, with the client and the world that request left; the stored list
    is then the one held before. *)
Theorem get_mowers_request_raises self w e self' w' :
  _get_mowers self w = (Raise e, self', w') →
  ((∃ v, e = AttributeError v "get") ∨
   _http_with_retry GET ApiEndpoints.MOWERS JNull self w = (Raise e, self', w')) ∧
  mowers self' = mowers self.
Proof.
  unfold _get_mowers, bind at 1.
  destruct (http_with_retry_outcome GET ApiEndpoints.MOWERS JNull self w)
    as (result & s1 & w1 & -> & (_ & _ & Hmowers & _) & _).
  destruct result as [v|e0]; [|intros [= <- <- <-]; split; [by right | done]].
  destruct (truthy v); [|discriminate].
  destruct (py_get v "data" (JArr [])) as [data|e1] eqn:Hdata; simpl.
  - destruct (py_iter data) as [items|e2] eqn:Hiter; simpl.
    + destruct (comprehension mower_entry items) as [entries|e3] eqn:Hentries;
        [discriminate|].
      apply comprehension_Raise in Hentries as (item & _ & Hitem).
      apply mower_entry_Raise in Hitem as (bad & ->).
      intros [= <- <- <-]. split; [left; by exists bad | done].
    + destruct data; try discriminate; simpl in Hiter; injection Hiter as <-;
        discriminate.
  - destruct v; try discriminate; simpl in Hdata; injection Hdata as <-.
    all: intros [= <- <- <-]; split; [left; by eexists | done].
Qed.

(** Looking a name up in a list of mowers *)
Lemma find_by_name name (stored : list (gmap string JValue)) :
  match List.find (fun mower => py_eq_str (default JNull (mower !! "name")) name) stored with
  | Some mower =>
      mower !! "name" = Some (JStr name) ∧
      ∃ i, stored !! i = Some mower ∧
           ∀ j other, (j < i)%nat → stored !! j = Some other →
                      other !! "name" ≠ Some (JStr name)
  | None => ∀ mower, mower ∈ stored → mower !! "name" ≠ Some (JStr name)
  end.
Proof.
  induction stored as [|first stored IH]; simpl.
  - intros mower Hin. by apply elem_of_nil in Hin.
  - destruct (py_eq_str _ name) eqn:Heq.
    + split.
      * destruct (first !! "name") as [[| | |s| |]|]; try discriminate.
        simpl in Heq. apply String.eqb_eq in Heq. by subst.
      * exists 0%nat. split; [done|]. intros j other Hj. lia.
    + assert (first !! "name" ≠ Some (JStr name)) as Hfirst.
      { intros Hname. rewrite Hname in Heq. simpl in Heq.
        by rewrite String.eqb_refl in Heq. }
      destruct (List.find _ stored) as [mower|].
      * destruct IH as (Hname & i & Hi & Hbefore). split; [done|].
        exists (S i). split; [done|]. intros [|j] other Hj; simpl.
        -- by intros [= <-].
        -- apply Hbefore. lia.
      * intros mower [->|Hin]%elem_of_cons; [done | by apply IH].
Qed.

Lemma named_mower_truthy (mower : gmap string JValue) key v :
  mower !! key = Some v → truthy (JObj mower) = true.
Proof.
  intros Hkey. simpl. destruct (Nat.eqb_spec (size mower) 0) as [Hsize|]; [|done].
  apply map_size_empty_iff in Hsize. subst. by rewrite lookup_empty in Hkey.
Qed.

(** X14. [get_mower_from_name] returns the first stored mower whose [name]
    is the string asked for, and [None] exactly when no stored mower has that
    name; [_find_id_from_name] is the [id] entry of that mower, and [None]
    when there is none: a mower that was found is never an empty dict. *)
Theorem find_id_from_name_spec self name :
  match get_mower_from_name self name with
  | Some mower =>
      mower !! "name" = Some (JStr name) ∧
      (∃ i, mowers self !! i = Some mower ∧
            ∀ j other, (j < i)%nat → mowers self !! j = Some other →
                       other !! "name" ≠ Some (JStr name)) ∧
      _find_id_from_name self name = default JNull (mower !! "id")
  | None =>
      (∀ mower, mower ∈ mowers self → mower !! "name" ≠ Some (JStr name)) ∧
      _find_id_from_name self name = JNull
  end.
Proof.
  unfold _find_id_from_name.
  pose proof (find_by_name name (mowers self)) as Hfind.
  fold (get_mower_from_name self name) in Hfind.
  destruct (get_mower_from_name self name) as [mower|]; [|done].
  destruct Hfind as (Hname & Hfirst).
  by rewrite (named_mower_truthy _ _ _ Hname).
Qed.

(** X15. [is_mower_off] by name is the state of the mower
    [get_mower_from_name] finds, and [None] only for an unknown name.  When
    [are_all_mowers_off] holds, no name is reported as not off; when it does
    not hold, some stored dict is not reported as off. *)
Theorem is_mower_off_by_name self :
  (∀ name,
     is_mower_off self (inr name) = state_is_off <$> get_mower_from_name self name) ∧
  (are_all_mowers_off self = true →
   ∀ name, is_mower_off self (inr name) ≠ Some false) ∧
  (are_all_mowers_off self = false →
   ∃ mower, mower ∈ mowers self ∧ is_mower_off self (inl mower) ≠ Some true).
Proof.
  assert (∀ name,
     is_mower_off self (inr name) = state_is_off <$> get_mower_from_name self name)
    as Hname.
  { intros name. unfold is_mower_off.
    pose proof (find_by_name name (mowers self)) as Hfind.
    fold (get_mower_from_name self name) in Hfind.
    destruct (get_mower_from_name self name) as [mower|]; [|done].
    destruct Hfind as (Hfound & _).
    by rewrite (named_mower_truthy _ _ _ Hfound). }
  split; [exact Hname|]. unfold are_all_mowers_off. split.
  - intros Hall name. rewrite Hname.
    pose proof (find_by_name name (mowers self)) as Hfind.
    fold (get_mower_from_name self name) in Hfind.
    destruct (get_mower_from_name self name) as [mower|]; [|done].
    destruct Hfind as (_ & i & Hi & _).
    rewrite forallb_forall in Hall.
    apply list_elem_of_lookup_2, list_elem_of_In in Hi.
    simpl. by rewrite (Hall _ Hi).
  - intros Hnot.
    destruct (forallb state_is_off (mowers self)) eqn:Hall; [discriminate|].
    clear Hnot. induction (mowers self) as [|first stored IH]; [discriminate|].
    simpl in Hall. destruct (state_is_off first) eqn:Hfirst.
    + destruct (IH Hall) as (mower & Hin & Hoff).
      exists mower. split; [apply elem_of_cons; by right | done].
    + exists first. split; [apply elem_of_cons; by left|].
      unfold is_mower_off. destruct (truthy _); [by rewrite Hfirst | done].
Qed.

End ListFurther.

(** ** The operations *)

Section OperationsFurther.
Context `{PyRuntime}.

Ltac method_step side :=
  first
    [ solve [apply respects_ret; tc_solve]
    | solve [apply respects_lift; tc_solve]
    | solve [apply respects_get_self; tc_solve]
    | apply respects_update; [solve [side]]
    | apply respects_datetime_now; [solve [side]]
    | apply respects_http; [solve [side]]
    | apply respects_bind; [tc_solve | | intros ?]
    | apply respects_try_except; [tc_solve | | intros ?]
    | match goal with
      | |- respects _ (if ?b then _ else _) => destruct b
      | |- respects _ (match ?x with _ => _ end) => destruct x
      | |- respects _ (let _ := _ in _) => cbv zeta
      end ].

(** *** Who writes the mower list *)

#[local] Instance keeps_mowers_order : StepOrder keeps_mowers.
Proof. split; unfold keeps_mowers; [done | congruence]. Qed.

#[local] Existing Instance keeps_timestamp_order.
#[local] Existing Instance same_oracle_order.

Ltac mowers_side :=
  unfold keeps_mowers, core_frame; intros; simpl; intuition congruence.

Ltac stamp_side :=
  unfold keeps_timestamp, get_timestamp_last_update_mower_list, core_frame;
  intros; simpl; intuition congruence.

Ltac world_side :=
  unfold same_oracle, core_world; intros; simpl; intuition (try lia).

Lemma get_access_token_keeps_mowers : respects keeps_mowers _get_access_token.
Proof. unfold _get_access_token. repeat method_step mowers_side. Qed.

Lemma check_access_token_keeps_mowers :
  respects keeps_mowers _check_access_token_and_renew.
Proof.
  unfold _check_access_token_and_renew.
  repeat first [ exact get_access_token_keeps_mowers | method_step mowers_side ].
Qed.

(** X16. Only [get_mowers] and [get_mowers_info] write the mower list, and
    only [get_mowers] writes its time stamp: the token check and the
    operations that address a mower by name (messages, head light, cutting
    height, the actions) leave both as they are, however they end. *)
Theorem named_operations_keep_mowers :
  (respects keeps_mowers _check_access_token_and_renew ∧
   respects keeps_timestamp _check_access_token_and_renew) ∧
  every_named_operation
    (fun A mower_name op => respects keeps_mowers op ∧ respects keeps_timestamp op).
Proof.
  split; [split; [exact check_access_token_keeps_mowers
                 | exact check_access_token_keeps_timestamp]|].
  unfold every_named_operation, get_mower_messages, set_headlight, set_cutting_height,
    _send_action_to_mower.
  repeat apply conj; intros; cbv beta;
    (apply conj;
     [ repeat first [ exact check_access_token_keeps_mowers | method_step mowers_side ]
     | repeat first [ exact check_access_token_keeps_timestamp
                    | method_step stamp_side ] ]).
Qed.

(** *** What [get_mowers_info] does to the list *)

Lemma extends_mower_refl mower : extends_mower mower mower.
Proof. by repeat split. Qed.

Lemma extends_mower_trans a b c :
  extends_mower a b → extends_mower b c → extends_mower a c.
Proof.
  intros (Hid1 & Hname1 & Hkeys1) (Hid2 & Hname2 & Hkeys2).
  repeat split; [congruence | congruence | auto].
Qed.

Lemma extends_mowers_refl stored : Forall2 extends_mower stored stored.
Proof. induction stored; constructor; [apply extends_mower_refl | done]. Qed.

#[local] Instance extends_mowers_order : StepOrder extends_mowers.
Proof.
  split; unfold extends_mowers.
  - intros self _. apply extends_mowers_refl.
  - intros s1 _ s2 _ s3 _. apply Forall2_trans, extends_mower_trans.
Qed.

Lemma extends_mower_insert key v mower :
  key ≠ "id" → key ≠ "name" → extends_mower mower (<[key := v]> mower).
Proof.
  intros Hid Hname. repeat split.
  - by rewrite lookup_insert_ne.
  - by rewrite lookup_insert_ne.
  - intros k Hk. apply lookup_insert_is_Some.
    destruct (decide (key = k)); [by left | by right].
Qed.

Lemma extends_mowers_set_key index key v self w :
  key ≠ "id" → key ≠ "name" →
  extends_mowers self w (set_mower_key index key v self) w.
Proof.
  intros Hid Hname. unfold extends_mowers, set_mower_key. simpl.
  generalize (mowers self). intros stored. revert index.
  induction stored as [|mower stored IH]; intros [|index]; simpl;
    constructor;
    first [ apply extends_mower_refl | apply extends_mowers_refl
          | by apply extends_mower_insert | apply IH ].
Qed.

Ltac extends_side :=
  first
    [ intros; apply extends_mowers_set_key; discriminate
    | unfold extends_mowers, core_frame; intros; simpl;
      match goal with
      | |- Forall2 _ ?l ?l => apply extends_mowers_refl
      | Hm : mowers _ = mowers _ |- _ => rewrite Hm; apply extends_mowers_refl
      | H : _ ∧ _ |- _ =>
          destruct H as (_ & _ & -> & _); apply extends_mowers_refl
      end ].

Lemma check_access_token_extends : respects extends_mowers _check_access_token_and_renew.
Proof.
  intros self w r self' w' Hrun. apply check_access_token_keeps_mowers in Hrun.
  unfold extends_mowers. rewrite Hrun. apply extends_mowers_refl.
Qed.

Lemma store_mower_info_extends index mower_info :
  respects extends_mowers (store_mower_info index mower_info).
Proof. unfold store_mower_info. repeat method_step extends_side. Qed.

Lemma mower_info_loop_extends remaining index status :
  respects extends_mowers (mower_info_loop remaining index status).
Proof.
  revert index status. induction remaining as [|remaining IH]; intros index status.
  - apply respects_ret; tc_solve.
  - cbn [mower_info_loop].
    repeat first [ apply IH | apply store_mower_info_extends | method_step extends_side ].
Qed.

(** X17. [get_mowers_info] only adds to the stored mowers: however it ends,
    returning or raising, the list has the length it had, and every mower
    keeps its [id], its [name] and every key it had. *)
Theorem get_mowers_info_extends_mowers self w r self' w' :
  get_mowers_info self w = (r, self', w') →
  length (mowers self') = length (mowers self) ∧
  ∀ i mower, mowers self !! i = Some mower →
    ∃ mower', mowers self' !! i = Some mower' ∧
              mower' !! "id" = mower !! "id" ∧ mower' !! "name" = mower !! "name" ∧
              ∀ key, is_Some (mower !! key) → is_Some (mower' !! key).
Proof.
  intros Hrun.
  assert (respects extends_mowers get_mowers_info) as Hextends.
  { unfold get_mowers_info, _get_mower_detailed_info.
    repeat first [ exact check_access_token_extends | apply mower_info_loop_extends
                 | method_step extends_side ]. }
  apply Hextends in Hrun. unfold extends_mowers in Hrun. split.
  - symmetry. by eapply Forall2_length.
  - intros i mower Hi.
    destruct (Forall2_lookup_l _ _ _ _ _ Hrun Hi) as (mower' & Hi' & Hext).
    by exists mower'.
Qed.

(** *** What a successful [_get_mower_detailed_info] stores *)

Lemma bind_lift_Ok {A B} (r : Result A) (k : A → M B) self w b self' w' :
  bind (lift r) k self w = (Ok b, self', w') →
  ∃ a, r = Ok a ∧ k a self w = (Ok b, self', w').
Proof. unfold bind, lift. destruct r as [a|e]; [by exists a | discriminate]. Qed.

Lemma bind_update_Ok {B} f (k : unit → M B) self w b self' w' :
  bind (update f) k self w = (Ok b, self', w') → k tt (f self) w = (Ok b, self', w').
Proof. done. Qed.

Lemma set_mower_key_lookup index key v self mower :
  mowers self !! index = Some mower →
  mowers (set_mower_key index key v self) !! index = Some (<[key := v]> mower).
Proof.
  intros Hmower. unfold set_mower_key. simpl.
  by rewrite list_lookup_alter_eq, Hmower.
Qed.

Lemma detailed_extends mower mower' :
  extends_mower mower mower' → detailed mower → detailed mower'.
Proof.
  intros (_ & _ & Hkeys) Hdetailed. unfold detailed.
  eapply Forall_impl; [exact Hdetailed|]. intros key. apply Hkeys.
Qed.

Lemma py_eq_str_true v text : py_eq_str v text = true → v = JStr text.
Proof.
  destruct v as [| | |s| |]; try discriminate. simpl.
  by intros ->%String.eqb_eq.
Qed.

(** The outer [try] block, when no exception leaves it, has written the six
    keys of the mower at [index], and an error text only with the state
    [ERROR]. *)
Lemma store_mower_info_Ok index mower_info self w self' w' mower :
  store_mower_info index mower_info self w = (Ok tt, self', w') →
  mowers self !! index = Some mower →
  ∃ mower', mowers self' !! index = Some mower' ∧ detailed mower' ∧
            error_state_ok mower'.
Proof.
  intros Hrun Hmower. unfold store_mower_info in Hrun.
  apply bind_lift_Ok in Hrun as (data & _ & Hrun).
  apply bind_lift_Ok in Hrun as (attributes & _ & Hrun).
  apply bind_lift_Ok in Hrun as (battery_pct & _ & Hrun).
  apply bind_update_Ok in Hrun.
  apply (set_mower_key_lookup index "battery_pct" battery_pct) in Hmower.
  apply bind_lift_Ok in Hrun as (activity & _ & Hrun).
  apply bind_update_Ok in Hrun.
  apply (set_mower_key_lookup index "activity" activity) in Hmower.
  apply bind_lift_Ok in Hrun as (mower_state & _ & Hrun).
  apply bind_update_Ok in Hrun.
  apply (set_mower_key_lookup index "state" mower_state) in Hmower.
  apply bind_lift_Ok in Hrun as (positions & _ & Hrun).
  apply bind_lift_Ok in Hrun as (location & _ & Hrun).
  apply bind_update_Ok in Hrun.
  apply (set_mower_key_lookup index "location" location) in Hmower.
  apply bind_lift_Ok in Hrun as (cutting_height & _ & Hrun).
  apply bind_update_Ok in Hrun.
  apply (set_mower_key_lookup index "cutting_height" cutting_height) in Hmower.
  match type of Hmower with mowers ?s !! _ = _ => set (self5 := s) in * end.
  assert (∃ error_state,
            self' = set_mower_key index "error_state" error_state self5 ∧
            (error_state ≠ JNull → mower_state = JStr MowerState.ERROR))
    as (error_state & -> & Hstate).
  { revert Hrun. unfold try_except, bind, lift, get_self, update.
    destruct (rbind (py_get attributes "mower" (JObj ∅)) _) as [error_code|];
      [|cbv beta iota; intros [= <- <-]; eexists; split; [reflexivity | done]].
    rewrite Hmower. cbv beta iota.
    rewrite lookup_insert_ne, lookup_insert_ne, lookup_insert_eq by done.
    cbn [default from_option id].
    destruct (py_eq_str mower_state MowerState.ERROR) eqn:Herror; cbn [andb];
      [|cbv beta iota; intros [= <- <-]; eexists; split; [reflexivity | done]].
    apply py_eq_str_true in Herror.
    destruct (negb _);
      [|cbv beta iota; intros [= <- <-]; eexists; split; [reflexivity | done]].
    destruct (ErrorCodes.get_description error_code);
      cbv beta iota; intros [= <- <-]; (eexists; split; [reflexivity | done]). }
  apply (set_mower_key_lookup index "error_state" error_state) in Hmower.
  eexists. split; [exact Hmower|]. split.
  - unfold detailed, detail_keys.
    repeat constructor; rewrite !lookup_insert_is_Some';
      repeat first [ left; reflexivity | right ].
  - intros text. rewrite lookup_insert_eq. intros [= <-] Htext.
    rewrite lookup_insert_ne, lookup_insert_ne, lookup_insert_ne, lookup_insert_eq
      by done.
    by rewrite Hstate.
Qed.

#[local] Instance keeps_first_order n : StepOrder (keeps_first n).
Proof.
  split; unfold keeps_first; [done|].
  intros s1 _ s2 _ s3 _ H12 H23 i Hi. by rewrite H23, H12.
Qed.

Ltac first_side :=
  unfold keeps_first, core_frame; intros; simpl;
  first [ done
        | apply list_lookup_alter_ne; lia
        | match goal with
          | Hframe : _ ∧ _ |- _ => destruct Hframe as (_ & _ & -> & _); done
          end ].

Lemma store_mower_info_keeps_first n index mower_info :
  (n ≤ index)%nat → respects (keeps_first n) (store_mower_info index mower_info).
Proof. intros Hn. unfold store_mower_info. repeat method_step first_side. Qed.

Lemma mower_info_loop_keeps_first n remaining index status :
  (n ≤ index)%nat → respects (keeps_first n) (mower_info_loop remaining index status).
Proof.
  revert index status. induction remaining as [|remaining IH]; intros index status Hn.
  - apply respects_ret; tc_solve.
  - cbn [mower_info_loop].
    repeat first [ apply IH; lia | by apply store_mower_info_keeps_first
                 | method_step first_side ].
Qed.

Lemma mower_info_loop_success remaining index status self w self' w' :
  mower_info_loop remaining index status self w = (Ok true, self', w') →
  status = true ∧
  ∀ i mower, (index ≤ i < index + remaining)%nat → mowers self !! i = Some mower →
    truthy (default JNull (mower !! "id")) = true ∧
    truthy (default JNull (mower !! "name")) = true ∧
    ∃ mower', mowers self' !! i = Some mower' ∧ detailed mower' ∧
              error_state_ok mower'.
Proof.
  revert index status self w.
  induction remaining as [|remaining IH]; intros index status self w.
  { intros [= -> <- <-]. split; [done|]. intros i mower Hi. lia. }
  cbn [mower_info_loop]. unfold bind at 1, get_self.
  destruct (mowers self !! index) as [mower0|] eqn:Hmower0.
  2: { intros [= -> <- <-]. split; [done|]. intros i mower Hi Hmower.
       apply lookup_ge_None in Hmower0. apply lookup_lt_Some in Hmower. lia. }
  destruct (negb (truthy (default JNull (mower0 !! "id"))) ||
            negb (truthy (default JNull (mower0 !! "name")))) eqn:Hskip.
  { intros Hrun. by apply IH in Hrun as [? _]. }
  apply orb_false_elim in Hskip as [Hid%negb_false_iff Hname%negb_false_iff].
  unfold bind at 1.
  destruct (http_with_retry_outcome GET
              (ApiEndpoints.MOWERS +:+ "/" +:+ py_str (default JNull (mower0 !! "id")))
              (default JNull (mower0 !! "name")) self w)
    as (result & s1 & w1 & -> & (_ & _ & Hmowers1 & _) & _).
  destruct result as [mower_info|e]; [|discriminate].
  unfold bind at 1.
  destruct ((if truthy mower_info then lift (py_contains "data" mower_info)
             else ret false) s1 w1) as [[[has_data|e] s1'] w1'] eqn:Hdata;
    [|discriminate].
  assert (s1' = s1) as ->.
  { revert Hdata. destruct (truthy mower_info); by intros [= _ <- _]. }
  clear Hdata. destruct has_data; [|discriminate].
  unfold bind at 1, try_except.
  destruct (bind (store_mower_info index mower_info) (fun _ => ret true) s1 w1')
    as [[[stored|e] s2] w2] eqn:Hstore; [|discriminate].
  destruct stored; [|discriminate].
  assert (store_mower_info index mower_info s1 w1' = (Ok tt, s2, w2)) as Hstored.
  { revert Hstore. unfold bind, ret.
    destruct (store_mower_info index mower_info s1 w1') as [[[[]|e] s] w0];
      [by intros [= <- <-] | discriminate]. }
  clear Hstore. intros Hrest.
  pose proof (store_mower_info_extends _ _ _ _ _ _ _ Hstored) as Hext2.
  pose proof (mower_info_loop_keeps_first (S index) remaining (S index) status
                (Nat.le_refl _) _ _ _ _ _ Hrest) as Hkept.
  unfold extends_mowers in Hext2. unfold keeps_first in Hkept.
  rewrite Hmowers1 in Hext2.
  apply IH in Hrest as (-> & Hrest). split; [done|].
  intros i mower Hi Hmower.
  destruct (Forall2_lookup_l _ _ _ _ _ Hext2 Hmower) as (mower2 & Hmower2 & Hext).
  destruct (decide (i = index)) as [->|Hne].
  - rewrite Hmower in Hmower0. injection Hmower0 as <-.
    split; [done|]. split; [done|].
    rewrite <- Hmowers1 in Hmower.
    destruct (store_mower_info_Ok _ _ _ _ _ _ _ Hstored Hmower)
      as (stored & Hstored2 & Hdetailed).
    exists stored. split; [|done]. rewrite Hkept by lia. done.
  - destruct Hext as (Hid2 & Hname2 & _).
    rewrite <- Hid2, <- Hname2. apply Hrest; [lia | done].
Qed.

(** X18. When [_get_mower_detailed_info] returns [True], every stored mower
    had a truthy [id] and [name], and every stored mower now carries the six
    keys [battery_pct], [activity], [state], [location], [cutting_height] and
    [error_state], with an error text only if its stored state is [ERROR]. *)
Theorem get_mower_detailed_info_success self w self' w' :
  _get_mower_detailed_info self w = (Ok true, self', w') →
  ∀ i mower, mowers self !! i = Some mower →
    truthy (default JNull (mower !! "id")) = true ∧
    truthy (default JNull (mower !! "name")) = true ∧
    ∃ mower', mowers self' !! i = Some mower' ∧ detailed mower' ∧
              error_state_ok mower'.
Proof.
  unfold _get_mower_detailed_info, bind, get_self. intros Hrun i mower Hmower.
  apply mower_info_loop_success in Hrun as (_ & Hrun).
  apply (Hrun i mower); [|done].
  apply lookup_lt_Some in Hmower. lia.
Qed.

(** *** Operations on a named mower *)

Lemma after_check_constant {A} (k : bool → M A) (failure : A) self w :
  (∀ ok s1 w1, mowers s1 = mowers self → k ok s1 w1 = ret failure s1 w1) →
  bind _check_access_token_and_renew k self w =
    (_check_access_token_and_renew ;;; ret failure)%method self w.
Proof.
  intros Hk. unfold bind.
  destruct (_check_access_token_and_renew self w) as [[[ok|e] s1] w1] eqn:Hcheck;
    [|done].
  apply Hk. by apply check_access_token_keeps_mowers in Hcheck.
Qed.

(** X21. For a name no stored mower has, an operation that addresses a
    mower by name is the token check alone: it returns [None] or [False]
    once the check has returned, and sends no request of its own. *)
Theorem unknown_mower_only_checks_token mower_name self w :
  truthy (_find_id_from_name self mower_name) = false →
  get_mower_messages mower_name self w =
    (_check_access_token_and_renew ;;; ret JNull)%method self w ∧
  (∀ light,
     set_headlight mower_name light self w =
       (_check_access_token_and_renew ;;; ret false)%method self w) ∧
  (∀ height,
     set_cutting_height mower_name height self w =
       (_check_access_token_and_renew ;;; ret false)%method self w) ∧
  (∀ action duration,
     _send_action_to_mower mower_name action duration self w =
       (_check_access_token_and_renew ;;; ret false)%method self w).
Proof.
  intros Hunknown.
  unfold get_mower_messages, set_headlight, set_cutting_height, _send_action_to_mower.
  repeat apply conj; intros;
    try replace (known_action action) with true by (by destruct action);
    cbn [negb]; apply after_check_constant; intros ok s1 w1 Hmowers;
    (destruct ok; [|done]); cbn [negb]; unfold bind, get_self;
    replace (_find_id_from_name s1 mower_name) with (_find_id_from_name self mower_name)
      by (unfold _find_id_from_name, get_mower_from_name; by rewrite Hmowers);
    by rewrite Hunknown.
Qed.

Lemma http_with_retry_trace method url mower_name self w :
  ∃ attempts,
    (1 ≤ attempts ≤ 3)%nat ∧
    requests_made (_http_with_retry method url mower_name self w).2 =
      (requests_made w + attempts)%nat ∧
    trace (_http_with_retry method url mower_name self w).2 =
      trace w ++ core_trace method url attempts.
Proof.
  rewrite http_with_retry_world.
  destruct (retry_loop_trace method url mower_name (set_error (Some EmptyString) self) w)
    as (ended & l' & self' & w' & attempts & -> & Hn & Hrequests & Htr).
  by exists attempts.
Qed.

(** A body other than [None] comes with the error cleared and the flag
    down. *)
Lemma http_with_retry_body method url mower_name self w v self' w' :
  _http_with_retry method url mower_name self w = (Ok v, self', w') → v ≠ JNull →
  error (state self') = None ∧ api_limit_reached (state self') = false ∧
  ∃ r, last_answer w' = Resp r ∧ 200 ≤ status_code r < 300 ∧ json_body r = Some v.
Proof.
  intros Hrun Hbody.
  destruct (http_with_retry_outcome method url mower_name self w)
    as (result & s1 & w1 & Hcall & _ & _ & _ & _ & Hout).
  rewrite Hrun in Hcall. injection Hcall as <- <- <-.
  destruct Hout as [(r & Hlast & Hstatus & Hjson & Herr & Hflag) | (-> & _)]; [|done].
  split; [done|]. split; [done|]. by exists r.
Qed.

Lemma check_access_token_flag self w ok self' w' :
  _check_access_token_and_renew self w = (Ok ok, self', w') →
  authenticated (state self') = ok.
Proof.
  unfold _check_access_token_and_renew, bind at 1, datetime_now, bind at 1, get_self.
  destruct (now w) as [t w0]. destruct (_ >? _).
  - unfold bind at 1.
    destruct (_get_access_token self _) as [[[got|e] s2] w2]; [|discriminate].
    by intros [= <- <- <-].
  - unfold bind, update, lift, ret.
    destruct (truthy _).
    + destruct (py_get _ "token_type" _); [|discriminate].
      destruct (py_get _ "access_token" _); [|discriminate].
      destruct (py_slice _); [|discriminate].
      by intros [= <- <- <-].
    + by intros [= <- <- <-].
Qed.

(** X22. [_send_action_to_mower] returns [True] only when the name is the
    name of a stored mower with a truthy [id] and the call ended with one to
    three requests to that mower's [actions] URL, the last of which was
    answered by a 2xx response with a truthy JSON body; the client is then
    authenticated, its error is cleared and its rate-limit flag is down. *)
Theorem send_action_success mower_name action duration self w self' w' :
  _send_action_to_mower mower_name action duration self w = (Ok true, self', w') →
  truthy (_find_id_from_name self mower_name) = true ∧
  (∃ earlier attempts,
     (1 ≤ attempts ≤ 3)%nat ∧ (requests_made w + attempts ≤ requests_made w')%nat ∧
     trace w' = earlier ++
       core_trace POST
         (ApiEndpoints.MOWERS +:+ "/" +:+ py_str (_find_id_from_name self mower_name) +:+
          "/actions") attempts) ∧
  (∃ r body, responses w (Nat.pred (requests_made w')) = Resp r ∧
             200 ≤ status_code r < 300 ∧
             json_body r = Some body ∧ truthy body = true) ∧
  __bool__ self' = true ∧ get_http_error self' = None ∧
  are_api_limits_reached self' = false ∧ mowers self' = mowers self.
Proof.
  unfold _send_action_to_mower.
  replace (known_action action) with true by (by destruct action). cbn [negb].
  unfold bind at 1.
  destruct (_check_access_token_and_renew self w) as [[[ok|e] s1] w1] eqn:Hcheck;
    [|discriminate].
  pose proof (check_access_token_flag _ _ _ _ _ Hcheck) as Hauth.
  pose proof (check_access_token_oracle _ _ _ _ _ Hcheck) as (Hresponses & _ & Hsent1 & _).
  apply check_access_token_keeps_mowers in Hcheck. unfold keeps_mowers in Hcheck.
  destruct ok; [|discriminate]. cbn [negb]. unfold bind at 1, get_self.
  replace (_find_id_from_name s1 mower_name) with (_find_id_from_name self mower_name)
    by (unfold _find_id_from_name, get_mower_from_name; by rewrite Hcheck).
  destruct (truthy (_find_id_from_name self mower_name)) eqn:Hknown; [|discriminate].
  cbn [negb]. unfold bind, ret.
  set (url := ApiEndpoints.MOWERS +:+ "/" +:+ _ +:+ "/actions").
  destruct (http_with_retry_trace POST url (JStr mower_name) s1 w1)
    as (attempts & Hattempts & Hrequests & Htrace).
  destruct (http_with_retry_outcome POST url (JStr mower_name) s1 w1)
    as (result & s2 & w2 & Hrun & (_ & _ & Hmowers & _ & _ & _ & Hauth2) &
        (Hresponses2 & _) & _ & _ & Hout).
  rewrite Hrun in Htrace, Hrequests |- *. simpl in Htrace, Hrequests.
  destruct result as [body|e]; [|discriminate].
  intros [= Htruthy <- <-]. split; [done|].
  split; [exists (trace w1), attempts; repeat apply conj; try done; lia|].
  destruct Hout as [(r & Hr & Hstatus & Hjson & Herr & Hflag) | (-> & _)];
    [|discriminate].
  unfold last_answer in Hr. rewrite Hresponses2, Hresponses in Hr.
  split; [by exists r, body|].
  unfold __bool__, get_http_error, are_api_limits_reached.
  repeat apply conj; congruence.
Qed.

(** *** Listing the mowers *)

Lemma check_access_token_reads_clock self w r self' w' :
  _check_access_token_and_renew self w = (r, self', w') →
  (clock_reads w < clock_reads w')%nat.
Proof.
  unfold _check_access_token_and_renew, bind at 1, datetime_now.
  destruct (now w) as [t w0] eqn:Hnow. injection Hnow as <- <-.
  intros Hk.
  match type of Hk with
  | ?m _ _ = _ => assert (respects same_oracle m) as Hm
  end.
  { repeat first [ exact get_access_token_oracle | method_step world_side ]. }
  apply Hm in Hk as (_ & _ & _ & Hreads). simpl in Hreads. lia.
Qed.

(** X23. When [get_mowers] returns [True], the time stamp of the mower list
    is the last clock reading of the call, taken after the list was stored
    (the call read the clock at least twice); the client is authenticated,
    the error is cleared and the rate-limit flag is down. *)
Theorem get_mowers_success self w self' w' :
  get_mowers self w = (Ok true, self', w') →
  (clock_reads w + 2 ≤ clock_reads w')%nat ∧
  get_timestamp_last_update_mower_list self' = clock w (clock_reads w' - 1) ∧
  __bool__ self' = true ∧ get_http_error self' = None ∧
  are_api_limits_reached self' = false.
Proof.
  unfold get_mowers, bind at 1.
  destruct (_check_access_token_and_renew self w) as [[[ok|e] s1] w1] eqn:Hcheck;
    [|discriminate].
  destruct ok; [|discriminate].
  pose proof (check_access_token_flag _ _ _ _ _ Hcheck) as Hauth.
  pose proof (check_access_token_reads_clock _ _ _ _ _ Hcheck) as Hreads1.
  apply check_access_token_oracle in Hcheck as (_ & Hclock1 & _).
  unfold bind at 1.
  destruct (_get_mowers s1 w1) as [[[got|e] s2] w2] eqn:Hlist; [|discriminate].
  destruct got; [|discriminate].
  pose proof (get_mowers_request_oracle _ _ _ _ _ Hlist) as (_ & Hclock2 & _ & Hreads2).
  intros [= <- <-]. simpl.
  rewrite Nat.sub_0_r. split; [lia|].
  split; [unfold get_timestamp_last_update_mower_list; simpl; congruence|].
  revert Hlist. unfold _get_mowers, bind at 1.
  destruct (http_with_retry_outcome GET ApiEndpoints.MOWERS JNull s1 w1)
    as (result & s3 & w3 & -> & (_ & _ & _ & _ & _ & _ & Hauth3) & _ & _ & _ & Hout).
  destruct result as [v|e]; [|discriminate].
  destruct (truthy v) eqn:Htruthy; [|discriminate].
  destruct Hout as [(r & _ & _ & _ & Herr & Hflag) | (-> & _)]; [|discriminate].
  destruct (rbind _ _) as [entries|e]; [|destruct e; discriminate].
  intros [= <- <-].
  unfold __bool__, get_http_error, are_api_limits_reached. simpl.
  repeat apply conj; congruence.
Qed.

(** *** A token that was acquired is accepted *)

Lemma get_access_token_document self w self' w' :
  _get_access_token self w = (Ok true, self', w') →
  ∃ document,
    access_token (state self') = JObj document ∧
    py_slice (default (JStr "N/A") (document !! "access_token")) = Ok tt.
Proof.
  intros Hrun.
  apply get_access_token_Ok in Hrun
    as (v & s1 & w1 & _ & _ & document & expires_in & -> & _ & -> & _ & _ & _ & Hslice).
  by exists document.
Qed.

(** X24. A token that [_get_access_token] has just stored is accepted by
    the next check that reads the clock at or before the stored expiry: the
    check returns [True] without raising, sends nothing, and changes nothing
    but the authentication flag. *)
Theorem acquired_token_passes_check self w self' w' w2 :
  _get_access_token self w = (Ok true, self', w') →
  clock w2 (clock_reads w2) ≤ access_token_expiration (state self') →
  _check_access_token_and_renew self' w2 =
    (Ok true, set_authenticated true self', (now w2).2).
Proof.
  intros Hacq Hvalid.
  apply get_access_token_document in Hacq as (document & Htoken & Hslice).
  unfold _check_access_token_and_renew, bind at 1, datetime_now, bind at 1, get_self.
  destruct (now w2) as [t w3] eqn:Hnow. injection Hnow as <- <-.
  destruct (Z.gtb_spec (clock w2 (clock_reads w2)) (access_token_expiration (state self')))
    as [Hpast|_]; [lia|].
  rewrite Htoken. unfold bind, update, lift, ret.
  destruct (truthy (JObj document)); [|done].
  cbn [py_get]. cbv beta iota. by rewrite Hslice.
Qed.

(** *** The requests an operation can send *)

Lemma within_weaken {A} n n' (m : M A) : (n ≤ n')%nat → within n m → within n' m.
Proof. intros Hn Hm self w r self' w' Hrun. apply Hm in Hrun. lia. Qed.

Lemma within_ret {A} n (a : A) : within n (ret a).
Proof. intros self w r self' w' [= <- <- <-]. lia. Qed.

Lemma within_lift {A} n (x : Result A) : within n (lift x).
Proof. intros self w r self' w' [= <- <- <-]. lia. Qed.

Lemma within_update n f : within n (update f).
Proof. intros self w r self' w' [= <- <- <-]. lia. Qed.

Lemma within_get_self n : within n get_self.
Proof. intros self w r self' w' [= <- <- <-]. lia. Qed.

Lemma within_datetime_now n : within n datetime_now.
Proof. intros self w r self' w' [= <- <- <-]. simpl. lia. Qed.

Lemma within_http n method url mower_name :
  (3 ≤ n)%nat → within n (_http_with_retry method url mower_name).
Proof.
  intros Hn self w r self' w' Hrun.
  destruct (http_with_retry_outcome method url mower_name self w)
    as (result & s1 & w1 & Hcall & _ & _ & Hsent & _).
  rewrite Hrun in Hcall. injection Hcall as <- <- <-. lia.
Qed.

Lemma within_bind {A B} n1 n2 (m : M A) (k : A → M B) :
  within n1 m → (∀ a, within n2 (k a)) → within (n1 + n2) (bind m k).
Proof.
  intros Hm Hk self w r self' w'. unfold bind.
  destruct (m self w) as [[[a|e] s1] w1] eqn:Em; apply Hm in Em.
  - intros Hrest. apply Hk in Hrest. lia.
  - intros [= <- <- <-]. lia.
Qed.

Lemma within_try_except {A} n1 n2 (m : M A) (handler : PyExn → M A) :
  within n1 m → (∀ e, within n2 (handler e)) → within (n1 + n2) (try_except m handler).
Proof.
  intros Hm Hh self w r self' w'. unfold try_except.
  destruct (m self w) as [[[a|e] s1] w1] eqn:Em; apply Hm in Em.
  - intros [= <- <- <-]. lia.
  - intros Hrest. apply Hh in Hrest. lia.
Qed.

Ltac within_step :=
  first
    [ solve [apply within_ret]
    | solve [apply within_lift]
    | solve [apply within_update]
    | solve [apply within_get_self]
    | solve [apply within_datetime_now]
    | solve [apply within_http; lia]
    | match goal with
      | |- within _ (bind (_http_with_retry _ _ _) _) =>
          apply (within_bind 3); [apply within_http; lia | intros ?]
      | |- within _ (bind _ _) => apply (within_bind 0); [|intros ?]
      | |- within _ (try_except _ _) => apply (within_try_except 0); [|intros ?]
      | |- within _ (if ?b then _ else _) => destruct b
      | |- within _ (match ?x with _ => _ end) => destruct x
      | |- within _ (let _ := _ in _) => cbv zeta
      end ].

Lemma get_access_token_within : within 3 _get_access_token.
Proof. unfold _get_access_token. repeat within_step. Qed.

Lemma check_access_token_within : within 3 _check_access_token_and_renew.
Proof.
  unfold _check_access_token_and_renew.
  apply (within_bind 0); [apply within_datetime_now|]. intros t.
  apply (within_bind 0); [apply within_get_self|]. intros self.
  destruct (_ >? _).
  - apply (within_bind 3 0); [exact get_access_token_within|]. intros ok.
    repeat within_step.
  - repeat within_step.
Qed.

Lemma store_mower_info_within index mower_info :
  within 0 (store_mower_info index mower_info).
Proof. unfold store_mower_info. repeat within_step. Qed.

Lemma mower_info_loop_within remaining index status :
  within (3 * remaining) (mower_info_loop remaining index status).
Proof.
  revert index status. induction remaining as [|remaining IH]; intros index status.
  { apply within_ret. }
  apply (within_weaken (3 + 3 * remaining)); [lia|].
  cbn [mower_info_loop].
  apply (within_bind 0); [apply within_get_self|]. intros self.
  destruct (mowers self !! index) as [mower|]; [|apply within_ret].
  cbv zeta. destruct (_ || _).
  { apply (within_weaken (3 * remaining)); [lia | apply IH]. }
  apply (within_bind 3); [apply within_http; lia|]. intros mower_info.
  apply (within_bind 0); [destruct (truthy mower_info); within_step|].
  intros [|]; [|apply within_ret].
  apply (within_bind 0).
  - apply (within_try_except 0); [|intros e; apply within_ret].
    apply (within_bind 0); [apply store_mower_info_within|]. intros _.
    apply within_ret.
  - intros [|]; [apply IH | apply within_ret].
Qed.

(** X25. The requests an operation can send are bounded: the token check
    sends at most 3, [get_mowers] and every operation on a named mower at
    most 6 (a token renewal and the request itself, three attempts each),
    and [get_mowers_info] at most 3 and 3 more for each stored mower. *)
Theorem operations_request_budget :
  within 3 _check_access_token_and_renew ∧
  within 6 get_mowers ∧
  every_named_operation (fun A mower_name op => within 6 op) ∧
  ∀ self w r self' w',
    get_mowers_info self w = (r, self', w') →
    (requests_made w' ≤ requests_made w + 3 + 3 * length (mowers self))%nat.
Proof.
  split; [exact check_access_token_within|].
  split.
  { unfold get_mowers.
    apply (within_bind 3 3); [exact check_access_token_within|]. intros ok.
    destruct ok; [|apply within_ret].
    apply (within_bind 3 0); [unfold _get_mowers; repeat within_step|]. intros got.
    repeat within_step. }
  split.
  { unfold every_named_operation, get_mower_messages, set_headlight, set_cutting_height,
      _send_action_to_mower.
    repeat apply conj; cbv beta; intros;
      try replace (known_action action) with true by (by destruct action);
      cbn [negb];
      (apply (within_bind 3 3); [exact check_access_token_within|]); intros ok;
      repeat within_step. }
  intros self w r self' w'. unfold get_mowers_info, bind at 1.
  destruct (_check_access_token_and_renew self w) as [[[ok|e] s1] w1] eqn:Hcheck.
  - pose proof (check_access_token_within _ _ _ _ _ Hcheck) as Hcost.
    apply check_access_token_keeps_mowers in Hcheck. unfold keeps_mowers in Hcheck.
    destruct ok; [|intros [= <- <- <-]; lia].
    unfold _get_mower_detailed_info, bind, get_self. intros Hloop.
    apply mower_info_loop_within in Hloop. rewrite Hcheck in Hloop. lia.
  - pose proof (check_access_token_within _ _ _ _ _ Hcheck) as Hcost.
    intros [= <- <- <-]. lia.
Qed.

(** *** All or nothing *)

Lemma get_mowers_request_keeps_list self w r self' w' :
  _get_mowers self w = (r, self', w') → r ≠ Ok true → mowers self' = mowers self.
Proof.
  unfold _get_mowers, bind at 1.
  destruct (http_with_retry_outcome GET ApiEndpoints.MOWERS JNull self w)
    as (result & s1 & w1 & -> & (_ & _ & Hmowers & _) & _).
  destruct result as [v|e0]; [|by intros [= <- <- <-]].
  destruct (truthy v); [|by intros [= <- <- <-]].
  destruct (rbind _ _) as [entries|e].
  - intros [= <- <- <-]. done.
  - destruct e; intros [= <- <- <-]; done.
Qed.

(** X26. [get_mowers] is all or nothing: unless it returns [True] (so also
    when it raises), the mower list and its time stamp are the ones stored
    before. *)
Theorem get_mowers_all_or_nothing self w r self' w' :
  get_mowers self w = (r, self', w') → r ≠ Ok true →
  mowers self' = mowers self ∧
  get_timestamp_last_update_mower_list self' = get_timestamp_last_update_mower_list self.
Proof.
  unfold get_mowers, bind at 1.
  destruct (_check_access_token_and_renew self w) as [[[ok|e] s1] w1] eqn:Hcheck.
  2: { intros [= <- <- <-] _.
       split; [by apply check_access_token_keeps_mowers in Hcheck
              | by apply check_access_token_keeps_timestamp in Hcheck]. }
  pose proof (check_access_token_keeps_mowers _ _ _ _ _ Hcheck) as Hmowers1.
  apply check_access_token_keeps_timestamp in Hcheck as Hstamp1.
  unfold keeps_mowers in Hmowers1. unfold keeps_timestamp in Hstamp1.
  destruct ok; [|by intros [= <- <- <-] _].
  unfold bind at 1.
  destruct (_get_mowers s1 w1) as [[got s2] w2] eqn:Hlist.
  pose proof (get_mowers_request_keeps_timestamp _ _ _ _ _ Hlist) as Hstamp2.
  unfold keeps_timestamp in Hstamp2.
  destruct got as [[|]|e].
  - intros [= <- <- <-] Hr. done.
  - apply get_mowers_request_keeps_list in Hlist; [|done].
    intros [= <- <- <-] _. split; congruence.
  - apply get_mowers_request_keeps_list in Hlist; [|done].
    intros [= <- <- <-] _. split; congruence.
Qed.

(** *** Well-formed token documents *)

Lemma timedelta_seconds_in_range z :
  0 ≤ z ≤ 1000000000 → timedelta_seconds (JNum z) = Ok (z * microseconds_per_second).
Proof.
  intros Hz. unfold timedelta_seconds.
  replace (_ && _) with true; [done|]. symmetry. apply andb_true_intro.
  split; [apply Z.leb_le | apply Z.ltb_lt]; unfold timedelta_max_days; lia.
Qed.

Lemma datetime_add_in_range d td :
  datetime_min ≤ d + td ≤ datetime_max → datetime_add d td = Ok (d + td).
Proof.
  intros Hsum. unfold datetime_add.
  replace (_ && _) with true; [done|]. symmetry. apply andb_true_intro.
  split; apply Z.leb_le; lia.
Qed.

Lemma is_ascii_app a b : is_ascii (a +:+ b) = is_ascii a && is_ascii b.
Proof.
  induction a as [|c a IH]; [done|].
  rewrite append_cons. unfold is_ascii in *. simpl. by rewrite IH, andb_assoc.
Qed.

Lemma ascii_field_text document key dflt :
  ascii_field document key → is_ascii dflt = true →
  ∃ text, default (JStr dflt) (document !! key) = JStr text ∧ is_ascii text = true.
Proof.
  unfold ascii_field. intros Hfield Hdflt.
  destruct (document !! key) as [[| | |text| |]|]; try done; simpl; eauto.
Qed.

(** With readable answers and such a clock the acquisition returns. *)
Lemma get_access_token_returns self w :
  clock_ok w → is_ascii (client_id self) = true → token_answers_ok w →
  ∃ ok self' w',
    _get_access_token self w = (Ok ok, self', w') ∧
    client_id self' = client_id self ∧
    if ok then token_document_ok (access_token (state self'))
    else access_token (state self') = access_token (state self).
Proof.
  intros Hclock Hid Hanswers. unfold _get_access_token, bind at 1.
  destruct (http_with_retry_outcome POST ApiEndpoints.TOKEN_REQUEST JNull self w)
    as (result & s1 & w1 & -> & (Hid1 & _ & _ & Htoken & _) &
        (Hresponses & Hclock1 & _) & Hsent & _ & Hout).
  assert (∀ r, last_answer w1 = Resp r →
            if (200 <=? status_code r) && (status_code r <? 300)
            then ∃ v, json_body r = Some v ∧ (truthy v = true → token_document_ok v)
            else ∃ msg, analyze_body r ApiEndpoints.TOKEN_REQUEST JNull = Ok msg)
    as Hlast.
  { intros r Hr. unfold last_answer in Hr. rewrite Hresponses in Hr.
    apply (Hanswers (Nat.pred (requests_made w1))); [lia | done]. }
  destruct result as [v|e].
  2: { destruct Hout as (_ & r & Hr & Hbad). apply Hlast in Hr.
       destruct (_ && _).
       - destruct Hr as (v & Hjson & _). destruct Hbad as [Hnone _]. congruence.
       - destruct Hr as (msg & Hmsg). destruct Hbad as (e' & He'). congruence. }
  destruct (truthy v) eqn:Htruthy.
  2: { exists false. eexists _, _. split; [reflexivity|]. done. }
  destruct Hout as [(r & Hr & Hstatus & Hjson & _) | (-> & _)]; [|discriminate].
  apply Hlast in Hr.
  assert (((200 <=? status_code r) && (status_code r <? 300)) = true) as H2xx
    by (apply andb_true_iff; lia).
  rewrite H2xx in Hr. destruct Hr as (v' & Hjson' & Hdocument).
  rewrite Hjson in Hjson'. injection Hjson' as <-.
  destruct (Hdocument Htruthy)
    as (document & expires_in & -> & Hexpires & Hrange & Hsecret & Hkind & Hprovider).
  destruct (ascii_field_text document "token_type" EmptyString Hkind eq_refl)
    as (kind & Hkind' & Hkind_ascii).
  destruct (ascii_field_text document "access_token" EmptyString Hsecret eq_refl)
    as (secret & Hsecret' & Hsecret_ascii).
  destruct (ascii_field_text document "access_token" "N/A" Hsecret eq_refl)
    as (shown & Hshown & _).
  destruct (ascii_field_text document "provider" EmptyString Hprovider eq_refl)
    as (provider & Hprovider' & Hprovider_ascii).
  unfold bind, update, datetime_now, lift, ret, now, get_self. cbn [py_get].
  rewrite Hexpires, Hkind', Hsecret', Hshown, Hprovider'. unfold rbind.
  rewrite (timedelta_seconds_in_range expires_in Hrange).
  pose proof (Hclock (clock_reads w1)) as Hfirst.
  pose proof (Hclock (S (clock_reads w1))) as Hsecond.
  rewrite <- Hclock1 in Hfirst, Hsecond.
  unfold microseconds_per_day, microseconds_per_second in *.
  cbn [clock clock_reads fst snd client_id set_access_token_expiration set_error
       set_access_token with_state].
  rewrite datetime_add_in_range
    by (unfold datetime_min, datetime_max, microseconds_per_day,
          microseconds_per_second; lia).
  change (timedelta_seconds (JNum ApiConfig.TOKEN_REFRESH_MARGIN))
    with (Ok 600000000 : Result Z).
  rewrite datetime_add_in_range
    by (unfold datetime_min, datetime_max, microseconds_per_day,
          microseconds_per_second; lia).
  cbn [header_value py_str]. rewrite Hid1, Hid, !is_ascii_app, Hkind_ascii, Hsecret_ascii,
    Hprovider_ascii. cbn [andb is_ascii forallb String.list_ascii_of_string].
  rewrite datetime_add_in_range
    by (unfold datetime_min, datetime_max, microseconds_per_day,
          microseconds_per_second; lia).
  exists true. eexists _, _. split; [reflexivity|]. split; [done|].
  exists document, expires_in. done.
Qed.

(** X27. No exception from readable answers.  If the clock shows dates
    between 2000 and 2999, the client id is an ASCII text, the stored token
    is [None] or a token document the client can process, and the responses
    to the next three requests can be read (a 2xx body decodes and, when
    truthy, is such a document; a 4xx or 5xx body is one the analysis builds
    a message from), then the token check returns, and the stored token is
    again [None] or such a document. *)
Theorem readable_answers_never_raise self w :
  clock_ok w → is_ascii (client_id self) = true → stored_token_ok self →
  token_answers_ok w →
  ∃ ok self' w',
    _check_access_token_and_renew self w = (Ok ok, self', w') ∧
    is_ascii (client_id self') = true ∧ stored_token_ok self'.
Proof.
  intros Hclock Hid Hstored Hanswers.
  unfold _check_access_token_and_renew, bind at 1, datetime_now, bind at 1, get_self.
  destruct (now w) as [t w0] eqn:Hnow. injection Hnow as <- <-.
  destruct (_ >? _).
  - unfold bind at 1.
    destruct (get_access_token_returns self
                {| responses := responses w; clock := clock w;
                   requests_made := requests_made w; clock_reads := S (clock_reads w);
                   trace := trace w |})
      as (ok & s1 & w1 & -> & Hid1 & Htoken); [done | done | done |].
    exists ok. eexists _, _. split; [reflexivity|].
    unfold stored_token_ok in *. simpl. rewrite Hid1. split; [done|].
    destruct ok; [by right | by rewrite Htoken].
  - unfold bind, update, lift, ret.
    destruct Hstored
      as [Hnone | (document & expires_in & Hdoc & Hexpires & Hrange & Hsecret & Hrest)].
    + rewrite Hnone. simpl. exists true. eexists _, _. split; [reflexivity|].
      split; [done | by left].
    + destruct (ascii_field_text document "access_token" "N/A" Hsecret eq_refl)
        as (shown & Hshown & _).
      rewrite Hdoc. destruct (truthy (JObj document)).
      * cbn [py_get]. rewrite Hshown. simpl.
        exists true. eexists _, _. split; [reflexivity|]. split; [done|].
        right. unfold token_document_ok. simpl. rewrite Hdoc.
        by exists document, expires_in.
      * exists true. eexists _, _. split; [reflexivity|]. split; [done|].
        right. unfold token_document_ok. simpl. rewrite Hdoc.
        by exists document, expires_in.
Qed.

(** *** When the token is asked for again *)

Lemma check_access_token_failure self w self' w' :
  _check_access_token_and_renew self w = (Ok false, self', w') →
  clock w (clock_reads w) > access_token_expiration (state self) ∧
  access_token_expiration (state self') = access_token_expiration (state self).
Proof.
  unfold _check_access_token_and_renew, bind at 1, datetime_now, bind at 1, get_self.
  destruct (now w) as [t w0] eqn:Hnow. injection Hnow as <- <-.
  destruct (Z.gtb_spec (clock w (clock_reads w)) (access_token_expiration (state self)))
    as [Hpast|Hvalid].
  - unfold bind at 1.
    destruct (_get_access_token self _) as [[[got|e] s2] w2] eqn:Hacq; [|discriminate].
    destruct got; [discriminate|]. intros [= <- <-].
    apply get_access_token_failure in Hacq as (_ & (_ & _ & _ & _ & Hexpiry & _) & _).
    split; [lia | done].
  - unfold bind, update, lift, ret.
    destruct (truthy _).
    + destruct (py_get _ "token_type" _); [|discriminate].
      destruct (py_get _ "access_token" _); [|discriminate].
      destruct (py_slice _); discriminate.
    + discriminate.
Qed.

(** X28. A failed renewal is tried again.  After a token check that
    returned [False], the next check, as long as the clock has not gone
    back, starts by asking for a token. *)
Theorem failed_check_is_retried self w self' w' later r self'' w'' :
  _check_access_token_and_renew self w = (Ok false, self', w') →
  clock w (clock_reads w) ≤ clock later (clock_reads later) →
  _check_access_token_and_renew self' later = (r, self'', w'') →
  __bool__ self' = false ∧
  ∃ rest, trace w'' = trace later ++ token_request :: rest.
Proof.
  intros Hfailed Hclock Hnext.
  pose proof (check_access_token_flag _ _ _ _ _ Hfailed) as Hflag.
  apply check_access_token_failure in Hfailed as (Hpast & Hexpiry).
  split; [exact Hflag|].
  apply check_access_token_policy in Hnext.
  destruct (Z.gtb_spec (clock later (clock_reads later))
              (access_token_expiration (state self'))) as [_|Hvalid]; [exact Hnext | lia].
Qed.

(** X29. A token that lives less than the margin is never reused.  When the
    document stored by a successful acquisition has an [expires_in] below
    600 seconds, the stored expiry is before the acquisition, and every
    later check, as long as the clock has not gone back, starts by asking
    for a token. *)
Theorem short_lived_token_is_never_reused self w self' w' later r self'' w'' :
  _get_access_token self w = (Ok true, self', w') →
  (∀ document, access_token (state self') = JObj document →
     ∃ expires_in,
       seconds_of (default (JNum 0) (document !! "expires_in")) = Some expires_in ∧
       expires_in < 600) →
  clock w (clock_reads w) ≤ clock later (clock_reads later) →
  _check_access_token_and_renew self' later = (r, self'', w'') →
  access_token_expiration (state self') < clock w (clock_reads w) ∧
  ∃ rest, trace w'' = trace later ++ token_request :: rest.
Proof.
  intros Hacquired Hshort Hclock Hnext.
  apply get_access_token_success
    in Hacquired
    as ((r0 & document & expires_in & _ & _ & _ & _ & Htoken & Hseconds & Hexpiry) & _).
  destruct (Hshort document Htoken) as (short & Hshort' & Hlt).
  rewrite Hseconds in Hshort'. injection Hshort' as <-.
  assert (access_token_expiration (state self') < clock w (clock_reads w)) as Hbefore.
  { rewrite Hexpiry. unfold ApiConfig.TOKEN_REFRESH_MARGIN, microseconds_per_second. lia. }
  split; [exact Hbefore|].
  apply check_access_token_policy in Hnext.
  destruct (Z.gtb_spec (clock later (clock_reads later))
              (access_token_expiration (state self'))) as [_|Hvalid]; [exact Hnext | lia].
Qed.

(** *** The last error *)

#[local] Instance error_follows_order : StepOrder error_follows.
Proof.
  split.
  - intros self w. split; [done|]. by left.
  - intros s1 w1 s2 w2 s3 w3 (Hr1 & H1) (Hr2 & H2).
    split; [congruence|].
    destruct H2 as [(Hsame & Herr) | (Hsent & Hleft)].
    + destruct H1 as [(Hsame1 & Herr1) | (Hsent1 & Hleft1)]; [left | right].
      * split; congruence.
      * split; [lia|]. unfold last_answer in *.
        rewrite Herr, Hsame, Hr2. exact Hleft1.
    + right. split; [|exact Hleft].
      destruct H1 as [(Hsame1 & _) | (Hsent1 & _)]; lia.
Qed.

Ltac error_side :=
  unfold error_follows, get_http_error; intros; simpl; split; [done|]; left; done.

Ltac returning_step side :=
  first
    [ solve [apply respects_returning, respects_ret; tc_solve]
    | solve [apply respects_returning, respects_lift; tc_solve]
    | solve [apply respects_returning, respects_get_self; tc_solve]
    | apply respects_returning, respects_update; [solve [side]]
    | apply respects_returning, respects_datetime_now; [solve [side]]
    | apply returning_bind; [tc_solve | | intros ?]
    | match goal with
      | |- returning _ (if ?b then _ else _) => destruct b
      | |- returning _ (match ?x with _ => _ end) => destruct x
      | |- returning _ (let _ := _ in _) => cbv zeta
      end ].

Lemma http_with_retry_error_follows method url mower_name :
  returning error_follows (_http_with_retry method url mower_name).
Proof.
  intros self w v self' w' Hrun.
  destruct (http_with_retry_outcome method url mower_name self w)
    as (result & s1 & w1 & Hcall & _ & (Hresponses & _) & Hsent & _ & Hout).
  rewrite Hrun in Hcall. injection Hcall as <- <- <-.
  split; [done|]. right. split; [lia|]. unfold get_http_error.
  destruct Hout as [(r & Hlast & Hstatus & _ & Herr & _) | (_ & Hmsg)];
    [right | by left].
  split; [done|]. by exists r.
Qed.

Lemma get_access_token_error_follows : returning error_follows _get_access_token.
Proof.
  intros self w ok self' w' Hrun. destruct ok.
  - apply get_access_token_success in Hrun
      as ((r & document & expires_in & Hsent & Hlast & Hstatus & _) &
          Herr & _ & _ & Hresponses).
    split; [done|]. right. split; [done|]. right. split; [done|]. by exists r.
  - apply get_access_token_failure in Hrun as (Herr & _ & _ & Hsent & Hresponses).
    split; [done|]. right. split; [done|]. left.
    eexists. split; [exact Herr|]. apply append_nonempty.
Qed.

Lemma check_access_token_error_follows :
  returning error_follows _check_access_token_and_renew.
Proof.
  intros self w ok self' w' Hrun. apply check_access_token_cases in Hrun.
  destruct (_ >? _).
  - destruct Hrun as (acquired & s1 & Hacq & Hrun).
    destruct acquired as [got|e]; destruct Hrun as [[= <-] ->].
    apply get_access_token_error_follows in Hacq. exact Hacq.
  - destruct Hrun as (-> & [[_ ->] | (e & [=] & _)]).
    split; [done|]. by left.
Qed.

Lemma get_mowers_request_error_follows : returning error_follows _get_mowers.
Proof.
  unfold _get_mowers.
  repeat first [ apply http_with_retry_error_follows | returning_step error_side ].
Qed.

Lemma store_mower_info_error_follows index mower_info :
  respects error_follows (store_mower_info index mower_info).
Proof. unfold store_mower_info. repeat method_step error_side. Qed.

Lemma mower_info_loop_error_follows remaining index status :
  returning error_follows (mower_info_loop remaining index status).
Proof.
  revert index status. induction remaining as [|remaining IH]; intros index status.
  { apply respects_returning, respects_ret; tc_solve. }
  cbn [mower_info_loop].
  apply returning_bind; [tc_solve | apply respects_returning, respects_get_self; tc_solve|].
  intros self. destruct (mowers self !! index) as [mower|];
    [|apply respects_returning, respects_ret; tc_solve].
  cbv zeta. destruct (_ || _); [apply IH|].
  apply returning_bind; [tc_solve | apply http_with_retry_error_follows|].
  intros mower_info.
  apply returning_bind; [tc_solve | destruct (truthy mower_info); returning_step error_side|].
  intros [|]; [|apply respects_returning, respects_ret; tc_solve].
  apply returning_bind; [tc_solve | |].
  - apply returning_try_except; [tc_solve | |].
    + apply respects_bind; [tc_solve | apply store_mower_info_error_follows|].
      intros _. apply respects_ret; tc_solve.
    + intros e. apply respects_returning, respects_ret; tc_solve.
  - intros [|]; [apply IH | apply respects_returning, respects_ret; tc_solve].
Qed.

Lemma get_mower_detailed_info_error_follows :
  returning error_follows _get_mower_detailed_info.
Proof.
  unfold _get_mower_detailed_info.
  apply returning_bind; [tc_solve | apply respects_returning, respects_get_self; tc_solve|].
  intros self. apply mower_info_loop_error_follows.
Qed.

Lemma every_api_operation_impl (P Q : ∀ A, M A → Prop) :
  (∀ A op, P A op → Q A op) → every_api_operation P → every_api_operation Q.
Proof. unfold every_api_operation. intros HPQ. intuition auto. Qed.

Lemma operations_error_follow :
  every_api_operation (fun A op => returning error_follows op).
Proof.
  assert (∀ mower_name action duration,
            returning error_follows (_send_action_to_mower mower_name action duration))
    as Haction.
  { intros mower_name action duration. unfold _send_action_to_mower.
    replace (known_action action) with true by (by destruct action). cbn [negb].
    repeat first [ exact check_access_token_error_follows
                 | apply http_with_retry_error_follows | returning_step error_side ]. }
  unfold every_api_operation, get_mowers, get_mowers_info, get_mower_messages,
    set_headlight, set_cutting_height.
  repeat apply conj; intros;
    first [ apply Haction
          | repeat first [ exact check_access_token_error_follows
                         | exact get_mowers_request_error_follows
                         | exact get_mower_detailed_info_error_follows
                         | apply http_with_retry_error_follows
                         | returning_step error_side ] ].
Qed.

(** After a failed last request the error is a message. *)
Lemma error_follows_failed self w self' w' :
  error_follows self w self' w' →
  (requests_made w < requests_made w')%nat →
  (∀ r, last_answer w' = Resp r → ¬ 200 ≤ status_code r < 300) →
  ∃ msg, get_http_error self' = Some msg ∧ msg ≠ EmptyString.
Proof.
  intros (_ & [(Hsame & _) | (_ & [Hmsg | (_ & r & Hlast & Hstatus)])]) Hsent Hfailed.
  - lia.
  - exact Hmsg.
  - by destruct (Hfailed r Hlast).
Qed.

(** A request whose truthy answer is the result of the operation *)
Lemma request_success_clears method url mower_name self w self' w' :
  (response <- _http_with_retry method url mower_name ;;
   ret (truthy response))%method self w = (Ok true, self', w') →
  get_http_error self' = None.
Proof.
  unfold bind, ret.
  destruct (_http_with_retry method url mower_name self w) as [[[v|e] s2] w2] eqn:Hcall;
    [|discriminate].
  intros [= Htruthy <- <-].
  apply http_with_retry_body in Hcall as (Herr & _); [done|]. by intros ->.
Qed.

#[local] Instance keeps_error_order : StepOrder keeps_error.
Proof. split; unfold keeps_error; [done | congruence]. Qed.

Lemma store_mower_info_keeps_error index mower_info :
  respects keeps_error (store_mower_info index mower_info).
Proof.
  unfold store_mower_info.
  repeat method_step ltac:(unfold keeps_error, get_http_error; intros; simpl; done).
Qed.

(** When the loop over the mowers returns [True], it has cleared the error,
    unless it had nothing to do. *)
Lemma mower_info_loop_clears remaining index status self w self' w' :
  mower_info_loop remaining index status self w = (Ok true, self', w') →
  get_http_error self' = None ∨
  (get_http_error self' = get_http_error self ∧
   (remaining = 0%nat ∨ mowers self !! index = None)).
Proof.
  revert index status self w.
  induction remaining as [|remaining IH]; intros index status self w.
  { intros [= -> <- <-]. right. split; [done | by left]. }
  cbn [mower_info_loop]. unfold bind at 1, get_self.
  destruct (mowers self !! index) as [mower0|] eqn:Hmower0.
  2: { intros [= -> <- <-]. right. split; [done | by right]. }
  cbv zeta. destruct (_ || _).
  { intros Hrun. by apply mower_info_loop_success in Hrun as [? _]. }
  unfold bind at 1.
  destruct (_http_with_retry GET _ _ self w) as [[[mower_info|e] s1] w1] eqn:Hcall;
    [|discriminate].
  unfold bind at 1.
  destruct ((if truthy mower_info then lift (py_contains "data" mower_info)
             else ret false) s1 w1) as [[[has_data|e] s1'] w1'] eqn:Hdata;
    [|discriminate].
  destruct has_data; [|discriminate].
  assert (s1' = s1 ∧ truthy mower_info = true) as [-> Htruthy].
  { revert Hdata. destruct (truthy mower_info); [by intros [= _ <- _] | discriminate]. }
  clear Hdata.
  apply http_with_retry_body in Hcall as (Herr1 & _); [|intros ->; discriminate].
  unfold bind at 1.
  destruct (try_except _ _ s1 w1') as [[[stored|e] s2] w2] eqn:Hstore; [|discriminate].
  assert (respects keeps_error
            (try_except (store_mower_info index mower_info ;;; ret true)%method
                        (fun _ => ret false))) as Hkeeps.
  { apply respects_try_except; [tc_solve | | intros; apply respects_ret; tc_solve].
    apply respects_bind;
      [tc_solve | apply store_mower_info_keeps_error
      | intros; apply respects_ret; tc_solve]. }
  apply Hkeeps in Hstore. unfold keeps_error, get_http_error in Hstore.
  destruct stored; [|discriminate].
  intros Hrest. apply IH in Hrest as [Hnone | (Hsame & _)]; [by left|].
  left. unfold get_http_error in *. congruence.
Qed.

Lemma get_mowers_request_clears self w self' w' :
  _get_mowers self w = (Ok true, self', w') → get_http_error self' = None.
Proof.
  unfold _get_mowers, bind at 1.
  destruct (_http_with_retry GET ApiEndpoints.MOWERS JNull self w)
    as [[[v|e] s1] w1] eqn:Hcall; [|discriminate].
  destruct (truthy v) eqn:Htruthy; [|discriminate].
  apply http_with_retry_body in Hcall as (Herr & _); [|intros ->; discriminate].
  destruct (rbind _ _) as [entries|e]; [|destruct e; discriminate].
  by intros [= <- <-].
Qed.

(** C7, amended.  The stored error follows the requests, not the
    operations.  After any operation that returns, the stored error is a
    non-empty message, or it is cleared and the last request of the call was
    answered by a 2xx response, or the call sent no request and the error is
    what it was before.  So an operation that returns after its last request
    failed leaves a non-empty message.  Success clears the error: after
    [get_mowers] returns [True], after [get_mowers_info] returns [True] with
    a mower in the list, after [get_mower_messages] returns a value other
    than [None], and after a settings or action operation returns [True], the
    stored error is [None]. *)
Theorem last_error_follows_request_core :
  every_api_operation (fun A op => returning error_follows op) ∧
  every_api_operation
    (fun A op =>
       ∀ self w a self' w', op self w = (Ok a, self', w') →
         (requests_made w < requests_made w')%nat →
         (∀ r, last_answer w' = Resp r → ¬ 200 ≤ status_code r < 300) →
         ∃ msg, get_http_error self' = Some msg ∧ msg ≠ EmptyString) ∧
  (∀ self w self' w',
     get_mowers self w = (Ok true, self', w') → get_http_error self' = None) ∧
  (∀ self w self' w',
     get_mowers_info self w = (Ok true, self', w') → mowers self ≠ [] →
     get_http_error self' = None) ∧
  (∀ mower_name self w v self' w',
     get_mower_messages mower_name self w = (Ok v, self', w') → v ≠ JNull →
     get_http_error self' = None) ∧
  (∀ mower_name light self w self' w',
     set_headlight mower_name light self w = (Ok true, self', w') →
     get_http_error self' = None) ∧
  (∀ mower_name height self w self' w',
     set_cutting_height mower_name height self w = (Ok true, self', w') →
     get_http_error self' = None) ∧
  (∀ mower_name action duration self w self' w',
     _send_action_to_mower mower_name action duration self w = (Ok true, self', w') →
     get_http_error self' = None).
Proof.
  split; [exact operations_error_follow|].
  split.
  { eapply every_api_operation_impl; [|exact operations_error_follow].
    intros A op Hop self w a self' w' Hrun.
    apply (error_follows_failed self w self' w'). by eapply Hop. }
  split.
  { intros self w self' w'. unfold get_mowers, bind at 1.
    destruct (_check_access_token_and_renew self w) as [[[ok|e] s1] w1]; [|discriminate].
    destruct ok; [|discriminate]. unfold bind at 1.
    destruct (_get_mowers s1 w1) as [[[got|e] s2] w2] eqn:Hlist; [|discriminate].
    destruct got; [|discriminate].
    apply get_mowers_request_clears in Hlist. by intros [= <- <-]. }
  split.
  { intros self w self' w' Hrun Hnonempty. revert Hrun.
    unfold get_mowers_info, bind at 1.
    destruct (_check_access_token_and_renew self w) as [[[ok|e] s1] w1] eqn:Hcheck;
      [|discriminate].
    apply check_access_token_keeps_mowers in Hcheck. unfold keeps_mowers in Hcheck.
    destruct ok; [|discriminate].
    unfold _get_mower_detailed_info, bind, get_self. intros Hloop.
    apply mower_info_loop_clears in Hloop as [Hnone | (_ & [Hzero | Hnone])]; [done | |].
    - rewrite Hcheck in Hzero. by destruct (mowers self).
    - rewrite Hcheck in Hnone. by destruct (mowers self). }
  split.
  { intros mower_name self w v self' w'. unfold get_mower_messages, bind at 1.
    destruct (_check_access_token_and_renew self w) as [[[ok|e] s1] w1]; [|discriminate].
    destruct ok; cbn [negb]; [|by intros [= <- <- <-]].
    unfold bind at 1, get_self.
    destruct (truthy (_find_id_from_name s1 mower_name)); [|by intros [= <- <- <-]].
    intros Hcall Hbody. by apply http_with_retry_body in Hcall as (Herr & _). }
  split.
  { intros mower_name light self w self' w'. unfold set_headlight, bind at 1.
    destruct (_check_access_token_and_renew self w) as [[[ok|e] s1] w1]; [|discriminate].
    destruct ok; cbn [negb]; [|discriminate].
    unfold bind at 1, get_self.
    destruct (truthy (_find_id_from_name s1 mower_name)); [|discriminate].
    apply request_success_clears. }
  split.
  { intros mower_name height self w self' w'. unfold set_cutting_height, bind at 1.
    destruct (_check_access_token_and_renew self w) as [[[ok|e] s1] w1]; [|discriminate].
    destruct ok; cbn [negb]; [|discriminate].
    unfold bind at 1, get_self.
    destruct (truthy (_find_id_from_name s1 mower_name)); [|discriminate].
    apply request_success_clears. }
  intros mower_name action duration self w self' w'. unfold _send_action_to_mower.
  replace (known_action action) with true by (by destruct action). cbn [negb].
  unfold bind at 1.
  destruct (_check_access_token_and_renew self w) as [[[ok|e] s1] w1]; [|discriminate].
  destruct ok; cbn [negb]; [|discriminate].
  unfold bind at 1, get_self.
  destruct (truthy (_find_id_from_name s1 mower_name)); cbn [negb]; [|discriminate].
  apply request_success_clears.
Qed.

End OperationsFurther.

(** ** Logging *)

Section LogFurther.

Lemma substring_empty i m : String.substring i m EmptyString = EmptyString.
Proof. by destruct i, m. Qed.

Lemma substring_none s : ∀ i, String.substring i 0 s = EmptyString.
Proof.
  induction s as [|c s IH]; intros i; [apply substring_empty|].
  destruct i as [|i]; [done | apply IH].
Qed.

Lemma substring_add s :
  ∀ i a b,
    String.substring i (a + b) s =
      String.substring i a s +:+ String.substring (i + a) b s.
Proof.
  induction s as [|c s IH]; intros i a b.
  { by rewrite !substring_empty. }
  destruct i as [|i]; [|apply IH].
  destruct a as [|a]; [done|].
  cbn [String.substring Nat.add]. by rewrite append_cons, (IH 0%nat a b).
Qed.

Lemma substring_clip s :
  ∀ i m,
    (String.length s - i ≤ m)%nat →
    String.substring i m s = String.substring i (String.length s - i) s.
Proof.
  induction s as [|c s IH]; intros i m Hm.
  { by rewrite !substring_empty. }
  destruct i as [|i]; [|apply IH; simpl in Hm; lia].
  destruct m as [|m]; [simpl in Hm; lia|].
  cbn [String.substring String.length Nat.sub].
  rewrite (IH 0%nat m) by (simpl in Hm; lia). by rewrite Nat.sub_0_r.
Qed.

Lemma substring_all s : String.substring 0 (String.length s) s = s.
Proof. induction s as [|c s IH]; [done|]. simpl. by rewrite IH. Qed.

Lemma substring_length s :
  ∀ i m,
    String.length (String.substring i m s) = Nat.min m (String.length s - i).
Proof.
  induction s as [|c s IH]; intros i m.
  { rewrite substring_empty. simpl. lia. }
  destruct i as [|i]; [|apply IH].
  destruct m as [|m]; [done|].
  cbn [String.substring String.length Nat.sub Nat.min].
  by rewrite (IH 0%nat m), Nat.sub_0_r.
Qed.

(** The slices [s[i:i+size]] for i in [range(start, len(s), size)] make up
    the rest of s from [start] on, none is empty or longer than [size], and
    there are as few of them as that allows. *)
Lemma range_chunks (size : nat) (s : string) :
  (0 < size)%nat →
  ∀ fuel start,
    (String.length s - start ≤ fuel * size)%nat →
    let chunks :=
      (fun i => String.substring i size s) <$>
        range_from fuel start (String.length s) size in
    join chunks = String.substring start (String.length s - start) s ∧
    Forall (fun chunk => (1 ≤ String.length chunk ≤ size)%nat) chunks ∧
    (length chunks * size < String.length s - start + size)%nat ∧
    (String.length s - start ≤ length chunks * size)%nat.
Proof.
  intros Hsize. induction fuel as [|fuel IH]; intros start Hfuel; cbn zeta.
  { replace (String.length s - start)%nat with 0%nat by lia. simpl.
    rewrite substring_none. split; [done|]. split; [constructor|]. lia. }
  cbn [range_from].
  destruct (Nat.ltb_spec start (String.length s)) as [Hlt|Hge].
  2: { replace (String.length s - start)%nat with 0%nat by lia. simpl.
       rewrite substring_none. split; [done|]. split; [constructor|]. lia. }
  destruct (IH (start + size)%nat) as (Hjoin & Hall & Hfew & Hmany); [lia|].
  rewrite fmap_cons. cbn [join foldr length]. fold (join
    ((fun i => String.substring i size s) <$>
       range_from fuel (start + size) (String.length s) size)).
  rewrite Hjoin, <- substring_add.
  set (count := length _) in *. cbn [Nat.mul] in *.
  assert (start + size ≤ String.length s ∨ count = 0)%nat as Hcount.
  { destruct (Nat.le_gt_cases (start + size) (String.length s)) as [|Hpast];
      [by left | right].
    destruct count; [done|]. cbn [Nat.mul] in Hfew. lia. }
  repeat split.
  - rewrite (substring_clip s start (size + _)) by lia. done.
  - constructor; [|done]. rewrite substring_length. lia.
  - destruct Hcount as [Hfits| ->]; lia.
  - destruct Hcount as [Hfits| ->]; lia.
Qed.

(** X30. The texts [log] hands to [Domoticz.Debug].  A message of at most
    5000 characters goes out in one call.  A longer one goes out as a
    heading followed by chunks that, put end to end, are the message: no
    chunk is empty, none is longer than 5000 characters, and there are
    exactly as many as the length requires. *)
Theorem log_chunks msg :
  if Nat.leb (String.length msg) 5000 then log msg = [">> " +:+ msg]
  else
    ∃ chunks,
      log msg = ">> (in several blocks)" :: ((fun chunk => ">> " +:+ chunk) <$> chunks) ∧
      join chunks = msg ∧
      Forall (fun chunk => (1 ≤ String.length chunk ≤ 5000)%nat) chunks ∧
      (String.length msg ≤ length chunks * 5000 < String.length msg + 5000)%nat.
Proof.
  unfold log. cbv zeta. destruct (Nat.leb (String.length msg) 5000); [done|].
  eexists. split; [reflexivity|].
  destruct (range_chunks 5000 msg ltac:(lia) (String.length msg) 0%nat ltac:(lia))
    as (Hjoin & Hall & Hfew & Hmany).
  unfold py_range. rewrite Nat.sub_0_r in *.
  rewrite Hjoin, substring_all. repeat split; [done | lia | lia].
Qed.

End LogFurther.

(** * Worked runs

    The theorems above applied to the scripted worlds, and the runs on which
    the client departs from the specification. *)

#[local] Existing Instance sample_runtime.

Lemma run_eta {A} (run : A * Husqvarna * World) :
  run = (returned run, client_after run, world_after run).
Proof. by destruct run as [[? ?] ?]. Qed.

(** C1 applied: with [expires_in = 3600] the effective lifetime is 3000
    seconds.  A check at 2999 s works with the stored token and sends
    nothing.  A check at 3001 s asks for a new token: the document it
    receives is then the stored token, and the new expiry is 3001 s + 3600 s
    - 600 s. *)
Lemma token_renewal_scenario :
  let acquired := _get_access_token fresh_client (renewal_world 2999) in
  let checked :=
    _check_access_token_and_renew (client_after acquired) (world_after acquired) in
  let acquired' := _get_access_token fresh_client (renewal_world 3001) in
  let checked' :=
    _check_access_token_and_renew (client_after acquired') (world_after acquired') in
  returned acquired = Ok true ∧
  access_token_expiration (state (client_after acquired)) =
    3000 * microseconds_per_second ∧
  returned checked = Ok true ∧
  reuses_token (client_after acquired) (world_after acquired)
               (client_after checked) (world_after checked) ∧
  trace (world_after checked) = [token_request] ∧
  access_token (state (client_after checked)) = token_document ∧
  returned acquired' = Ok true ∧
  returned checked' = Ok true ∧
  renews_token (client_after acquired') (world_after acquired')
               (client_after checked') (world_after checked') ∧
  renewal_effect (client_after acquired') (world_after acquired') (returned checked')
                 (client_after checked') (world_after checked') ∧
  trace (world_after checked') = [token_request; token_request] ∧
  access_token (state (client_after checked')) = renewed_document ∧
  access_token_expiration (state (client_after checked')) =
    6001 * microseconds_per_second.
Proof.
  intros acquired checked acquired' checked'.
  destruct token_renewal_policy as (_ & _ & _ & Hpolicy & _).
  pose proof (Hpolicy _ _ _ _ _ (run_eta checked)) as Hreuse.
  pose proof (Hpolicy _ _ _ _ _ (run_eta checked')) as Hrenew.
  match type of Hreuse with
  | if ?c then _ else _ =>
      assert (c = false) as Hvalid by (vm_compute; reflexivity); rewrite Hvalid in Hreuse
  end.
  match type of Hrenew with
  | if ?c then _ else _ =>
      assert (c = true) as Hpast by (vm_compute; reflexivity); rewrite Hpast in Hrenew
  end.
  destruct Hreuse as [Hreuse _]. destruct Hrenew as [Hrenew Heffect].
  refine (conj _ (conj _ (conj _ (conj Hreuse (conj _ (conj _ (conj _ (conj _
            (conj Hrenew (conj Heffect (conj _ (conj _ _))))))))))));
    vm_compute; reflexivity.
Defined.

(** C2 at the failing input.  Three 503 responses whose body is an HTML
    page.  The call sends three requests and sleeps 4 s and 6 s between
    them; the third response is then analysed, its body does not decode, and
    the call does not return [None] with a message stored: it raises the
    [AttributeError] of [httpx.JSONDecodeError], and the stored error is the
    empty text the call started with. *)
Theorem retry_exhaustion_raises_on_html_body :
  let run := _http_with_retry GET mowers_url JNull fresh_client (html_world 503) in
  (∀ n, (n < 3)%nat → responses (html_world 503) n = Resp (html_page 503)) ∧
  status_code (html_page 503) = 503 ∧ json_body (html_page 503) = None ∧
  trace (world_after run) =
    [EvRequest GET mowers_url; EvSleep 4; EvRequest GET mowers_url; EvSleep 6;
     EvRequest GET mowers_url] ∧
  returned run = Raise (ModuleAttributeError "httpx" "JSONDecodeError") ∧
  get_http_error (client_after run) = Some EmptyString.
Proof.
  intros run. split.
  { intros [|[|[|n]]] Hn; [reflexivity | reflexivity | reflexivity | lia]. }
  repeat split; vm_compute; reflexivity.
Qed.

(** C3 at the failing input.  A 429 response whose body is an HTML page.
    The call makes one attempt, does not sleep, and sets the rate-limit flag;
    but no error message is recorded and the call does not return: it raises
    the [AttributeError] of [httpx.JSONDecodeError], and the stored error is
    the empty text the call started with. *)
Theorem rate_limit_raises_on_html_body :
  let run := _http_with_retry GET mowers_url JNull fresh_client (html_world 429) in
  responses (html_world 429) 0 = Resp (html_page 429) ∧
  status_code (html_page 429) = 429 ∧ json_body (html_page 429) = None ∧
  trace (world_after run) = [EvRequest GET mowers_url] ∧
  are_api_limits_reached (client_after run) = true ∧
  returned run = Raise (ModuleAttributeError "httpx" "JSONDecodeError") ∧
  get_http_error (client_after run) = Some EmptyString.
Proof. repeat split; vm_compute; reflexivity. Qed.

(** C5 at the failing input.  A 200 response whose body is an HTML page.
    The call does not return [None] with a parse-error message: evaluating
    the [except] clause around [response.json()] raises the [AttributeError]
    of [httpx.JSONDecodeError], which leaves the call, and no error is
    stored. *)
Theorem success_raises_on_html_body :
  let run := _http_with_retry GET mowers_url JNull fresh_client (html_world 200) in
  responses (html_world 200) 0 = Resp (html_page 200) ∧
  status_code (html_page 200) = 200 ∧ json_body (html_page 200) = None ∧
  trace (world_after run) = [EvRequest GET mowers_url] ∧
  returned run = Raise (ModuleAttributeError "httpx" "JSONDecodeError") ∧
  get_http_error (client_after run) = None.
Proof. repeat split; vm_compute; reflexivity. Qed.

(** C6 at the failing inputs.  A 404 response whose body is an HTML page
    gets no decode-failure message: the analysis raises the [AttributeError]
    of [httpx.JSONDecodeError], the call raises with it, and the stored error
    is the empty text.  With an empty [errors] list next to a [message], the
    client writes [Unknown Error: No detail] and the message is not used.
    And with a status outside 200..599 the stored message does not include
    the URL. *)
Theorem error_message_departures :
  let html := _http_with_retry GET mowers_url JNull fresh_client (html_world 404) in
  let quota := _http_with_retry GET mowers_url JNull fresh_client
                 (scripted [Resp quota_body] []) in
  let moved := _http_with_retry GET mowers_url JNull fresh_client
                 (scripted [Resp found_elsewhere] []) in
  json_body (html_page 404) = None ∧
  analysis_message (html_page 404) mowers_url JNull =
    Raise (ModuleAttributeError "httpx" "JSONDecodeError") ∧
  returned html = Raise (ModuleAttributeError "httpx" "JSONDecodeError") ∧
  get_http_error (client_after html) = Some EmptyString ∧
  json_body quota_body =
    Some (JObj {[ "errors" := JArr []; "message" := JStr "quota exceeded" ]}) ∧
  returned quota = Ok JNull ∧
  get_http_error (client_after quota) =
    Some "(Unknown - 404) Unknown Error: No detail (url: https://api.amc.husqvarna.dev/v1/mowers)" ∧
  status_code found_elsewhere = 302 ∧
  returned moved = Ok JNull ∧
  get_http_error (client_after moved) =
    Some "HTTP error (302) not specifically handled." ∧
  substringb mowers_url "HTTP error (302) not specifically handled." = false.
Proof. repeat split; vm_compute; reflexivity. Qed.

Lemma built_by_init :
  __init__ "client" "secret" unknown_mower_world = (Ok built_client, built_world).
Proof. vm_compute; reflexivity. Qed.

(** C7 as stated fails three times.  A client built with a valid token and
    no mower list is asked for the messages of a mower it does not know: the
    call fails, it sends nothing, and no error is stored.  The same client
    lists its mowers and is answered 200 with an empty object: [get_mowers]
    returns [False] and no error is stored.  And after a [get_mowers] that
    failed for want of network, [get_mowers_info] succeeds on the empty list
    and the connection error is still stored. *)
Lemma last_error_counterexample :
  let unknown := get_mower_messages "Robbie" built_client built_world in
  let empty := get_mowers built_client empty_list_world in
  let offline := get_mowers built_client (scripted [] [1000000]) in
  let info := get_mowers_info (client_after offline) (world_after offline) in
  __init__ "client" "secret" unknown_mower_world = (Ok built_client, built_world) ∧
  returned unknown = Ok JNull ∧
  get_http_error (client_after unknown) = None ∧
  trace (world_after unknown) = [token_request] ∧
  returned empty = Ok false ∧
  get_http_error (client_after empty) = None ∧
  returned offline = Ok false ∧
  returned info = Ok true ∧
  get_http_error (client_after info) =
    Some ("Retry 2 - Connection error to url https://api.amc.husqvarna.dev/v1/mowers" +:+
          " with error " +:+ dquote +:+ "timed out" +:+ dquote +:+ "." +:+ newline).
Proof. split; [exact built_by_init|]. repeat split; vm_compute; reflexivity. Qed.

(** C7 as amended, applied to the first of these runs: nothing was sent, so
    the error is what it was. *)
Lemma unknown_mower_keeps_error :
  let run := get_mower_messages "Robbie" built_client built_world in
  returned run = Ok JNull ∧
  truthy (_find_id_from_name built_client "Robbie") = false ∧
  error_follows built_client built_world (client_after run) (world_after run) ∧
  get_http_error (client_after run) = get_http_error built_client ∧
  trace (world_after run) = trace built_world.
Proof.
  intros run.
  assert (run = (Ok JNull, client_after run, world_after run)) as Hrun
    by (vm_compute; reflexivity).
  destruct last_error_follows_request_core as ((_ & _ & Hmessages & _) & _).
  pose proof (Hmessages "Robbie" _ _ _ _ _ Hrun) as Hfollows.
  split; [vm_compute; reflexivity|]. split; [vm_compute; reflexivity|].
  split; [exact Hfollows|].
  split; [|vm_compute; reflexivity].
  destruct Hfollows as (_ & [(_ & Hkept) | (Hsent & _)]); [exact Hkept|].
  vm_compute in Hsent. lia.
Defined.

(** C4 at the failing input.  A 429 response sets the rate-limit flag; the
    next call gets a 302 response, the latest response is then not a 429, and
    the flag is still set. *)
Theorem rate_limit_flag_stale_after_unhandled_status :
  let first := _http_with_retry GET mowers_url JNull fresh_client redirected_world in
  let second :=
    _http_with_retry GET mowers_url JNull (client_after first) (world_after first) in
  are_api_limits_reached (client_after first) = true ∧
  trace (world_after second) = [EvRequest GET mowers_url; EvRequest GET mowers_url] ∧
  responses redirected_world 1 = Resp found_elsewhere ∧
  status_code found_elsewhere = 302 ∧
  returned second = Ok JNull ∧
  get_http_error (client_after second) =
    Some "HTTP error (302) not specifically handled." ∧
  are_api_limits_reached (client_after second) = true.
Proof. repeat split; vm_compute; reflexivity. Qed.

(** C10 applied: without network the token cannot be renewed, [get_mowers]
    returns [False] and the time stamp is the one of the fresh client. *)
Lemma get_mowers_offline :
  let run := get_mowers fresh_client offline_world in
  returned run = Ok false ∧
  get_timestamp_last_update_mower_list (client_after run) =
    get_timestamp_last_update_mower_list fresh_client.
Proof.
  intros run. split; [vm_compute; reflexivity|].
  apply (get_mowers_failure_keeps_timestamp fresh_client offline_world
           (client_after run) (world_after run)).
  vm_compute; reflexivity.
Defined.

(** C8 applied. *)
Lemma mowers_off_examples :
  are_all_mowers_off (set_mowers [] fresh_client) = true ∧
  are_all_mowers_off
    (set_mowers [ {[ "name" := JStr "Robbie"; "state" := JStr "OFF" ]};
                  {[ "name" := JStr "Shaun" ]} ] fresh_client) = false.
Proof.
  split; [exact (proj2 (are_all_mowers_off_spec fresh_client))|].
  vm_compute; reflexivity.
Defined.


(** ** Further runs *)

(** X3 applied: a 404 response with a JSON body ends the call at once with
    its message; one with an HTML body makes the call raise. *)
Lemma not_found_is_final :
  let run := _http_with_retry GET mowers_url (JStr "Robbie") fresh_client
               (scripted [Resp not_found] []) in
  let html := _http_with_retry GET mowers_url (JStr "Robbie") fresh_client
                (html_world 404) in
  returned run = Ok JNull ∧
  trace (world_after run) = [EvRequest GET mowers_url] ∧
  are_api_limits_reached (client_after run) = false ∧
  get_http_error (client_after run) =
    Some "(Robbie - 404) Not Found: No such mower (url: https://api.amc.husqvarna.dev/v1/mowers)" ∧
  returned html = Raise (ModuleAttributeError "httpx" "JSONDecodeError") ∧
  get_http_error (client_after html) = Some EmptyString.
Proof.
  intros run html.
  destruct (http_with_retry_terminal_client_error GET mowers_url (JStr "Robbie")
              fresh_client (scripted [Resp not_found] []) not_found)
    as (self' & w' & _ & Htrace & Hflag & Hrun);
    [reflexivity | simpl; lia | simpl; lia |].
  destruct (http_with_retry_terminal_client_error GET mowers_url (JStr "Robbie")
              fresh_client (html_world 404) (html_page 404))
    as (self2 & w2 & _ & _ & _ & Hhtml);
    [reflexivity | simpl; lia | simpl; lia |].
  assert (analyze_body not_found mowers_url (JStr "Robbie") =
            Ok "(Robbie - 404) Not Found: No such mower (url: https://api.amc.husqvarna.dev/v1/mowers)")
    as Hbody by (vm_compute; reflexivity).
  assert (analyze_body (html_page 404) mowers_url (JStr "Robbie") =
            Raise (JSONDecodeError (text (html_page 404))))
    as Hpage by (vm_compute; reflexivity).
  rewrite Hbody in Hrun. rewrite Hpage in Hhtml.
  destruct Hrun as [Hrun Herror]. destruct Hhtml as [Hhtml Hempty].
  unfold run, html. rewrite Hrun, Hhtml.
  repeat apply conj; done.
Defined.

(** X31 applied: three 403 responses in a row, with a JSON body. *)
Lemma three_forbidden_responses :
  let run := _http_with_retry GET mowers_url JNull fresh_client forbidden_world in
  returned run = Ok JNull ∧
  trace (world_after run) =
    [EvRequest GET mowers_url; EvSleep 4; EvRequest GET mowers_url; EvSleep 6;
     EvRequest GET mowers_url] ∧
  get_http_error (client_after run) =
    Some "(Unknown - 403) Forbidden (url: https://api.amc.husqvarna.dev/v1/mowers)".
Proof.
  intros run.
  destruct (http_with_retry_three_attempts GET mowers_url JNull fresh_client forbidden_world)
    as (self' & w' & _ & Htrace & _ & Hrun); [by left | by left | by left |].
  match type of Hrun with
  | match ?message with _ => _ end =>
      assert (message =
                Ok "(Unknown - 403) Forbidden (url: https://api.amc.husqvarna.dev/v1/mowers)")
        as Hmessage by (vm_compute; reflexivity);
      rewrite Hmessage in Hrun
  end.
  destruct Hrun as (Hrun & Herror & _).
  unfold run. rewrite Hrun.
  split; [reflexivity|]. split; [exact Htrace | exact Herror].
Defined.

(** X32 applied: a 503 response, then a 200 response with a JSON body. *)
Lemma recovered_body_is_returned :
  let run := _http_with_retry GET mowers_url JNull fresh_client recovering_world in
  retried_first recovering_world 1 ∧
  returned run = Ok token_document ∧
  requests_made (world_after run) = 2%nat ∧
  are_api_limits_reached (client_after run) = false ∧
  get_http_error (client_after run) = None.
Proof.
  intros run.
  assert (retried_first recovering_world 1) as Hfirst
    by (intros [|i] Hi; [right; simpl; lia | lia]).
  split; [exact Hfirst|].
  destruct (http_with_retry_success_roundtrip 1 GET mowers_url JNull fresh_client
              recovering_world (answer 200 (Some token_document)))
    as (self' & w' & Hrun & Hrequests & _ & Hflag & Herror);
    [lia | exact Hfirst | reflexivity | simpl; lia |].
  unfold run. rewrite Hrun. repeat apply conj; done.
Defined.

(** X33 applied: a 404 response whose body lists one error. *)
Lemma not_found_message :
  analysis_message not_found mowers_url (JStr "Robbie") =
    Ok "(Robbie - 404) Not Found: No such mower (url: https://api.amc.husqvarna.dev/v1/mowers)" ∧
  includes "(Robbie - 404) Not Found: No such mower (url: https://api.amc.husqvarna.dev/v1/mowers)"
           mowers_url.
Proof.
  pose proof (analysis_message_precedence not_found mowers_url (JStr "Robbie"))
    as (Hobject & _ & Hincludes).
  destruct (Hobject _ eq_refl) as (Hfirst & _).
  pose proof (Hfirst _ [] ltac:(vm_compute; reflexivity)) as Hmessage.
  assert (analysis_message not_found mowers_url (JStr "Robbie") =
            Ok "(Robbie - 404) Not Found: No such mower (url: https://api.amc.husqvarna.dev/v1/mowers)")
    as Hvalue by (rewrite Hmessage; vm_compute; reflexivity).
  split; [exact Hvalue|].
  by destruct (Hincludes _ Hvalue) as (_ & Hurl & _).
Defined.

(** X6 applied: the body returned in [recovering_world] is the body of a
    response of that world. *)
Lemma recovered_body_was_received :
  let run := _http_with_retry GET mowers_url JNull fresh_client recovering_world in
  returned run = Ok token_document ∧
  ∃ n r, (n < 3)%nat ∧ responses recovering_world n = Resp r ∧
         json_body r = Some token_document.
Proof.
  intros run.
  destruct (http_with_retry_returns_own_response GET mowers_url JNull fresh_client
              recovering_world token_document)
    as (n & r & Hn & _ & Hr & _ & Hjson);
    [vm_compute; reflexivity | discriminate |].
  split; [vm_compute; reflexivity|].
  exists n, r. split; [simpl in Hn; lia|]. split; [exact Hr | exact Hjson].
Defined.

(** X7 applied: the token of [built_client] has expired and there is no
    network; the failed acquisition leaves the old token in place. *)
Lemma failed_renewal_keeps_token :
  let run := _get_access_token built_client expired_offline_world in
  returned run = Ok false ∧
  access_token (state (client_after run)) = access_token (state built_client) ∧
  access_token_expiration (state (client_after run)) = 3000 * microseconds_per_second.
Proof.
  intros run.
  assert (run = (Ok false, client_after run, world_after run)) as Hrun
    by (vm_compute; reflexivity).
  destruct (get_access_token_failure_keeps_token _ _ _ _ Hrun) as (Htoken & Hexpiry & _).
  split; [vm_compute; reflexivity|]. split; [exact Htoken|].
  rewrite Hexpiry. vm_compute; reflexivity.
Defined.

(** X8 applied: an empty object is no token. *)
Lemma empty_document_is_no_token :
  let run := _get_access_token fresh_client empty_document_world in
  returned run = Ok false ∧ trace (world_after run) = [token_request].
Proof.
  intros run.
  destruct (get_access_token_rejects_falsy_document fresh_client empty_document_world
              (answer 200 (Some (JObj ∅))) (JObj ∅))
    as (self' & Hrun & _);
    [reflexivity | simpl; lia | reflexivity | reflexivity |].
  unfold run. rewrite Hrun. split; reflexivity.
Defined.

(** X9 applied: a list as token document makes the acquisition raise, with
    the list stored as token. *)
Lemma list_document_raises :
  let run := _get_access_token fresh_client list_document_world in
  returned run = Raise (AttributeError (JArr [JNum 1]) "get") ∧
  access_token (state (client_after run)) = JArr [JNum 1] ∧
  access_token_expiration (state (client_after run)) = datetime_2000_01_01.
Proof.
  intros run.
  destruct (get_access_token_raises_on_non_object fresh_client list_document_world
              (answer 200 (Some (JArr [JNum 1]))) (JArr [JNum 1]))
    as ((self' & w' & Hrun & Htoken & Hexpiry & _) & _);
    [reflexivity | simpl; lia | reflexivity | reflexivity
    | intros document; discriminate |].
  unfold run. rewrite Hrun. split; [reflexivity|].
  split; [exact Htoken | exact Hexpiry].
Defined.

(** X10 applied: the check of an expired token without network returns
    [False], the client is no longer authenticated and still holds the
    expired token. *)
Lemma expired_token_is_kept :
  let run := _check_access_token_and_renew built_client expired_offline_world in
  returned run = Ok false ∧
  __bool__ built_client = true ∧ __bool__ (client_after run) = false ∧
  access_token (state (client_after run)) = access_token (state built_client).
Proof.
  intros run.
  assert (run = (Ok false, client_after run, world_after run)) as Hrun
    by (vm_compute; reflexivity).
  destruct (check_access_token_sets_authenticated _ _ _ _ _ Hrun) as (Hbool & Hkept).
  destruct (Hkept eq_refl) as (_ & Htoken & _).
  split; [vm_compute; reflexivity|]. split; [vm_compute; reflexivity|].
  split; [exact Hbool | exact Htoken].
Defined.

(** X11 applied: the client built in [unknown_mower_world]. *)
Lemma built_client_is_authenticated :
  __bool__ built_client = true ∧ mowers built_client = [] ∧
  get_http_error built_client = None.
Proof.
  pose proof (init_outcome "client" "secret" unknown_mower_world built_client
                built_world built_by_init) as (_ & _ & Hmowers & _ & _ & Hauth).
  assert (__bool__ built_client = true) as Hbool by (vm_compute; reflexivity).
  rewrite Hbool in Hauth. destruct Hauth as (Herror & _).
  split; [exact Hbool|]. split; [exact Hmowers | exact Herror].
Defined.

(** X24 applied: a token acquired at time 0 with [expires_in = 3600] passes
    the check at 2999 seconds. *)
Lemma acquired_token_is_accepted :
  let acquired := _get_access_token fresh_client (renewal_world 2999) in
  let checked :=
    _check_access_token_and_renew (client_after acquired) (world_after acquired) in
  returned acquired = Ok true ∧ returned checked = Ok true ∧
  trace (world_after checked) = trace (world_after acquired).
Proof.
  intros acquired checked.
  assert (acquired = (Ok true, client_after acquired, world_after acquired)) as Hacquired
    by (vm_compute; reflexivity).
  pose proof (acquired_token_passes_check _ _ _ _ (world_after acquired) Hacquired)
    as Hchecked.
  fold checked in Hchecked. rewrite Hchecked by (vm_compute; discriminate).
  split; [vm_compute; reflexivity|]. split; reflexivity.
Defined.


(** X13 applied: a number among the mowers of the list document, and a list
    document that is an HTML page. *)
Lemma broken_list_raises :
  let run := _get_mowers fresh_client broken_list_world in
  let html := _get_mowers fresh_client (html_world 200) in
  returned run = Raise (AttributeError (JNum 1) "get") ∧
  mowers (client_after run) = mowers fresh_client ∧
  returned html = Raise (ModuleAttributeError "httpx" "JSONDecodeError") ∧
  mowers (client_after html) = mowers fresh_client.
Proof.
  intros run html.
  assert (run = (Raise (AttributeError (JNum 1) "get"), client_after run, world_after run))
    as Hrun by (vm_compute; reflexivity).
  destruct (get_mowers_request_raises _ _ _ _ _ Hrun) as (_ & Hmowers).
  destruct (get_mowers_request_raises _ _ _ _ _ (run_eta html)) as (_ & Hmowers').
  split; [vm_compute; reflexivity|]. split; [exact Hmowers|].
  split; [vm_compute; reflexivity | exact Hmowers'].
Defined.

(** X17 applied: the details of the one mower of [garden_client]. *)
Lemma garden_details_extend_the_mower :
  let run := get_mowers_info garden_client detail_world in
  returned run = Ok true ∧
  length (mowers (client_after run)) = 1%nat ∧
  ∃ mower', mowers (client_after run) !! 0%nat = Some mower' ∧
            mower' !! "id" = Some (JStr "abc-123") ∧
            mower' !! "name" = Some (JStr "Robbie").
Proof.
  intros run.
  destruct (get_mowers_info_extends_mowers garden_client detail_world
              (returned run) (client_after run) (world_after run) (run_eta run))
    as (Hlength & Hkept).
  destruct (Hkept 0%nat {[ "id" := JStr "abc-123"; "name" := JStr "Robbie" ]} eq_refl)
    as (mower' & Hmower' & Hid & Hname & _).
  split; [vm_compute; reflexivity|]. split; [exact Hlength|].
  exists mower'. split; [exact Hmower'|]. split; [exact Hid | exact Hname].
Defined.

(** X18 applied: what is stored for the mower. *)
Lemma garden_details_are_stored :
  let run := _get_mower_detailed_info garden_client detail_world in
  returned run = Ok true ∧
  (∃ mower', mowers (client_after run) !! 0%nat = Some mower' ∧ detailed mower' ∧
             error_state_ok mower') ∧
  mowers (client_after run) =
    [{[ "id" := JStr "abc-123"; "name" := JStr "Robbie";
        "battery_pct" := JNum 80; "activity" := JStr "MOWING";
        "state" := JStr "IN_OPERATION"; "location" := JNull;
        "cutting_height" := JNum 5; "error_state" := JNull ]}].
Proof.
  intros run.
  assert (run = (Ok true, client_after run, world_after run)) as Hrun
    by (vm_compute; reflexivity).
  destruct (get_mower_detailed_info_success _ _ _ _ Hrun 0%nat
              {[ "id" := JStr "abc-123"; "name" := JStr "Robbie" ]} eq_refl)
    as (_ & _ & Hstored).
  split; [vm_compute; reflexivity|]. split; [exact Hstored|].
  vm_compute; reflexivity.
Defined.

(** X21 applied: [built_client] knows no mower. *)
Lemma unknown_mower_is_refused :
  let run := set_headlight "Robbie" true built_client built_world in
  returned run = Ok false ∧ trace (world_after run) = trace built_world.
Proof.
  intros run.
  destruct (unknown_mower_only_checks_token "Robbie" built_client built_world eq_refl)
    as (_ & Hlight & _).
  unfold run. rewrite (Hlight true). split; vm_compute; reflexivity.
Defined.

(** X22 applied: an action on the mower of [garden_client] is accepted. *)
Lemma start_is_accepted :
  let run := _send_action_to_mower "Robbie" START 30 garden_client accepted_world in
  returned run = Ok true ∧
  trace (world_after run) =
    [EvRequest POST "https://api.amc.husqvarna.dev/v1/mowers/abc-123/actions"] ∧
  get_http_error (client_after run) = None.
Proof.
  intros run.
  assert (run = (Ok true, client_after run, world_after run)) as Hrun
    by (vm_compute; reflexivity).
  destruct (send_action_success _ _ _ _ _ _ _ Hrun) as (_ & _ & _ & _ & Herror & _).
  split; [vm_compute; reflexivity|]. split; [vm_compute; reflexivity | exact Herror].
Defined.

(** X23 applied: the list is stored, and stamped with the reading taken
    after it. *)
Lemma garden_is_listed :
  let run := get_mowers built_client garden_world in
  returned run = Ok true ∧
  get_timestamp_last_update_mower_list (client_after run) = 2000000.
Proof.
  intros run.
  assert (run = (Ok true, client_after run, world_after run)) as Hrun
    by (vm_compute; reflexivity).
  destruct (get_mowers_success _ _ _ _ Hrun) as (_ & Hstamp & _).
  split; [vm_compute; reflexivity|]. rewrite Hstamp. vm_compute; reflexivity.
Defined.

(** X26 applied: a list document that makes [get_mowers] raise changes
    neither the list nor its time stamp. *)
Lemma broken_list_changes_nothing :
  let run := get_mowers garden_client broken_list_world in
  returned run = Raise (AttributeError (JNum 1) "get") ∧
  mowers (client_after run) = mowers garden_client ∧
  get_timestamp_last_update_mower_list (client_after run) =
    get_timestamp_last_update_mower_list garden_client.
Proof.
  intros run.
  destruct (get_mowers_all_or_nothing garden_client broken_list_world
              (returned run) (client_after run) (world_after run) (run_eta run))
    as (Hmowers & Hstamp); [vm_compute; discriminate|].
  split; [vm_compute; reflexivity|]. split; [exact Hmowers | exact Hstamp].
Defined.

(** X27 applied: the first check of a fresh client, answered by
    [token_document]. *)
Lemma first_check_returns :
  let run := _check_access_token_and_renew fresh_client first_use_world in
  returned run = Ok true ∧ stored_token_ok (client_after run).
Proof.
  intros run.
  assert (clock_ok first_use_world) as Hclock.
  { intros n. unfold microseconds_per_day, microseconds_per_second.
    destruct n as [|[|[|[|n]]]]; simpl; lia. }
  assert (token_answers_ok first_use_world) as Hanswers.
  { intros n r Hn Hr.
    destruct n as [|[|[|n]]]; simpl in Hr; try discriminate.
    injection Hr as <-. simpl.
    exists token_document. split; [reflexivity|]. intros _.
    eexists _, _. split; [reflexivity|].
    split; [vm_compute; reflexivity|]. split; [lia|].
    repeat split; vm_compute; reflexivity. }
  assert (stored_token_ok fresh_client) as Hstored by (by left).
  destruct (readable_answers_never_raise fresh_client first_use_world
              Hclock eq_refl Hstored Hanswers)
    as (ok & self' & w' & Hrun & _ & Hok).
  split; [vm_compute; reflexivity|].
  unfold run. rewrite Hrun. exact Hok.
Defined.

(** X28 applied: without network the check of [built_client] fails at 3001
    seconds, and is tried again at 3002 seconds. *)
Lemma offline_check_is_retried :
  let failed := _check_access_token_and_renew built_client expired_offline_world in
  let again := _check_access_token_and_renew (client_after failed)
                 (scripted [] [3002 * microseconds_per_second]) in
  returned failed = Ok false ∧
  ∃ rest, trace (world_after again) = token_request :: rest.
Proof.
  intros failed again.
  assert (failed = (Ok false, client_after failed, world_after failed)) as Hfailed
    by (vm_compute; reflexivity).
  destruct (failed_check_is_retried _ _ _ _
              (scripted [] [3002 * microseconds_per_second])
              (returned again) (client_after again) (world_after again)
              Hfailed ltac:(vm_compute; discriminate) (run_eta again))
    as (_ & rest & Hrest).
  split; [vm_compute; reflexivity|]. by exists rest.
Defined.

(** X29 applied: a token with [expires_in = 300] is renewed by a check made
    at the time of its acquisition. *)
Lemma short_lived_token_is_renewed :
  let acquired := _get_access_token fresh_client short_lived_world in
  let checked :=
    _check_access_token_and_renew (client_after acquired) (world_after acquired) in
  returned acquired = Ok true ∧
  access_token_expiration (state (client_after acquired)) = - 300 * microseconds_per_second ∧
  ∃ rest, trace (world_after checked) = trace (world_after acquired) ++ token_request :: rest.
Proof.
  intros acquired checked.
  assert (acquired = (Ok true, client_after acquired, world_after acquired)) as Hacquired
    by (vm_compute; reflexivity).
  destruct (short_lived_token_is_never_reused _ _ _ _ (world_after acquired)
              (returned checked) (client_after checked) (world_after checked)
              Hacquired) as (_ & rest & Hrest).
  - intros document Hdocument. exists 300.
    assert (access_token (state (client_after acquired)) =
              JObj {[ "access_token" := JStr "0123456789abcdef"; "expires_in" := JNum 300 ]})
      as Hstored by (vm_compute; reflexivity).
    rewrite Hstored in Hdocument. injection Hdocument as <-.
    split; [vm_compute; reflexivity | lia].
  - vm_compute; discriminate.
  - exact (run_eta checked).
  - split; [vm_compute; reflexivity|]. split; [vm_compute; reflexivity|].
    by exists rest.
Defined.
